(** * Customer intelligence pipeline: segment rules, campaign drafts, event ingestion

    A shallow embedding of the TypeScript sources
    ([lib/segments.ts], [lib/segmentPreview.ts], [lib/campaignUtils.ts],
    [lib/smartGenerate/mock.ts], [lib/smartDraft/mock.ts], [lib/utils.ts] and the
    API routes under [app/api]) together with the properties of the
    specification that concern them.

    Conventions of the embedding:
    - a JavaScript string is a [string] whose characters are the code units
      below 256 (Latin-1); the character classes and case mapping below are
      the ECMAScript ones restricted to that range;
    - a JavaScript number that is known to be an integer is a [Z], JSON
      numbers are rationals, and a number that [parseInt] and arithmetic
      computed is a double ([Js.number]: an integer or [Infinity]);
    - a [Date] is its time value in milliseconds, an Invalid Date being
      [None]; the clock of the server is UTC;
    - a database table is the list of its rows in insertion order, and the
      Prisma client calls are functions on those lists. *)

From Stdlib Require Import ZArith QArith.QArith_base Ascii String.
From stdpp Require Import base list strings gmap sorting.

Set Warnings "-register-all".
Local Open Scope Z_scope.

(* ================================================================== *)
(** * Part I: the program                                              *)
(* ================================================================== *)

(** ** JavaScript strings *)

Module Js.

Definition chars : string → list ascii := String.list_ascii_of_string.
Definition str : list ascii → string := String.string_of_list_ascii.

Definition code (c : ascii) : N := N_of_ascii c.

(** [WhiteSpace] and [LineTerminator] code points below 256: TAB, LF, VT,
    FF, CR, SP and NBSP.  The same set is the regular-expression class
    [\s]. *)
Definition isWhiteSpace (c : ascii) : bool :=
  let n := code c in
  ((9 <=? n) && (n <=? 13) || (n =? 32) || (n =? 160))%N.

(** The regular-expression classes [\d] and [\w]. *)
Definition isDigit (c : ascii) : bool :=
  let n := code c in ((48 <=? n) && (n <=? 57))%N.

Definition isWord (c : ascii) : bool :=
  let n := code c in
  ((48 <=? n) && (n <=? 57) || (65 <=? n) && (n <=? 90)
   || (97 <=? n) && (n <=? 122) || (n =? 95))%N.

Fixpoint trimStart (l : list ascii) : list ascii :=
  match l with
  | [] => []
  | c :: l' => if isWhiteSpace c then trimStart l' else l
  end.

Definition trimEnd (l : list ascii) : list ascii :=
  reverse (trimStart (reverse l)).

(** [String.prototype.trim] *)
Definition trim (s : string) : string :=
  str (trimEnd (trimStart (chars s))).

(** [String.prototype.toLowerCase] on Latin-1: the letters A-Z and the
    accented capitals 0xC0-0xDE (the multiplication sign 0xD7 apart) move
    up by 32. *)
Definition lowerChar (c : ascii) : ascii :=
  let n := code c in
  if ((65 <=? n) && (n <=? 90)
      || (192 <=? n) && (n <=? 222) && negb (n =? 215))%N
  then ascii_of_N (n + 32) else c.

Definition toLowerCase (s : string) : string :=
  str (map lowerChar (chars s)).

(** [s.split(sep)[0]] for a one-character separator: the text before
    the first occurrence of [sep]. *)
Fixpoint beforeFirst (sep : ascii) (l : list ascii) : list ascii :=
  match l with
  | [] => []
  | c :: l' => if Ascii.eqb c sep then [] else c :: beforeFirst sep l'
  end.

(** [s.replace(/c/g, d)] for single characters. *)
Definition replaceAll (c d : ascii) (s : string) : string :=
  str (map (λ x, if Ascii.eqb x c then d else x) (chars s)).

(** *** Numbers

    The numbers that [parseInt] gives for a run of digits, and those that
    adding 1 to them or multiplying them by 7 gives: IEEE 754 doubles
    that are natural numbers, and [Infinity]. *)
Inductive number : Type :=
| Finite (value : Z)
| Infinity.

(** The double nearest to the natural number [z], the one with the even
    significand (of 53 bits) when two are as near; [Infinity] when that is
    2^1024 or more. *)
Definition toDouble (z : Z) : number :=
  if z <? 2 ^ 53 then Finite z
  else
    let e := Z.log2 z - 52 in
    let q := z / 2 ^ e in
    let r := z mod 2 ^ e in
    let half := 2 ^ (e - 1) in
    let q' :=
      if (half <? r) || ((r =? half) && Z.odd q) then q + 1 else q in
    if 2 ^ 1024 <=? q' * 2 ^ e then Infinity else Finite (q' * 2 ^ e).

(** [x + k] and [x * k] for a natural number [k], and [x > 0]. *)
Definition plusNat (x : number) (k : Z) : number :=
  match x with
  | Finite z => toDouble (z + k)
  | Infinity => Infinity
  end.

Definition timesNat (x : number) (k : Z) : number :=
  match x with
  | Finite z => toDouble (z * k)
  | Infinity => Infinity
  end.

Definition isPositive (x : number) : bool :=
  match x with
  | Finite z => 0 <? z
  | Infinity => true
  end.

(** The natural number that a run of decimal digits denotes. *)
Definition digitValue (c : ascii) : Z := Z.of_N (code c) - 48.

Definition decimal (ds : list ascii) : Z :=
  foldl (λ acc c, 10 * acc + digitValue c) 0 ds.

(** [parseInt(digits, 10)] on a run of decimal digits: the double nearest
    to the number that the digits denote. *)
Definition parseInt (ds : list ascii) : number := toDouble (decimal ds).

Definition MAX_SAFE_INTEGER : Z := 9007199254740991.

(** *** Dates

    [TimeClip]: the time values of a [Date] are the instants of at most
    8.64e15 milliseconds from the epoch; any other is an Invalid Date. *)
Definition MAX_TIME : Z := 8640000000000000.

Definition timeClip (t : Z) : option Z :=
  if Z.abs t <=? MAX_TIME then Some t else None.

(** *** JSON values, as [JSON.parse] and the Prisma [Json] column give them *)

Inductive json : Type :=
| JNull
| JBool (b : bool)
| JNum (q : Q)
| JStr (s : string)
| JArr (items : list json)
| JObj (fields : list (string * json)).

Fixpoint assoc {A} (k : string) (l : list (string * A)) : option A :=
  match l with
  | [] => None
  | (k', v) :: l' => if String.eqb k k' then Some v else assoc k l'
  end.

(** Property read [v.k] on a value that is not [null]: [None] is
    [undefined].  Only plain objects carry the keys this program reads. *)
Definition get (v : json) (k : string) : option json :=
  match v with
  | JObj fields => assoc k fields
  | _ => None
  end.

(** [Number.isInteger(x)] and the integer a number denotes. *)
Definition isInteger (q : Q) : bool :=
  Z.eqb (Z.modulo (Qnum q) (Z.pos (Qden q))) 0.

Definition toInteger (q : Q) : Z := Z.div (Qnum q) (Z.pos (Qden q)).

(** [x <= 0] on a number. *)
Definition nonPositive (q : Q) : bool := Z.leb (Qnum q) 0.

(** Truthiness of an optional value ([None] is [undefined]). *)
Definition truthy (v : option json) : bool :=
  match v with
  | None | Some JNull | Some (JBool false) => false
  | Some (JNum q) => negb (Z.eqb (Qnum q) 0)
  | Some (JStr s) => negb (String.eqb s "")
  | Some _ => true
  end.

End Js.

Import Js.

(** ** lib/segments.ts *)

Module Segments.

(** [SegmentDefinition], over the type [N] of its numbers: once validated
    they are positive integers, so that a [SegmentDefinition] has them in
    [Z]; the mock provider builds its object from what [parseInt] gave,
    with them in [number]. *)
Inductive SegmentDefinitionOf (N : Type) : Type :=
| EventTypeInLastDays (eventType : string) (days : N)
| EventPropertyEquals (eventType path value : string) (days : N)
| EventCountGteInLastDays (eventType : string) (days minCount : N).

Arguments EventTypeInLastDays {N} eventType days.
Arguments EventPropertyEquals {N} eventType path value days.
Arguments EventCountGteInLastDays {N} eventType days minCount.

Abbreviation SegmentDefinition := (SegmentDefinitionOf Z).

Definition days {N : Type} (d : SegmentDefinitionOf N) : N :=
  match d with
  | EventTypeInLastDays _ n
  | EventPropertyEquals _ _ _ n
  | EventCountGteInLastDays _ n _ => n
  end.

Definition eventType {N : Type} (d : SegmentDefinitionOf N) : string :=
  match d with
  | EventTypeInLastDays t _
  | EventPropertyEquals t _ _ _
  | EventCountGteInLastDays t _ _ => t
  end.

Inductive Validation : Type :=
| Valid (definition : SegmentDefinition)
| Invalid (error : string).

(** [typeof x !== "string" || x.trim() === ""] negated: the trimmed text
    of a string whose trimmed text is not empty. *)
Definition nonEmptyString (v : option json) : option string :=
  match v with
  | Some (JStr s) => if String.eqb (trim s) "" then None else Some (trim s)
  | _ => None
  end.

(** [typeof x !== "number" || !Number.isInteger(x) || x <= 0] negated. *)
Definition positiveInteger (v : option json) : option Z :=
  match v with
  | Some (JNum q) =>
      if isInteger q && negb (nonPositive q) then Some (toInteger q) else None
  | _ => None
  end.

Definition validateEventTypeInLastDays (d : json) : Validation :=
  match nonEmptyString (get d "eventType") with
  | None => Invalid "eventType must be a non-empty string"
  | Some eventType =>
      match positiveInteger (get d "days") with
      | None => Invalid "days must be a positive integer"
      | Some days => Valid (EventTypeInLastDays eventType days)
      end
  end.

Definition validateEventPropertyEquals (d : json) : Validation :=
  match nonEmptyString (get d "eventType") with
  | None => Invalid "eventType must be a non-empty string"
  | Some eventType =>
      match nonEmptyString (get d "path") with
      | None => Invalid "path must be a non-empty string"
      | Some path =>
          match get d "value" with
          | Some (JStr value) =>
              match positiveInteger (get d "days") with
              | None => Invalid "days must be a positive integer"
              | Some days =>
                  Valid (EventPropertyEquals eventType path value days)
              end
          | _ => Invalid "value must be a string"
          end
      end
  end.

Definition validateEventCountGteInLastDays (d : json) : Validation :=
  match nonEmptyString (get d "eventType") with
  | None => Invalid "eventType must be a non-empty string"
  | Some eventType =>
      match positiveInteger (get d "days") with
      | None => Invalid "days must be a positive integer"
      | Some days =>
          match positiveInteger (get d "minCount") with
          | None => Invalid "minCount must be a positive integer"
          | Some minCount =>
              Valid (EventCountGteInLastDays eventType days minCount)
          end
      end
  end.

Definition validateSegmentDefinition (def : json) : Validation :=
  match def with
  | JObj _ =>
      match get def "kind" with
      | Some (JStr kind) =>
          if String.eqb kind "event_type_in_last_days"
          then validateEventTypeInLastDays def
          else if String.eqb kind "event_property_equals"
          then validateEventPropertyEquals def
          else if String.eqb kind "event_count_gte_in_last_days"
          then validateEventCountGteInLastDays def
          else Invalid ("Unknown definition kind: '" +:+ kind +:+ "'")
      | _ => Invalid "Definition must have a 'kind' field"
      end
  | _ => Invalid "Definition must be a JSON object"
  end.

End Segments.

(** ** Regular expressions

    The patterns of the mock providers use literals, the classes [\s], [\d]
    and [\w], alternation, the greedy quantifiers [*], [+] and [?], and at
    most one capture group.  [rmatch] is the backtracking matcher of
    ECMAScript for this fragment: alternatives are tried left to right, a
    quantifier takes as many iterations as it can before it gives one back,
    and an iteration that consumes nothing is not repeated. *)

Module Regex.

Inductive regex : Type :=
| Eps
| Chr (c : ascii)
| Cls (p : ascii → bool)
| Seq (r1 r2 : regex)
| Alt (r1 r2 : regex)
| Star (r : regex)
| Group (r : regex).

Fixpoint lit_chars (l : list ascii) : regex :=
  match l with
  | [] => Eps
  | c :: l' => Seq (Chr c) (lit_chars l')
  end.

Definition lit (s : string) : regex := lit_chars (chars s).
Definition plus (r : regex) : regex := Seq r (Star r).
Definition opt (r : regex) : regex := Alt r Eps.

Fixpoint seq (rs : list regex) : regex :=
  match rs with
  | [] => Eps
  | [r] => r
  | r :: rs' => Seq r (seq rs')
  end.

Fixpoint alt (rs : list regex) : regex :=
  match rs with
  | [] => Eps
  | [r] => r
  | r :: rs' => Alt r (alt rs')
  end.

Definition ws : regex := Cls isWhiteSpace.
Definition digit : regex := Cls isDigit.
Definition word : regex := Cls isWord.

(** The text of capture group 1, when the group took part in the match. *)
Definition capture : Type := option (list ascii).

Section Matcher.
Context {A : Type}.

Fixpoint rmatch (r : regex) (s : list ascii) (cap : capture)
    (k : list ascii → capture → option A) {struct r} : option A :=
  match r with
  | Eps => k s cap
  | Chr c =>
      match s with
      | c' :: s' => if Ascii.eqb c' c then k s' cap else None
      | [] => None
      end
  | Cls p =>
      match s with
      | c' :: s' => if p c' then k s' cap else None
      | [] => None
      end
  | Seq r1 r2 => rmatch r1 s cap (λ s' cap', rmatch r2 s' cap' k)
  | Alt r1 r2 =>
      match rmatch r1 s cap k with
      | Some a => Some a
      | None => rmatch r2 s cap k
      end
  | Star r' =>
      (fix iterate (n : nat) (s : list ascii) (cap : capture) : option A :=
         match n with
         | O => k s cap
         | S n' =>
             match
               rmatch r' s cap
                 (λ s' cap',
                    if (length s' <? length s)%nat
                    then iterate n' s' cap' else None)
             with
             | Some a => Some a
             | None => k s cap
             end
         end) (length s) s cap
  | Group r' =>
      rmatch r' s cap
        (λ s' _, k s' (Some (take (length s - length s')%nat s)))
  end.
End Matcher.

(** A match that starts at the first character of [s]. *)
Definition matchHere (r : regex) (s : list ascii) : option capture :=
  rmatch r s None (λ _ cap, Some cap).

(** The leftmost match: every start position in turn, the end of the text
    included. *)
Fixpoint search (r : regex) (s : list ascii) : option capture :=
  match matchHere r s with
  | Some cap => Some cap
  | None =>
      match s with
      | [] => None
      | _ :: s' => search r s'
      end
  end.

(** [text.match(r)] for a pattern without the global flag, and
    [r.test(text)]. *)
Definition exec (r : regex) (text : string) : option capture :=
  search r (chars text).

Definition test (r : regex) (text : string) : bool :=
  bool_decide (is_Some (exec r text)).

(** [match[1]] *)
Definition group1 (m : capture) : list ascii := default [] m.

Fixpoint isPrefix (p s : list ascii) : bool :=
  match p, s with
  | [], _ => true
  | _ :: _, [] => false
  | c :: p', c' :: s' => Ascii.eqb c c' && isPrefix p' s'
  end.

Fixpoint includesChars (p s : list ascii) : bool :=
  isPrefix p s ||
  match s with
  | [] => false
  | _ :: s' => includesChars p s'
  end.

(** [text.includes(needle)] *)
Definition includes (text needle : string) : bool :=
  includesChars (chars needle) (chars text).

End Regex.

(** ** lib/smartGenerate/mock.ts *)

Module SmartGenerate.
Import Regex Segments.

(** [/(?:last|past|within)\s+(\d+)\s*days?/] *)
Definition re_days : regex :=
  seq [alt [lit "last"; lit "past"; lit "within"]; plus ws;
       Group (plus digit); Star ws; lit "day"; opt (Chr "s")].

(** [/(?:last|past)\s+(\d+)\s*weeks?/] *)
Definition re_weeks : regex :=
  seq [alt [lit "last"; lit "past"]; plus ws;
       Group (plus digit); Star ws; lit "week"; opt (Chr "s")].

Definition parseDays (text : string) : number :=
  match exec re_days text with
  | Some m => parseInt (group1 m)
  | None =>
      match exec re_weeks text with
      | Some m => timesNat (parseInt (group1 m)) 7
      | None =>
          if includes text "week" then Finite 7
          else if includes text "month" then Finite 30
          else Finite 30
      end
  end.

(** [/at\s+least\s+(\d+)/], [/>=\s*(\d+)/] and [/more\s+than\s+(\d+)/] *)
Definition re_at_least : regex :=
  seq [lit "at"; plus ws; lit "least"; plus ws; Group (plus digit)].

Definition re_gte : regex :=
  seq [lit ">="; Star ws; Group (plus digit)].

Definition re_more_than : regex :=
  seq [lit "more"; plus ws; lit "than"; plus ws; Group (plus digit)].

Definition parseMinCount (text : string) : number :=
  match exec re_at_least text with
  | Some m => parseInt (group1 m)
  | None =>
      match exec re_gte text with
      | Some m => parseInt (group1 m)
      | None =>
          match exec re_more_than text with
          | Some m => plusNat (parseInt (group1 m)) 1
          | None => Finite 0
          end
      end
  end.

Definition mappings : list (regex * string) :=
  [ (seq [lit "add"; opt (lit "ed"); plus ws; lit "to"; plus ws; lit "cart"],
     "added_to_cart");
    (lit "purchas", "purchase");
    (seq [lit "sign"; opt (lit "ed"); Star ws; lit "up"], "signup");
    (seq [lit "log"; opt (lit "ged"); Star ws; lit "in"], "login");
    (seq [lit "page"; Star ws; lit "view"], "page_view");
    (seq [lit "check"; opt (lit "ed"); Star ws; lit "out"], "checkout") ].

Definition parseEventType (text : string) : string :=
  match list_find (λ m : regex * string, test m.1 text = true) mappings with
  | Some (_, (_, eventType)) => eventType
  | None => "page_view"
  end.

(** [/(?:pricing|\/pricing|visited\s+\/\w+|viewed\s+\/\w+)/] and
    [/\/(\w+)/] *)
Definition re_pricing : regex :=
  alt [lit "pricing"; lit "/pricing";
       seq [lit "visited"; plus ws; Chr "/"; plus word];
       seq [lit "viewed"; plus ws; Chr "/"; plus word]].

Definition re_path : regex := seq [Chr "/"; Group (plus word)].

(** [MockSmartGenerateProvider.generate] *)
Definition generate (prompt : string) : SegmentDefinitionOf number :=
  let lower := toLowerCase prompt in
  let days := parseDays lower in
  let minCount := parseMinCount lower in
  let eventType := parseEventType lower in
  if test re_pricing lower then
    let path :=
      match exec re_path lower with
      | Some m => "/" +:+ str (group1 m)
      | None => "/pricing"
      end in
    EventPropertyEquals "page_view" "path" path days
  else if isPositive minCount then
    EventCountGteInLastDays eventType days minCount
  else
    EventTypeInLastDays eventType days.

End SmartGenerate.

(** ** lib/smartDraft/types.ts and lib/smartDraft/mock.ts *)

Module SmartDraft.

(** [recommendedSku?: string | null]: [None] is an absent field,
    [Some None] is [null]. *)
Record DraftInput : Type := {
  customerEmail : string;
  recentEventType : option string;
  recommendedSku : option (option string)
}.

Record DraftOutput : Type := {
  subject : string;
  body : string
}.

Class SmartDraftProvider : Type := {
  generate : DraftInput → DraftOutput
}.

Definition nl : string := String (ascii_of_nat 10) "".

Definition formatEventType (eventType : string) : string :=
  replaceAll "_" " " eventType.

(** Truthiness of an optional string: present, not [null], not empty. *)
Definition present (v : option string) : option string :=
  match v with
  | Some s => if String.eqb s "" then None else Some s
  | None => None
  end.

(** [MockSmartDraftProvider.generate].  The arrow that ends each body is
    kept as the bytes of its UTF-8 encoding. *)
Definition mockGenerate (input : DraftInput) : DraftOutput :=
  let firstName := str (beforeFirst "@" (chars (customerEmail input))) in
  let activity :=
    match present (recentEventType input) with
    | Some t => formatEventType t
    | None => "recently visited us"
    end in
  match present (mjoin (recommendedSku input)),
        present (recentEventType input) with
  | Some sku, Some _ =>
      {| subject := "Still thinking about " +:+ sku +:+ "?";
         body := "Hi " +:+ firstName +:+ "," +:+ nl +:+ nl
           +:+ "We noticed you " +:+ activity
           +:+ " and showed interest in " +:+ sku
           +:+ ". Don't let it get away!" +:+ nl +:+ nl +:+ "Shop now →" |}
  | Some sku, None =>
      {| subject := "Still thinking about " +:+ sku +:+ "?";
         body := "Hi " +:+ firstName +:+ "," +:+ nl +:+ nl
           +:+ "We think " +:+ sku
           +:+ " would be perfect for you. Grab it before it's gone!"
           +:+ nl +:+ nl +:+ "Shop now →" |}
  | None, Some _ =>
      {| subject := "We have something special for you";
         body := "Hi " +:+ firstName +:+ "," +:+ nl +:+ nl
           +:+ "Thank you for " +:+ activity
           +:+ ". We'd love to help you find what you're looking for."
           +:+ nl +:+ nl +:+ "Explore our latest →" |}
  | None, None =>
      {| subject := "We have something special for you";
         body := "Hi " +:+ firstName +:+ "," +:+ nl +:+ nl
           +:+ "We'd love to reconnect and share our latest offerings with you."
           +:+ nl +:+ nl +:+ "Explore now →" |}
  end.

Definition MockSmartDraftProvider : SmartDraftProvider :=
  {| generate := mockGenerate |}.

End SmartDraft.


(** ** The database

    Modelled from the spec: the Prisma schema ([prisma/schema.prisma]) and the
    client ([lib/prisma.ts]) are not among the sources.  The tables and
    columns are the ones the routes read and write; per the data model of the
    specification a new [EmailDraft] starts in status [generated], and the
    pairs (customer, idempotency key) of events, (campaign, customer) of
    drafts and (campaign, customer) of sends are unique.  Row identifiers
    come from a counter. *)

Module Db.

Definition Id : Type := nat.
Bind Scope nat_scope with Id.

Module Customer.
Record t : Type := { id : Id; email : string }.
End Customer.

Module Event.
Record t : Type := {
  id : Id;
  customerId : Id;
  type : string;
  properties : json;
  occurredAt : Z;
  idempotencyKey : option string
}.
End Event.

Inductive CampaignStatus : Type :=
| StatusDraft | StatusDrafted | StatusSending | StatusSent | StatusFailed.

#[export] Instance CampaignStatus_eq_dec : EqDecision CampaignStatus.
Proof. solve_decision. Defined.

Module Campaign.
Record t : Type := {
  id : Id;
  name : string;
  segmentId : Id;
  segmentSnapshot : json;
  status : CampaignStatus
}.

Definition withStatus (s : CampaignStatus) (c : t) : t :=
  {| id := id c; name := name c; segmentId := segmentId c;
     segmentSnapshot := segmentSnapshot c; status := s |}.
End Campaign.

Inductive DraftStatus : Type := Generated | Approved | Rejected.

#[export] Instance DraftStatus_eq_dec : EqDecision DraftStatus.
Proof. solve_decision. Defined.

Module EmailDraft.
Record t : Type := {
  id : Id;
  campaignId : Id;
  customerId : Id;
  subject : string;
  body : string;
  recommendedSku : option string;
  status : DraftStatus
}.

Definition withCopy (subject' body' : string) (sku : option string)
    (d : t) : t :=
  {| id := id d; campaignId := campaignId d; customerId := customerId d;
     subject := subject'; body := body'; recommendedSku := sku;
     status := status d |}.

Definition withStatus (s : DraftStatus) (d : t) : t :=
  {| id := id d; campaignId := campaignId d; customerId := customerId d;
     subject := subject d; body := body d;
     recommendedSku := recommendedSku d; status := s |}.
End EmailDraft.

Inductive SendStatus : Type := Queued | SendSent | SendFailed.

#[export] Instance SendStatus_eq_dec : EqDecision SendStatus.
Proof. solve_decision. Defined.

Module Send.
Record t : Type := {
  id : Id;
  campaignId : Id;
  customerId : Id;
  status : SendStatus;
  sentAt : option Z;
  error : option string
}.

Definition withResult (s : SendStatus) (at' : option Z)
    (err : option string) (x : t) : t :=
  {| id := id x; campaignId := campaignId x; customerId := customerId x;
     status := s; sentAt := at'; error := err |}.
End Send.

Record t : Type := {
  customers : list Customer.t;
  events : list Event.t;
  campaigns : list Campaign.t;
  emailDrafts : list EmailDraft.t;
  sends : list Send.t;
  nextId : Id
}.

Definition withCustomers (db : t) (l : list Customer.t) (n : Id) : t :=
  {| customers := l; events := events db; campaigns := campaigns db;
     emailDrafts := emailDrafts db; sends := sends db; nextId := n |}.

Definition withEvents (db : t) (l : list Event.t) (n : Id) : t :=
  {| customers := customers db; events := l; campaigns := campaigns db;
     emailDrafts := emailDrafts db; sends := sends db; nextId := n |}.

Definition withCampaigns (db : t) (l : list Campaign.t) : t :=
  {| customers := customers db; events := events db; campaigns := l;
     emailDrafts := emailDrafts db; sends := sends db; nextId := nextId db |}.

Definition withEmailDrafts (db : t) (l : list EmailDraft.t) (n : Id) : t :=
  {| customers := customers db; events := events db;
     campaigns := campaigns db; emailDrafts := l; sends := sends db;
     nextId := n |}.

Definition withSends (db : t) (l : list Send.t) (n : Id) : t :=
  {| customers := customers db; events := events db;
     campaigns := campaigns db; emailDrafts := emailDrafts db; sends := l;
     nextId := n |}.

(** *** The client calls *)

Section Table.
Context {A : Type}.

(** [findFirst] / [findUnique]: the first row that satisfies [where]. *)
Definition findFirst (where_ : A → bool) (rows : list A) : option A :=
  List.find where_ rows.

(** [update]: the row that [where] designates is changed in place. *)
Fixpoint update (where_ : A → bool) (data : A → A) (rows : list A)
    : list A :=
  match rows with
  | [] => []
  | r :: rows' =>
      if where_ r then data r :: rows'
      else r :: update where_ data rows'
  end.

(** [upsert]: [update] when a row matches, otherwise the row [create]
    is added.  The flag tells whether a row was added. *)
Definition upsert (where_ : A → bool) (data : A → A) (create : A)
    (rows : list A) : list A * bool :=
  match findFirst where_ rows with
  | Some _ => (update where_ data rows, false)
  | None => (rows ++ [create], true)
  end.
End Table.

Definition findCampaign (id : Id) (db : t) : option Campaign.t :=
  findFirst (λ c, bool_decide (Campaign.id c = id)) (campaigns db).

Definition setCampaignStatus (id : Id) (s : CampaignStatus) (db : t) : t :=
  withCampaigns db
    (update (λ c, bool_decide (Campaign.id c = id)) (Campaign.withStatus s)
       (campaigns db)).

End Db.

(** ** lib/segmentPreview.ts *)

Module SegmentPreview.
Import Segments Db.

Record PreviewResult : Type := {
  count : nat;
  customers : list Customer.t
}.

Definition PREVIEW_LIMIT : nat := 50.

Definition DAY_MS : Z := 24 * 60 * 60 * 1000.

(** [cutoff.setDate(cutoff.getDate() - days)] on [new Date()], the
    server clock being UTC and reading [now]: [days] calendar days before
    [now], an Invalid Date when that instant is outside the range of
    [Date]. *)
Definition cutoffFor (now days : Z) : option Z :=
  timeClip (now - days * DAY_MS).

Definition emailLe (a b : Customer.t) : Prop :=
  String.le (Customer.email a) (Customer.email b).

#[export] Instance emailLe_dec : RelDecision emailLe.
Proof. intros a b. unfold emailLe. apply _. Defined.

Definition fetchCustomers (customerIds : list Id) (db : Db.t)
    : PreviewResult :=
  if bool_decide (length customerIds = 0%nat) then
    {| count := 0; customers := [] |}
  else
    let found :=
      filter (λ c, Customer.id c ∈ customerIds) (Db.customers db) in
    {| count := length customerIds;
       customers := take PREVIEW_LIMIT (merge_sort emailLe found) |}.

(** [where: { type: eventType, occurredAt: { gte: cutoff } }] *)
Definition inWindow (eventType : string) (cutoff : Z) (e : Event.t) : Prop :=
  Event.type e = eventType ∧ cutoff ≤ Event.occurredAt e.

#[export] Instance inWindow_dec t c e : Decision (inWindow t c e).
Proof. unfold inWindow. apply _. Defined.

(** [properties: { path: [path], equals: value }] *)
Definition propertyEquals (path value : string) (e : Event.t) : Prop :=
  get (Event.properties e) path = Some (JStr value).

#[export] Instance propertyEquals_dec p v e : Decision (propertyEquals p v e).
Proof.
  unfold propertyEquals.
  destruct (get (Event.properties e) p) as [[| | |s| |]|];
    try (right; discriminate).
  destruct (decide (s = v)) as [->|Hne]; [left; reflexivity|].
  right; intros [= ?]; contradiction.
Defined.

Definition evaluateEventTypeInLastDays (eventType : string) (cutoff : Z)
    (db : Db.t) : PreviewResult :=
  let events := filter (inWindow eventType cutoff) (Db.events db) in
  let customerIds := remove_dups (Event.customerId <$> events) in
  fetchCustomers customerIds db.

Definition evaluateEventPropertyEquals (eventType path value : string)
    (cutoff : Z) (db : Db.t) : PreviewResult :=
  let events :=
    filter (λ e, inWindow eventType cutoff e ∧ propertyEquals path value e)
      (Db.events db) in
  let customerIds := remove_dups (Event.customerId <$> events) in
  fetchCustomers customerIds db.

(** [groupBy customerId ... having count >= minCount] *)
Definition evaluateEventCountGte (eventType : string) (cutoff minCount : Z)
    (db : Db.t) : PreviewResult :=
  let events := filter (inWindow eventType cutoff) (Db.events db) in
  let groups :=
    filter
      (λ c, minCount
            ≤ Z.of_nat (length (filter (λ e, Event.customerId e = c) events)))
      (remove_dups (Event.customerId <$> events)) in
  fetchCustomers groups db.

(** The queries of Prisma reject an Invalid Date: with such a cutoff the
    first query throws, which is [None] here, and the three functions
    above are given the time value of a cutoff that is a date.  Of the
    ways a query can fail this is the one that the embedding has. *)
Definition evaluateSegment (now : Z) (definition : SegmentDefinition)
    (db : Db.t) : option PreviewResult :=
  match cutoffFor now (Segments.days definition) with
  | None => None
  | Some cutoff =>
      Some
        match definition with
        | EventTypeInLastDays eventType _ =>
            evaluateEventTypeInLastDays eventType cutoff db
        | EventPropertyEquals eventType path value _ =>
            evaluateEventPropertyEquals eventType path value cutoff db
        | EventCountGteInLastDays eventType _ minCount =>
            evaluateEventCountGte eventType cutoff minCount db
        end
  end.

End SegmentPreview.

(** ** lib/campaignUtils.ts *)

Module CampaignUtils.
Import Db.

Fixpoint extractRecommendedSku (events : list Event.t) : option string :=
  match events with
  | [] => None
  | event :: rest =>
      match get (Event.properties event) "sku" with
      | Some (JStr sku) =>
          if String.eqb (trim sku) "" then extractRecommendedSku rest
          else Some (trim sku)
      | _ => extractRecommendedSku rest
      end
  end.

Definition extractRecentEventType (events : list Event.t) : option string :=
  Event.type <$> head events.

End CampaignUtils.

(** ** app/api/campaigns/[id]/generate-drafts/route.ts *)

Module GenerateDraftsRoute.
Import Segments Db SegmentPreview CampaignUtils SmartDraft.

Inductive Response : Type :=
| Json (draftedCount : nat)
| Error (status : nat) (error : string).

Definition THIRTY_DAYS_MS : Z := 30 * 24 * 60 * 60 * 1000.

(** [orderBy: { occurredAt: "desc" }] *)
Definition newerFirst (a b : Event.t) : Prop :=
  Event.occurredAt b ≤ Event.occurredAt a.

#[export] Instance newerFirst_dec : RelDecision newerFirst.
Proof. intros a b. unfold newerFirst. apply _. Defined.

(** The events of the matched customers since
    [new Date(Date.now() - THIRTY_DAYS_MS)], which is a date, [now] being a
    reading of the clock. *)
Definition recentEventsOf (now : Z) (customerIds : list Id) (db : Db.t)
    : list Event.t :=
  let cutoff := now - THIRTY_DAYS_MS in
  merge_sort newerFirst
    (filter (λ e, Event.customerId e ∈ customerIds
                  ∧ cutoff ≤ Event.occurredAt e) (Db.events db)).

(** The [Map] from customer id to that customer's events, in the order of
    [recentEvents]. *)
Definition groupByCustomer (recentEvents : list Event.t)
    : gmap Id (list Event.t) :=
  foldl
    (λ m event,
       let m' :=
         match m !! Event.customerId event with
         | Some _ => m
         | None => <[Event.customerId event := []]> m
         end in
       <[Event.customerId event :=
           default [] (m' !! Event.customerId event) ++ [event]]> m')
    ∅ recentEvents.

(** The subject, body and SKU of the draft of one customer. *)
Definition draftFor `{SmartDraftProvider}
    (eventsByCustomer : gmap Id (list Event.t)) (c : Customer.t)
    : DraftOutput * option string :=
  let events := default [] (eventsByCustomer !! Customer.id c) in
  let recommendedSku := extractRecommendedSku events in
  let recentEventType := extractRecentEventType events in
  (generate {| customerEmail := Customer.email c;
               recentEventType := recentEventType;
               recommendedSku := Some recommendedSku |},
   recommendedSku).

(** [prisma.emailDraft.upsert] on the key (campaign, customer) *)
Definition sameDraftKey (campaignId customerId : Id) (d : EmailDraft.t)
    : bool :=
  bool_decide (EmailDraft.campaignId d = campaignId
               ∧ EmailDraft.customerId d = customerId).

Definition upsertDraft (campaignId customerId : Id) (out : DraftOutput)
    (sku : option string) (db : Db.t) : Db.t :=
  let '(rows, added) :=
    upsert (sameDraftKey campaignId customerId)
      (EmailDraft.withCopy (subject out) (body out) sku)
      {| EmailDraft.id := Db.nextId db;
         EmailDraft.campaignId := campaignId;
         EmailDraft.customerId := customerId;
         EmailDraft.subject := subject out;
         EmailDraft.body := body out;
         EmailDraft.recommendedSku := sku;
         EmailDraft.status := Generated |}
      (Db.emailDrafts db) in
  withEmailDrafts db rows (if added then S (Db.nextId db) else Db.nextId db).

(** The loop over [preview.customers]: the state is the database and
    [draftedCount]. *)
Definition draftStep `{SmartDraftProvider} (id : Id)
    (eventsByCustomer : gmap Id (list Event.t))
    (st : Db.t * nat) (c : Customer.t) : Db.t * nat :=
  let '(out, sku) := draftFor eventsByCustomer c in
  (upsertDraft id (Customer.id c) out sku st.1, S st.2).

(** An evaluation of the segment that throws ends in the handler's
    [catch], before anything is written. *)
Definition POST `{SmartDraftProvider} (now : Z) (id : Id) (db : Db.t)
    : Response * Db.t :=
  match findCampaign id db with
  | None => (Error 404 "Campaign not found", db)
  | Some campaign =>
      match validateSegmentDefinition (Campaign.segmentSnapshot campaign) with
      | Invalid error =>
          (Error 400 ("Invalid segment snapshot: " +:+ error), db)
      | Valid definition =>
          match evaluateSegment now definition db with
          | None => (Error 500 "Internal server error", db)
          | Some preview =>
              let customerIds := Customer.id <$> customers preview in
              if bool_decide (length customerIds = 0%nat) then (Json 0, db)
              else
                let recentEvents := recentEventsOf now customerIds db in
                let eventsByCustomer := groupByCustomer recentEvents in
                let '(db1, draftedCount) :=
                  foldl (draftStep id eventsByCustomer) (db, 0%nat)
                    (customers preview) in
                let db2 :=
                  if (0 <? draftedCount)%nat
                  then setCampaignStatus id StatusDrafted db1 else db1 in
                (Json draftedCount, db2)
          end
      end
  end.

End GenerateDraftsRoute.

(** ** app/api/campaigns/[id]/send/route.ts *)

Module SendRoute.
Import Db.

Inductive Response : Type :=
| Json (sentCount failedCount : nat)
| Error (status : nat) (error : string).

Definition sameSendKey (campaignId customerId : Id) (x : Send.t) : bool :=
  bool_decide (Send.campaignId x = campaignId
               ∧ Send.customerId x = customerId).

(** [const simulatedSuccess = true] *)
Definition simulatedSuccess : bool := true.

Definition upsertSend (campaignId customerId : Id) (s : SendStatus)
    (at' : option Z) (err : option string) (keepAt : bool) (db : Db.t)
    : Db.t :=
  let '(rows, added) :=
    upsert (sameSendKey campaignId customerId)
      (λ x, Send.withResult s (if keepAt then Send.sentAt x else at') err x)
      {| Send.id := Db.nextId db; Send.campaignId := campaignId;
         Send.customerId := customerId; Send.status := s;
         Send.sentAt := at'; Send.error := err |}
      (Db.sends db) in
  withSends db rows (if added then S (Db.nextId db) else Db.nextId db).

(** One iteration of the loop over the approved drafts: the state is the
    database, [sentCount] and [failedCount]. *)
Definition sendStep (now : Z) (id : Id) (st : Db.t * nat * nat)
    (draft : EmailDraft.t) : Db.t * nat * nat :=
  let '(db, sentCount, failedCount) := st in
  let customerId := EmailDraft.customerId draft in
  if simulatedSuccess then
    (upsertSend id customerId SendSent (Some now) None false db,
     S sentCount, failedCount)
  else
    (upsertSend id customerId SendFailed None
       (Some "Simulated send failure") true db,
     sentCount, S failedCount).

Definition POST (now : Z) (id : Id) (db : Db.t) : Response * Db.t :=
  match findCampaign id db with
  | None => (Error 404 "Campaign not found", db)
  | Some campaign =>
      let drafts :=
        filter (λ d, EmailDraft.campaignId d = id
                     ∧ EmailDraft.status d = Approved) (Db.emailDrafts db) in
      if bool_decide (length drafts = 0%nat)
      then (Error 400 "No approved drafts to send", db)
      else
        let '(db1, sentCount, failedCount) :=
          foldl (sendStep now id) (db, 0%nat, 0%nat) drafts in
        let newStatus :=
          if bool_decide (failedCount = 0%nat) then StatusSent
          else if bool_decide (sentCount = 0%nat) then StatusFailed
          else StatusSent in
        (Json sentCount failedCount, setCampaignStatus id newStatus db1)
  end.

End SendRoute.

(** ** app/api/campaigns/[id]/drafts/[draftId]/route.ts *)

Module DraftRoute.
Import Db.

Inductive Response : Type :=
| Json (updated : EmailDraft.t)
| Error (status : nat) (error : string).

Definition ALLOWED_STATUSES : list string := ["approved"; "rejected"].

Definition statusOfString (s : string) : option DraftStatus :=
  if String.eqb s "approved" then Some Approved
  else if String.eqb s "rejected" then Some Rejected
  else None.

Definition statusName (s : DraftStatus) : string :=
  match s with
  | Generated => "generated"
  | Approved => "approved"
  | Rejected => "rejected"
  end.

(** The double quote character. *)
Definition quote : string := String (ascii_of_nat 34) "".

Definition invalidStatus : Response :=
  Error 400 ("status must be one of: "
             +:+ String.concat ", " ALLOWED_STATUSES).

(** [findFirst({ where: { id: draftId, campaignId } })] *)
Definition findDraft (campaignId draftId : Id) (db : Db.t)
    : option EmailDraft.t :=
  findFirst
    (λ d, bool_decide (EmailDraft.id d = draftId
                       ∧ EmailDraft.campaignId d = campaignId))
    (Db.emailDrafts db).

(** [prisma.emailDraft.update({ where: { id: draftId }, data: { status } })]:
    the row of that id is rewritten and returned; the call throws when
    there is none, which the handler turns into a 500. *)
Definition updateStatus (draftId : Id) (s : DraftStatus) (db : Db.t)
    : Response * Db.t :=
  let where_ := λ d, bool_decide (EmailDraft.id d = draftId) in
  match findFirst where_ (Db.emailDrafts db) with
  | None => (Error 500 "Internal server error", db)
  | Some row =>
      (Json (EmailDraft.withStatus s row),
       withEmailDrafts db
         (update where_ (EmailDraft.withStatus s) (Db.emailDrafts db))
         (Db.nextId db))
  end.

(** [body] is [None] when the request body is not JSON.  Destructuring
    [null] throws, which the outer handler turns into a 500. *)
Definition PATCH (campaignId draftId : Id) (body : option json) (db : Db.t)
    : Response * Db.t :=
  match body with
  | None => (Error 400 "Invalid JSON body", db)
  | Some JNull => (Error 500 "Internal server error", db)
  | Some b =>
      match get b "status" with
      | Some (JStr status) =>
          if bool_decide (status ∈ ALLOWED_STATUSES) then
            match findDraft campaignId draftId db with
            | None => (Error 404 "Draft not found", db)
            | Some existing =>
                match EmailDraft.status existing with
                | Generated =>
                    updateStatus draftId
                      (default Generated (statusOfString status)) db
                | other =>
                    (Error 409 ("Cannot transition draft from status " +:+ quote
                                +:+ statusName other +:+ quote), db)
                end
            end
          else (invalidStatus, db)
      | _ => (invalidStatus, db)
      end
  end.

End DraftRoute.


(** ** lib/utils.ts *)

Module Utils.
Import Regex.

Definition normalizeEmail (email : string) : string :=
  toLowerCase (trim email).

(** [[^\s@]] *)
Definition notSpaceOrAt (c : ascii) : bool :=
  negb (isWhiteSpace c || Ascii.eqb c "@").

(** [/^[^\s@]+@[^\s@]+\.[^\s@]+$/]: the two anchors make the pattern match
    at the first character only and up to the end of the text. *)
Definition emailRegex : regex :=
  seq [plus (Cls notSpaceOrAt); Chr "@"; plus (Cls notSpaceOrAt); Chr ".";
       plus (Cls notSpaceOrAt)].

Definition isValidEmail (email : string) : bool :=
  bool_decide
    (is_Some
       (rmatch emailRegex (chars email) None
          (λ rest _, match rest with [] => Some () | _ => None end))).

End Utils.

(** ** app/api/events/route.ts *)

Module EventsRoute.
Import Db Utils.

Record Request : Type := {
  idempotencyKeyHeader : option string;
  body : option json
}.

Inductive Response : Type :=
| Json (status : nat) (created : bool) (eventId customerId : Id)
| Error (status : nat) (error : string).

(** The fields of an accepted request. *)
Record Accepted : Type := {
  normalizedEmail : string;
  eventType : string;
  properties : json;
  occurredAt : Z
}.

Section Handler.
(** [new Date(v).getTime()] for a truthy [body.occurredAt]; [None] is an
    invalid date. *)
Variable newDate : json → option Z.

(** [body.email ?? body.customer?.email] *)
Definition requestEmail (body : json) : option json :=
  match get body "email" with
  | None | Some JNull =>
      match get body "customer" with
      | None | Some JNull => None
      | Some customer => get customer "email"
      end
  | Some email => Some email
  end.

(** The checks of the handler up to the read of the header, in order. *)
Definition validate (now : Z) (body : json) : Response + Accepted :=
  match requestEmail body with
  | Some (JStr email) =>
      if String.eqb email "" then inl (Error 400 "Email is required")
      else
        match get body "type" with
        | Some (JStr type) =>
            if String.eqb (trim type) ""
            then inl (Error 400 "Event type is required")
            else
              let normalizedEmail := normalizeEmail email in
              if negb (isValidEmail normalizedEmail)
              then inl (Error 400 "Invalid email format")
              else
                let checked (properties : json) : Response + Accepted :=
                  if truthy (get body "occurredAt") then
                    match newDate (default JNull (get body "occurredAt")) with
                    | None => inl (Error 400 "Invalid occurredAt date format")
                    | Some occurredAt =>
                        inr {| normalizedEmail := normalizedEmail;
                               eventType := trim type;
                               properties := properties;
                               occurredAt := occurredAt |}
                    end
                  else
                    inr {| normalizedEmail := normalizedEmail;
                           eventType := trim type;
                           properties := properties;
                           occurredAt := now |} in
                match get body "properties" with
                | None => checked (JObj [])
                | Some (JObj fields) => checked (JObj fields)
                | Some _ => inl (Error 400 "Properties must be a JSON object")
                end
        | _ => inl (Error 400 "Event type is required")
        end
  | _ => inl (Error 400 "Email is required")
  end.

(** [request.headers.get("Idempotency-Key") || null] *)
Definition idempotencyKeyOf (request : Request) : option string :=
  match idempotencyKeyHeader request with
  | Some key => if String.eqb key "" then None else Some key
  | None => None
  end.

(** [prisma.customer.upsert] by email, with an empty [update] *)
Definition upsertCustomer (email : string) (db : Db.t) : Customer.t * Db.t :=
  match
    findFirst (λ c, bool_decide (Customer.email c = email)) (Db.customers db)
  with
  | Some customer => (customer, db)
  | None =>
      let customer := {| Customer.id := Db.nextId db; Customer.email := email |} in
      (customer,
       withCustomers db (Db.customers db ++ [customer]) (S (Db.nextId db)))
  end.

Definition findByKey (customerId : Id) (key : string) (db : Db.t)
    : option Event.t :=
  findFirst
    (λ e, bool_decide (Event.customerId e = customerId
                       ∧ Event.idempotencyKey e = Some key))
    (Db.events db).

Definition createEvent (customerId : Id) (a : Accepted)
    (idempotencyKey : option string) (db : Db.t) : Event.t * Db.t :=
  let event :=
    {| Event.id := Db.nextId db;
       Event.customerId := customerId;
       Event.type := eventType a;
       Event.properties := properties a;
       Event.occurredAt := occurredAt a;
       Event.idempotencyKey := idempotencyKey |} in
  (event, withEvents db (Db.events db ++ [event]) (S (Db.nextId db))).

(** The handler after validation. *)
Definition store (a : Accepted) (idempotencyKey : option string) (db : Db.t)
    : Response * Db.t :=
  let '(customer, db1) := upsertCustomer (normalizedEmail a) db in
  let existingEvent :=
    match idempotencyKey with
    | Some key => findByKey (Customer.id customer) key db1
    | None => None
    end in
  match existingEvent with
  | Some existing =>
      (Json 200 false (Event.id existing) (Customer.id customer), db1)
  | None =>
      let '(event, db2) :=
        createEvent (Customer.id customer) a idempotencyKey db1 in
      (Json 201 true (Event.id event) (Customer.id customer), db2)
  end.

(** [body] is [None] when the request body is not JSON; reading a field of
    [null] throws.  Both end in the handler's [catch]. *)
Definition POST (now : Z) (request : Request) (db : Db.t) : Response * Db.t :=
  match body request with
  | None | Some JNull => (Error 500 "Internal server error", db)
  | Some b =>
      match validate now b with
      | inl error => (error, db)
      | inr a => store a (idempotencyKeyOf request) db
      end
  end.

End Handler.
End EventsRoute.


(** ** The Segment table

    Modelled from the spec: like the other tables, [Segment] is declared in
    the Prisma schema, which is not among the sources.  Its columns are the
    ones the segment and campaign routes write.  The [description] column
    of [Campaign], which only campaign creation writes, is kept beside the
    campaign rows, keyed by the campaign id. *)

Module Store.
Import Segments Db.

Module Segment.
Record t : Type := {
  id : Id;
  name : string;
  description : option string;
  definition : json
}.
End Segment.

Record t : Type := {
  db : Db.t;
  segments : list Segment.t;
  campaignDescriptions : gmap Id (option string)
}.

Definition withDb (s : t) (db' : Db.t) : t :=
  {| db := db'; segments := segments s;
     campaignDescriptions := campaignDescriptions s |}.

(** The counter of row identifiers after one more row. *)
Definition idTaken (d : Db.t) : Db.t :=
  withSends d (Db.sends d) (S (Db.nextId d)).

Definition findSegment (id : Id) (s : t) : option Segment.t :=
  findFirst (λ g, bool_decide (Segment.id g = id)) (segments s).

(** The object that the validator returns for an accepted definition, as
    JSON: what a [Json] column stores and what a response carries. *)
Definition definitionJson (d : SegmentDefinition) : json :=
  match d with
  | EventTypeInLastDays eventType days =>
      JObj [("kind", JStr "event_type_in_last_days");
            ("eventType", JStr eventType);
            ("days", JNum (Qmake days 1))]
  | EventPropertyEquals eventType path value days =>
      JObj [("kind", JStr "event_property_equals");
            ("eventType", JStr eventType);
            ("path", JStr path);
            ("value", JStr value);
            ("days", JNum (Qmake days 1))]
  | EventCountGteInLastDays eventType days minCount =>
      JObj [("kind", JStr "event_count_gte_in_last_days");
            ("eventType", JStr eventType);
            ("days", JNum (Qmake days 1));
            ("minCount", JNum (Qmake minCount 1))]
  end.

(** [typeof x === "string" ? x.trim() || null : null] *)
Definition trimmedOrNull (v : option json) : option string :=
  match v with
  | Some (JStr s) => if String.eqb (trim s) "" then None else Some (trim s)
  | _ => None
  end.

End Store.

(** ** app/api/segments/route.ts, app/api/segments/[id]/route.ts and
    app/api/segments/[id]/preview/route.ts *)

Module SegmentsRoute.
Import Segments Db SegmentPreview Store.

Inductive Response : Type :=
| Created (segmentId : Id)
| Error (status : nat) (error : string).

(** [validateSegmentDefinition(body.definition)], the field being
    [undefined] when the body has none. *)
Definition validateField (v : option json) : Validation :=
  match v with
  | Some definition => validateSegmentDefinition definition
  | None => Invalid "Definition must be a JSON object"
  end.

(** [body] is [None] when the request body is not JSON; reading a field of
    [null] throws.  Both end in the handler's [catch]. *)
Definition POST (body : option json) (s : Store.t) : Response * Store.t :=
  match body with
  | None | Some JNull => (Error 500 "Internal server error", s)
  | Some b =>
      match nonEmptyString (get b "name") with
      | None => (Error 400 "Segment name is required", s)
      | Some name =>
          match validateField (get b "definition") with
          | Invalid error => (Error 400 error, s)
          | Valid definition =>
              let segment :=
                {| Segment.id := Db.nextId (db s);
                   Segment.name := name;
                   Segment.description := trimmedOrNull (get b "description");
                   Segment.definition := definitionJson definition |} in
              (Created (Segment.id segment),
               {| db := idTaken (db s);
                  segments := segments s ++ [segment];
                  campaignDescriptions := campaignDescriptions s |})
          end
      end
  end.

Inductive Found : Type :=
| Json (segment : Segment.t)
| NotFound (status : nat) (error : string).

(** [GET /api/segments/[id]] *)
Definition GET (id : Id) (s : Store.t) : Found :=
  match findSegment id s with
  | None => NotFound 404 "Segment not found"
  | Some segment => Json segment
  end.

Inductive Preview : Type :=
| Result (preview : PreviewResult)
| Failed (status : nat) (error : string).

(** [GET /api/segments/[id]/preview] *)
Definition preview (now : Z) (id : Id) (s : Store.t) : Preview :=
  match findSegment id s with
  | None => Failed 404 "Segment not found"
  | Some segment =>
      match validateSegmentDefinition (Segment.definition segment) with
      | Invalid error => Failed 400 ("Invalid segment definition: " +:+ error)
      | Valid definition =>
          match evaluateSegment now definition (db s) with
          | None => Failed 500 "Internal server error"
          | Some preview => Result preview
          end
      end
  end.

End SegmentsRoute.

(** ** app/api/campaigns/route.ts *)

Module CampaignsRoute.
Import Segments Db Store.

Inductive Response : Type :=
| Created (campaignId : Id)
| Error (status : nat) (error : string).

Section Handler.
(** The row identifier that the text of an id denotes, if any. *)
Variable idOf : string → option Id.

(** [!body.segmentId || typeof body.segmentId !== "string"] negated *)
Definition segmentIdText (v : option json) : option string :=
  match v with
  | Some (JStr s) => if String.eqb s "" then None else Some s
  | _ => None
  end.

Definition POST (body : option json) (s : Store.t) : Response * Store.t :=
  match body with
  | None | Some JNull => (Error 500 "Internal server error", s)
  | Some b =>
      match nonEmptyString (get b "name") with
      | None => (Error 400 "Campaign name is required", s)
      | Some name =>
          match segmentIdText (get b "segmentId") with
          | None => (Error 400 "segmentId is required", s)
          | Some text =>
              match idOf text ≫= (λ id, findSegment id s) with
              | None => (Error 404 "Segment not found", s)
              | Some segment =>
                  let campaign :=
                    {| Campaign.id := Db.nextId (db s);
                       Campaign.name := name;
                       Campaign.segmentId := Segment.id segment;
                       Campaign.segmentSnapshot := Segment.definition segment;
                       Campaign.status := StatusDraft |} in
                  (Created (Campaign.id campaign),
                   {| db :=
                        idTaken
                          (withCampaigns (db s)
                             (Db.campaigns (db s) ++ [campaign]));
                      segments := segments s;
                      campaignDescriptions :=
                        <[Campaign.id campaign :=
                            trimmedOrNull (get b "description")]>
                          (campaignDescriptions s) |})
              end
          end
      end
  end.

End Handler.
End CampaignsRoute.

(** ** lib/smartGenerate/types.ts, lib/smartGenerate/client.ts and
    app/api/smart-generate/segment/route.ts *)

Module SmartGenerateRoute.
Import Segments Store.

Class SmartGenerateProvider : Type := {
  generate : string → SegmentDefinitionOf number
}.

Definition MockSmartGenerateProvider : SmartGenerateProvider :=
  {| generate := SmartGenerate.generate |}.

Inductive Response : Type :=
| Json (definition : json)
| Error (status : nat) (error : string).

(** [JSON.stringify] of a number: [Infinity] is written [null]. *)
Definition numberJson (x : number) : json :=
  match x with
  | Finite z => JNum (Qmake z 1)
  | Infinity => JNull
  end.

(** The object of the provider as the response carries it. *)
Definition suggestionJson (d : SegmentDefinitionOf number) : json :=
  match d with
  | EventTypeInLastDays eventType days =>
      JObj [("kind", JStr "event_type_in_last_days");
            ("eventType", JStr eventType);
            ("days", numberJson days)]
  | EventPropertyEquals eventType path value days =>
      JObj [("kind", JStr "event_property_equals");
            ("eventType", JStr eventType);
            ("path", JStr path);
            ("value", JStr value);
            ("days", numberJson days)]
  | EventCountGteInLastDays eventType days minCount =>
      JObj [("kind", JStr "event_count_gte_in_last_days");
            ("eventType", JStr eventType);
            ("days", numberJson days);
            ("minCount", numberJson minCount)]
  end.

Definition POST `{SmartGenerateProvider} (body : option json) : Response :=
  match body with
  | None | Some JNull => Error 500 "Internal server error"
  | Some b =>
      match nonEmptyString (get b "prompt") with
      | None => Error 400 "Prompt is required"
      | Some prompt => Json (suggestionJson (generate prompt))
      end
  end.

End SmartGenerateRoute.

(** ** app/api/smart-draft/email/route.ts *)

Module SmartDraftRoute.
Import SmartDraft.

Inductive Response : Type :=
| Json (draft : DraftOutput)
| Error (status : nat) (error : string).

(** [typeof x === "string" ? x : undefined] *)
Definition stringOrUndefined (v : option json) : option string :=
  match v with
  | Some (JStr s) => Some s
  | _ => None
  end.

(** [body] is [None] when the request body is not JSON.  Destructuring
    [null] throws, which the outer handler turns into a 500. *)
Definition POST `{SmartDraftProvider} (body : option json) : Response :=
  match body with
  | None => Error 400 "Invalid JSON body"
  | Some JNull => Error 500 "Internal server error"
  | Some b =>
      match Segments.nonEmptyString (get b "customerEmail") with
      | None => Error 400 "customerEmail is required"
      | Some customerEmail =>
          Json (generate
                  {| customerEmail := customerEmail;
                     recentEventType :=
                       stringOrUndefined (get b "recentEventType");
                     recommendedSku :=
                       Some (stringOrUndefined (get b "recommendedSku")) |})
      end
  end.

End SmartDraftRoute.


(* ================================================================== *)
(** * Part II: vocabulary of the properties and sample data            *)
(* ================================================================== *)

Module Spec.
Import Segments Db.

(** *** Texts *)

(** A text without white space at either end. *)
Definition trimmed (s : string) : Prop :=
  (∀ c, head (chars s) = Some c → isWhiteSpace c = false)
  ∧ (∀ c, last (chars s) = Some c → isWhiteSpace c = false).

(** A text that does not go on with a character of the class [p]. *)
Definition stops (p : ascii → bool) (s : list ascii) : Prop :=
  match s with
  | [] => True
  | c :: _ => p c = false
  end.

(** [n] is a decimal numeral: a non-empty run of digits. *)
Definition numeral (n : string) : Prop :=
  chars n ≠ [] ∧ Forall (λ c, isDigit c = true) (chars n).

(** A numeral whose value JavaScript represents exactly. *)
Definition safeNumeral (n : string) : Prop :=
  numeral n ∧ decimal (chars n) ≤ MAX_SAFE_INTEGER.

(** The character [c] does not occur in [s]. *)
Definition without (c : ascii) (s : string) : Prop := c ∉ chars s.

(** *** The definition validator *)

(** What an accepted definition owes to the input, field by field. *)
Definition trimmedFrom (input : json) (field : string) (t : string) : Prop :=
  ∃ raw, get input field = Some (JStr raw) ∧ t = trim raw
         ∧ trimmed t ∧ t ≠ "".

(** *** Segment membership, in the words of the specification *)

(** The events of customer [c] of type [eventType] that occurred at or
    after [cutoff]. *)
Definition eventsInWindow (eventType : string) (cutoff : Z) (c : Db.Id)
    (db : Db.t) : list Db.Event.t :=
  filter (λ e, Db.Event.customerId e = c
               ∧ SegmentPreview.inWindow eventType cutoff e) (Db.events db).

(** Customer [c] matches [definition] at time [now]. *)
Definition matches (now : Z) (definition : SegmentDefinition) (db : Db.t)
    (c : Db.Id) : Prop :=
  let cutoff := now - Segments.days definition * SegmentPreview.DAY_MS in
  match definition with
  | EventTypeInLastDays eventType _ =>
      ∃ e, e ∈ eventsInWindow eventType cutoff c db
  | EventPropertyEquals eventType path value _ =>
      ∃ e, e ∈ eventsInWindow eventType cutoff c db
           ∧ get (Db.Event.properties e) path = Some (JStr value)
  | EventCountGteInLastDays eventType _ minCount =>
      (∃ e, e ∈ eventsInWindow eventType cutoff c db)
      ∧ minCount ≤ Z.of_nat (length (eventsInWindow eventType cutoff c db))
  end.

(** *** Drafts of a campaign *)

(** The drafts stored for the pair (campaign, customer). *)
Definition draftsOf (campaignId customerId : Db.Id) (db : Db.t)
    : list Db.EmailDraft.t :=
  filter (λ d, Db.EmailDraft.campaignId d = campaignId
               ∧ Db.EmailDraft.customerId d = customerId) (Db.emailDrafts db).

(** The unique constraint on (campaign, customer) of [EmailDraft]. *)
Definition uniqueDrafts (db : Db.t) : Prop :=
  ∀ campaignId customerId,
    (length (draftsOf campaignId customerId db) ≤ 1)%nat.

(** The generated part of a draft: subject, body and recommended SKU. *)
Definition copyOf (d : Db.EmailDraft.t) : string * string * option string :=
  (Db.EmailDraft.subject d, Db.EmailDraft.body d, Db.EmailDraft.recommendedSku d).

(** [d] is what an upsert of the copy [copy] leaves for a key whose rows
    were [prior]: the copy is the new one; an existing row keeps its id and
    status, a new row starts in status [generated]. *)
Definition upserted (prior : list Db.EmailDraft.t) (d : Db.EmailDraft.t)
    (copy : string * string * option string) : Prop :=
  copyOf d = copy
  ∧ match prior with
    | [] => Db.EmailDraft.status d = Db.Generated
    | d0 :: _ =>
        Db.EmailDraft.id d = Db.EmailDraft.id d0
        ∧ Db.EmailDraft.status d = Db.EmailDraft.status d0
    end.

(** The customers a run of draft generation processes: the list that
    [evaluateSegment] returns for the campaign's snapshot. *)
Definition targets (now : Z) (id : Db.Id) (db : Db.t) : list Db.Customer.t :=
  match Db.findCampaign id db with
  | Some campaign =>
      match validateSegmentDefinition (Db.Campaign.segmentSnapshot campaign) with
      | Valid definition =>
          match SegmentPreview.evaluateSegment now definition db with
          | Some preview => SegmentPreview.customers preview
          | None => []
          end
      | Invalid _ => []
      end
  | None => []
  end.

(** The copy the loop of draft generation computes for customer [c] from
    the events grouped in [eventsByCustomer]. *)
Definition loopCopy `{SmartDraft.SmartDraftProvider}
    (eventsByCustomer : gmap Db.Id (list Db.Event.t)) (c : Db.Customer.t)
    : string * string * option string :=
  let '(out, sku) := GenerateDraftsRoute.draftFor eventsByCustomer c in
  (SmartDraft.subject out, SmartDraft.body out, sku).

(** The copy that a run at time [now] generates for customer [c]. *)
Definition copyFor `{SmartDraft.SmartDraftProvider} (now : Z) (id : Db.Id)
    (db : Db.t) (c : Db.Customer.t) : string * string * option string :=
  let eventsByCustomer :=
    GenerateDraftsRoute.groupByCustomer
      (GenerateDraftsRoute.recentEventsOf now
         (Db.Customer.id <$> targets now id db) db) in
  let '(out, sku) := GenerateDraftsRoute.draftFor eventsByCustomer c in
  (SmartDraft.subject out, SmartDraft.body out, sku).

(** The customers of [cs] without a draft in campaign [id]. *)
Definition undrafted (id : Db.Id) (db : Db.t) (cs : list Db.Customer.t)
    : list Db.Customer.t :=
  filter (λ c, draftsOf id (Db.Customer.id c) db = []) cs.

(** The approved drafts of a campaign, which a send processes. *)
Definition approvedDrafts (id : Db.Id) (db : Db.t) : list Db.EmailDraft.t :=
  filter (λ d, Db.EmailDraft.campaignId d = id
               ∧ Db.EmailDraft.status d = Db.Approved) (Db.emailDrafts db).

(** *** The life cycle of a campaign *)

(** The status of a campaign. *)
Definition statusOf (id : Db.Id) (db : Db.t) : option Db.CampaignStatus :=
  Db.Campaign.status <$> Db.findCampaign id db.

(** The order of the campaign life cycle:
    draft, drafted, sending, then sent or failed. *)
Definition rank (s : Db.CampaignStatus) : nat :=
  match s with
  | Db.StatusDraft => 0
  | Db.StatusDrafted => 1
  | Db.StatusSending => 2
  | Db.StatusSent | Db.StatusFailed => 3
  end.

Definition forward (before after : Db.CampaignStatus) : Prop :=
  (rank before ≤ rank after)%nat.

(** *** Event ingestion *)

(** The stored events of customer [c] that carry the idempotency key [k]. *)
Definition eventsWithKey (c : Db.Id) (k : string) (db : Db.t)
    : list Db.Event.t :=
  filter (λ e, Db.Event.customerId e = c ∧ Db.Event.idempotencyKey e = Some k)
    (Db.events db).

(** The unique constraint on (customer, idempotency key) of [Event]. *)
Definition uniqueEventKeys (db : Db.t) : Prop :=
  ∀ c k, (length (eventsWithKey c k db) ≤ 1)%nat.

(** The event that an accepted request stores for customer [c] under the
    row id [id]. *)
Definition eventOf (id c : Db.Id) (a : EventsRoute.Accepted)
    (key : option string) : Db.Event.t :=
  {| Db.Event.id := id;
     Db.Event.customerId := c;
     Db.Event.type := EventsRoute.eventType a;
     Db.Event.properties := EventsRoute.properties a;
     Db.Event.occurredAt := EventsRoute.occurredAt a;
     Db.Event.idempotencyKey := key |}.

(** The database after a series of ingestion requests, each with its time
    of arrival. *)
Definition ingestAll (newDate : json → option Z)
    (requests : list (Z * EventsRoute.Request)) (db : Db.t) : Db.t :=
  foldl (λ db' r, (EventsRoute.POST newDate r.1 r.2 db').2) db requests.

(** [db'] holds the customers and events of [db], in the same order, and
    possibly more after them. *)
Definition extends (db db' : Db.t) : Prop :=
  (∃ added, Db.customers db' = Db.customers db ++ added)
  ∧ (∃ added, Db.events db' = Db.events db ++ added).

(** The customer row that an email address resolves to. *)
Definition customerByEmail (email : string) (db : Db.t) : option Db.Customer.t :=
  Db.findFirst (λ c, bool_decide (Db.Customer.email c = email)) (Db.customers db).

(** *** Sample data *)

(** A definition whose every text field carries white space at both ends. *)
Definition paddedValueInput : json :=
  JObj [("kind", JStr "event_property_equals");
        ("eventType", JStr " purchase ");
        ("path", JStr " sku ");
        ("value", JStr " A ");
        ("days", JNum (Qmake 7 1))].

(** The segment of the customers with a [page_view] event in the last 30
    days, as stored in a campaign and as validated. *)
Definition pageViewSnapshot : json :=
  JObj [("kind", JStr "event_type_in_last_days");
        ("eventType", JStr "page_view");
        ("days", JNum (Qmake 30 1))].

Definition pageViewSegment : SegmentDefinition :=
  EventTypeInLastDays "page_view" 30.

(** A draft of campaign 1 that was approved, and a database that holds
    it. *)
Definition approvedDraft : Db.EmailDraft.t :=
  {| Db.EmailDraft.id := 10; Db.EmailDraft.campaignId := 1;
     Db.EmailDraft.customerId := 2; Db.EmailDraft.subject := "Hello";
     Db.EmailDraft.body := "Hi"; Db.EmailDraft.recommendedSku := None;
     Db.EmailDraft.status := Db.Approved |}.

Definition approvedDb : Db.t :=
  {| Db.customers := [{| Db.Customer.id := 2; Db.Customer.email := "a@b.io" |}];
     Db.events := [];
     Db.campaigns :=
       [{| Db.Campaign.id := 1; Db.Campaign.name := "Spring";
           Db.Campaign.segmentId := 5;
           Db.Campaign.segmentSnapshot := pageViewSnapshot;
           Db.Campaign.status := Db.StatusDrafted |}];
     Db.emailDrafts := [approvedDraft];
     Db.sends := [];
     Db.nextId := 11 |}.

(** One customer, who viewed a page at time 1000. *)
Definition ann : Db.Customer.t :=
  {| Db.Customer.id := 1; Db.Customer.email := "ann@example.com" |}.

Definition annViewedWidget : Db.Event.t :=
  {| Db.Event.id := 2; Db.Event.customerId := 1;
     Db.Event.type := "page_view";
     Db.Event.properties := JObj [("sku", JStr "WIDGET-42")];
     Db.Event.occurredAt := 1000;
     Db.Event.idempotencyKey := None |}.

(** A database with one campaign, of status [status], over that segment. *)
Definition campaignDb (status : Db.CampaignStatus) : Db.t :=
  {| Db.customers := [ann];
     Db.events := [annViewedWidget];
     Db.campaigns :=
       [{| Db.Campaign.id := 3; Db.Campaign.name := "Spring";
           Db.Campaign.segmentId := 0;
           Db.Campaign.segmentSnapshot := pageViewSnapshot;
           Db.Campaign.status := status |}];
     Db.emailDrafts := [];
     Db.sends := [];
     Db.nextId := 4 |}.

(** A segment of 51 customers. *)
Definition twoDigits (n : nat) : string :=
  String (ascii_of_nat (48 + n / 10))
    (String (ascii_of_nat (48 + n mod 10)) "").

(** Customer [n] has the email user[n]@example.com and one [page_view]
    event, at time 1000. *)
Definition crowdCustomer (n : nat) : Db.Customer.t :=
  {| Db.Customer.id := n;
     Db.Customer.email := "user" +:+ twoDigits n +:+ "@example.com" |}.

Definition crowdEvent (n : nat) : Db.Event.t :=
  {| Db.Event.id := 100 + n; Db.Event.customerId := n;
     Db.Event.type := "page_view"; Db.Event.properties := JObj [];
     Db.Event.occurredAt := 1000; Db.Event.idempotencyKey := None |}.

Definition crowdDb : Db.t :=
  {| Db.customers := crowdCustomer <$> seq 1 51;
     Db.events := crowdEvent <$> seq 1 51;
     Db.campaigns :=
       [{| Db.Campaign.id := 200; Db.Campaign.name := "Everyone";
           Db.Campaign.segmentId := 0;
           Db.Campaign.segmentSnapshot := pageViewSnapshot;
           Db.Campaign.status := Db.StatusDraft |}];
     Db.emailDrafts := [];
     Db.sends := [];
     Db.nextId := 300 |}.

(** A date parser for the sample requests: none of them carries a date. *)
Definition noDate (v : json) : option Z := None.

(** An ingestion request for a page view, and what validation makes of
    it at time [now]. *)
Definition viewRequest (key : option string) : EventsRoute.Request :=
  {| EventsRoute.idempotencyKeyHeader := key;
     EventsRoute.body :=
       Some (JObj [("email", JStr " Ann@Example.com ");
                   ("type", JStr "page_view")]) |}.

Definition viewAccepted (now : Z) : EventsRoute.Accepted :=
  {| EventsRoute.normalizedEmail := "ann@example.com";
     EventsRoute.eventType := "page_view";
     EventsRoute.properties := JObj [];
     EventsRoute.occurredAt := now |}.

Definition emptyDb : Db.t :=
  {| Db.customers := []; Db.events := []; Db.campaigns := [];
     Db.emailDrafts := []; Db.sends := []; Db.nextId := 1 |}.

(** *** Vocabulary of the further properties *)

(** The [kind] of a definition. *)
Definition kindName (d : SegmentDefinition) : string :=
  match d with
  | EventTypeInLastDays _ _ => "event_type_in_last_days"
  | EventPropertyEquals _ _ _ _ => "event_property_equals"
  | EventCountGteInLastDays _ _ _ => "event_count_gte_in_last_days"
  end.

(** The field [field] of [input] is a number that denotes the positive
    integer [z]. *)
Definition positiveFrom (input : json) (field : string) (z : Z) : Prop :=
  ∃ q, get input field = Some (JNum q) ∧ 0 < z
       ∧ Qnum q = z * Z.pos (Qden q).

(** A non-empty run of characters other than white space and the at
    sign. *)
Definition plainText (l : list ascii) : Prop :=
  l ≠ [] ∧ Forall (λ c, Utils.notSpaceOrAt c = true) l.


(** The event [e] carries the SKU [sku]: its property [sku] is a text
    whose trimmed form, [sku], is not empty. *)
Definition hasSku (e : Db.Event.t) (sku : string) : Prop :=
  ∃ raw, get (Db.Event.properties e) "sku" = Some (JStr raw)
         ∧ sku = trim raw ∧ sku ≠ "".

(** The events of customer [c] that occurred at or after [cutoff]. *)
Definition eventsSince (cutoff : Z) (c : Db.Id) (db : Db.t)
    : list Db.Event.t :=
  filter (λ e, Db.Event.customerId e = c ∧ cutoff ≤ Db.Event.occurredAt e)
    (Db.events db).

(** The send records stored for the pair (campaign, customer). *)
Definition sendsOf (campaignId customerId : Db.Id) (db : Db.t)
    : list Db.Send.t :=
  filter (λ x, Db.Send.campaignId x = campaignId
               ∧ Db.Send.customerId x = customerId) (Db.sends db).

(** The unique constraint on (campaign, customer) of [Send]. *)
Definition uniqueSends (db : Db.t) : Prop :=
  ∀ campaignId customerId,
    (length (sendsOf campaignId customerId db) ≤ 1)%nat.

(** A send record of a delivery that succeeded at time [now]. *)
Definition deliveredAt (now : Z) (x : Db.Send.t) : Prop :=
  Db.Send.status x = Db.SendSent ∧ Db.Send.sentAt x = Some now
  ∧ Db.Send.error x = None.

(** The primary key of [EmailDraft]. *)
Definition uniqueDraftIds (db : Db.t) : Prop :=
  NoDup (Db.EmailDraft.id <$> Db.emailDrafts db).

(** The database [approvedDb] before the approval of its draft, and the
    body of the request that approves it. *)
Definition generatedDraft : Db.EmailDraft.t :=
  Db.EmailDraft.withStatus Db.Generated approvedDraft.

Definition generatedDb : Db.t :=
  Db.withEmailDrafts approvedDb [generatedDraft] (Db.nextId approvedDb).

Definition statusBody (status : string) : option json :=
  Some (JObj [("status", JStr status)]).

(** The customer table as event ingestion keeps it: one row per email
    address, every address valid and in normal form, and every event owned
    by a stored customer. *)
Definition soundCustomers (db : Db.t) : Prop :=
  NoDup (Db.Customer.email <$> Db.customers db)
  ∧ (∀ c, c ∈ Db.customers db →
       Utils.isValidEmail (Db.Customer.email c) = true
       ∧ Utils.normalizeEmail (Db.Customer.email c) = Db.Customer.email c)
  ∧ (∀ e, e ∈ Db.events db →
       ∃ c, c ∈ Db.customers db ∧ Db.Customer.id c = Db.Event.customerId e).

(** The body of the sample ingestion requests. *)
Definition viewBody : json :=
  JObj [("email", JStr " Ann@Example.com "); ("type", JStr "page_view")].

(** The event types that the mock segment provider names. *)
Definition knownEventTypes : list string :=
  ["added_to_cart"; "purchase"; "signup"; "login"; "page_view"; "checkout"].

(** A definition as the validator lets it through: the event type (and
    the path of a property definition) is a non-empty text without white
    space at either end, and the numbers are positive. *)
Definition wellFormed (d : SegmentDefinition) : Prop :=
  trimmed (eventType d) ∧ eventType d ≠ "" ∧ 0 < days d
  ∧ match d with
    | EventTypeInLastDays _ _ => True
    | EventPropertyEquals _ path _ _ => trimmed path ∧ path ≠ ""
    | EventCountGteInLastDays _ _ minCount => 0 < minCount
    end.

(** Row identifiers are handed out in increasing order: the next one is
    above those of the stored segments and campaigns. *)
Definition freshIds (s : Store.t) : Prop :=
  (∀ g, g ∈ Store.segments s →
     (Store.Segment.id g < Db.nextId (Store.db s))%nat)
  ∧ (∀ c, c ∈ Db.campaigns (Store.db s) →
       (Db.Campaign.id c < Db.nextId (Store.db s))%nat).

(** An empty store, the bodies that create a segment of page viewers and a
    campaign on it, and the reading of the segment id in that body. *)
Definition emptyStore : Store.t :=
  {| Store.db := emptyDb; Store.segments := [];
     Store.campaignDescriptions := ∅ |}.

Definition viewersBody : option json :=
  Some (JObj [("name", JStr " Viewers "); ("definition", pageViewSnapshot)]).

Definition springBody : option json :=
  Some (JObj [("name", JStr "Spring"); ("segmentId", JStr "seg-1")]).

Definition idOfSample (text : string) : option Db.Id :=
  if String.eqb text "seg-1" then Some 1%nat else None.

(** The store after the creation of that segment. *)
Definition viewersStore : Store.t :=
  (SegmentsRoute.POST viewersBody emptyStore).2.

(** Customers can be compared, which decides membership in a list of
    customers. *)
#[export] Instance Customer_eq_dec : EqDecision Db.Customer.t.
Proof. solve_decision. Defined.

(** A prompt for the mock segment provider, and a body for the smart-draft
    route whose SKU is not a text. *)
Definition buyersPrompt : string := " purchased in the last 7 days ".

Definition numericSkuBody : json :=
  JObj [("customerEmail", JStr " ann@example.com ");
        ("recommendedSku", JNum (Qmake 42 1))].

(** The fields of a definition that the validator reads. *)
Definition definitionFields : list string :=
  ["kind"; "eventType"; "path"; "value"; "days"; "minCount"].

(** [paddedValueInput] with fields that no definition has. *)
Definition annotatedInput : json :=
  JObj [("note", JStr "draft"); ("kind", JStr "event_property_equals");
        ("eventType", JStr " purchase "); ("path", JStr " sku ");
        ("value", JStr " A "); ("days", JNum (Qmake 7 1));
        ("label", JNum (Qmake 3 1))].

(** *** The phrases of a prompt *)

(** A run of white space, and one that is not empty. *)
Definition blanks (w : list ascii) : Prop :=
  Forall (λ c, isWhiteSpace c = true) w.

Definition spaces (w : list ascii) : Prop := w ≠ [] ∧ blanks w.








(** The text [s] begins with [verb], white space and a path: a slash and
    a word character. *)
Definition pathAfter (verb : string) (s : list ascii) : Prop :=
  ∃ w c rest,
    s = chars verb ++ w ++ "/"%char :: c :: rest
    ∧ spaces w ∧ isWord c = true.

(** A text about a page: it has the word [pricing], or [visited] or
    [viewed] followed by a path. *)
Definition mentionsPricing (text : string) : Prop :=
  ∃ pre s,
    chars text = pre ++ s
    ∧ ((∃ rest, s = chars "pricing" ++ rest)
       ∨ pathAfter "visited" s ∨ pathAfter "viewed" s).

(** *** Suggestions of the mock provider *)

(** The suggestion [d] as a definition, when each of its numbers is
    finite. *)
Definition finiteDefinition (d : SegmentDefinitionOf number)
    : option SegmentDefinition :=
  match d with
  | EventTypeInLastDays t (Finite n) => Some (EventTypeInLastDays t n)
  | EventPropertyEquals t p v (Finite n) => Some (EventPropertyEquals t p v n)
  | EventCountGteInLastDays t (Finite n) (Finite m) =>
      Some (EventCountGteInLastDays t n m)
  | _ => None
  end.

(** A prompt whose window is a numeral of 310 digits. *)
Definition longWindowPrompt : string :=
  "purchased in the last " +:+ str (replicate 310 "9"%char) +:+ " days".

(** A window of 200 000 000 days reaches before the first instant of
    [Date]: a campaign whose snapshot has it. *)
Definition longWindowSnapshot : json :=
  JObj [("kind", JStr "event_type_in_last_days");
        ("eventType", JStr "page_view");
        ("days", JNum (Qmake 200000000 1))].

Definition longWindowDb : Db.t :=
  {| Db.customers := [ann];
     Db.events := [annViewedWidget];
     Db.campaigns :=
       [{| Db.Campaign.id := 3; Db.Campaign.name := "Spring";
           Db.Campaign.segmentId := 0;
           Db.Campaign.segmentSnapshot := longWindowSnapshot;
           Db.Campaign.status := Db.StatusDraft |}];
     Db.emailDrafts := [];
     Db.sends := [];
     Db.nextId := 4 |}.

End Spec.

Import Spec.

(* ================================================================== *)
(** * Part III: properties                                             *)
(* ================================================================== *)

(** ** Strings *)

Section StringFacts.

Lemma chars_str (l : list ascii) : chars (str l) = l.
Proof. apply String.list_ascii_of_string_of_list_ascii. Qed.

Lemma str_chars (s : string) : str (chars s) = s.
Proof. apply String.string_of_list_ascii_of_string. Qed.

Lemma chars_app (s1 s2 : string) : chars (s1 +:+ s2) = chars s1 ++ chars s2.
Proof.
  induction s1 as [|c s1 IH]; [reflexivity|].
  change (c :: chars (s1 +:+ s2) = c :: (chars s1 ++ chars s2)).
  by rewrite IH.
Qed.

Lemma str_nil_inv (l : list ascii) : str l = "" → l = [].
Proof. destruct l; [reflexivity | discriminate]. Qed.

Lemma trimStart_head (l : list ascii) (c : ascii) :
  head (trimStart l) = Some c → isWhiteSpace c = false.
Proof.
  induction l as [|a l IH]; cbn; [discriminate|].
  destruct (isWhiteSpace a) eqn:Ha; [exact IH|].
  cbn. intros [= <-]. exact Ha.
Qed.

Lemma trimStart_snoc (l : list ascii) (c : ascii) :
  trimStart (l ++ [c]) =
  match trimStart l with
  | [] => if isWhiteSpace c then [] else [c]
  | t => t ++ [c]
  end.
Proof.
  induction l as [|a l IH]; cbn; [reflexivity|].
  destruct (isWhiteSpace a); [exact IH | reflexivity].
Qed.

Lemma trimEnd_cons (c : ascii) (l : list ascii) :
  trimEnd (c :: l) =
  match trimEnd l with
  | [] => if isWhiteSpace c then [] else [c]
  | t => c :: t
  end.
Proof.
  unfold trimEnd. rewrite reverse_cons, trimStart_snoc.
  destruct (trimStart (reverse l)) as [|a t] eqn:Ht.
  - cbn. destruct (isWhiteSpace c); reflexivity.
  - rewrite reverse_app, reverse_singleton.
    destruct (reverse (a :: t)) eqn:Hr; [|reflexivity].
    apply (f_equal length) in Hr. rewrite length_reverse in Hr. discriminate.
Qed.

Lemma trimEnd_last (l : list ascii) (c : ascii) :
  last (trimEnd l) = Some c → isWhiteSpace c = false.
Proof.
  unfold trimEnd. rewrite last_reverse. apply trimStart_head.
Qed.

Lemma trimEnd_head (l : list ascii) (c : ascii) :
  (∀ a, head l = Some a → isWhiteSpace a = false) →
  head (trimEnd l) = Some c → isWhiteSpace c = false.
Proof.
  destruct l as [|a l]; [discriminate|].
  intros Ha. rewrite trimEnd_cons.
  destruct (trimEnd l).
  - rewrite (Ha a eq_refl). cbn. intros [= <-]. apply Ha. reflexivity.
  - cbn. intros [= <-]. apply Ha. reflexivity.
Qed.

Lemma trim_trimmed (s : string) : trimmed (trim s).
Proof.
  unfold trimmed, trim. rewrite chars_str. split; intros c.
  - apply trimEnd_head. intros a. apply trimStart_head.
  - apply trimEnd_last.
Qed.

End StringFacts.

(** ** The definition validator *)

Section ValidatorFacts.
Import Segments.

Lemma nonEmptyString_inv (v : option json) (t : string) :
  nonEmptyString v = Some t →
  ∃ raw, v = Some (JStr raw) ∧ t = trim raw ∧ t ≠ "".
Proof.
  destruct v as [[| | |raw| |]|]; try discriminate. cbn.
  destruct (String.eqb_spec (trim raw) ""); [discriminate|].
  intros [= <-]. eauto.
Qed.

Lemma nonEmptyString_trimmedFrom (input : json) (field t : string) :
  nonEmptyString (get input field) = Some t → trimmedFrom input field t.
Proof.
  intros (raw & Hget & -> & Hne)%nonEmptyString_inv.
  exists raw. split_and!; auto using trim_trimmed.
Qed.

(** C2, as the code has it: of an accepted definition, [eventType] (in the
    three variants) and [path] are the trimmed, non-empty texts of the
    input's fields, without white space at either end; [value] of the
    [event_property_equals] variant is the input's string as it was given,
    not trimmed. *)
Theorem validateSegmentDefinition_trims_eventType_and_path
    (input : json) (d : SegmentDefinition) :
  validateSegmentDefinition input = Valid d →
  match d with
  | EventTypeInLastDays eventType _ =>
      trimmedFrom input "eventType" eventType
  | EventPropertyEquals eventType path value _ =>
      trimmedFrom input "eventType" eventType
      ∧ trimmedFrom input "path" path
      ∧ get input "value" = Some (JStr value)
  | EventCountGteInLastDays eventType _ _ =>
      trimmedFrom input "eventType" eventType
  end.
Proof.
  unfold validateSegmentDefinition.
  destruct input as [| | | | |fields]; try discriminate.
  destruct (get (JObj fields) "kind") as [[| | |kind| |]|]; try discriminate.
  destruct (String.eqb kind "event_type_in_last_days").
  { unfold validateEventTypeInLastDays.
    destruct (nonEmptyString _) as [t|] eqn:Ht; [|discriminate].
    destruct (positiveInteger _); [|discriminate].
    intros [= <-]. by apply nonEmptyString_trimmedFrom. }
  destruct (String.eqb kind "event_property_equals").
  { unfold validateEventPropertyEquals.
    destruct (nonEmptyString (get _ "eventType")) as [t|] eqn:Ht;
      [|discriminate].
    destruct (nonEmptyString (get _ "path")) as [p|] eqn:Hp; [|discriminate].
    destruct (get _ "value") as [[| | |v| |]|] eqn:Hv; try discriminate.
    destruct (positiveInteger _); [|discriminate].
    intros [= <-]. split_and!; auto using nonEmptyString_trimmedFrom. }
  destruct (String.eqb kind "event_count_gte_in_last_days"); [|discriminate].
  unfold validateEventCountGteInLastDays.
  destruct (nonEmptyString _) as [t|] eqn:Ht; [|discriminate].
  destruct (positiveInteger (get _ "days")); [|discriminate].
  destruct (positiveInteger (get _ "minCount")); [|discriminate].
  intros [= <-]. by apply nonEmptyString_trimmedFrom.
Qed.

Lemma validateSegmentDefinition_trims_eventType_and_path_witness :
  validateSegmentDefinition paddedValueInput
    = Valid (EventPropertyEquals "purchase" "sku" " A " 7)
  ∧ trimmedFrom paddedValueInput "eventType" "purchase"
  ∧ trimmedFrom paddedValueInput "path" "sku"
  ∧ get paddedValueInput "value" = Some (JStr " A ").
Proof.
  split; [reflexivity|].
  apply (validateSegmentDefinition_trims_eventType_and_path paddedValueInput
           (EventPropertyEquals "purchase" "sku" " A " 7)).
  reflexivity.
Defined.

(** C2 as the specification words it fails: the input below is accepted and
    its [value] keeps the white space at both ends. *)
Lemma validateSegmentDefinition_value_not_trimmed :
  validateSegmentDefinition paddedValueInput
    = Valid (EventPropertyEquals "purchase" "sku" " A " 7)
  ∧ ¬ trimmed " A "
  ∧ trim " A " ≠ " A ".
Proof.
  split; [reflexivity|]. split; [|discriminate].
  intros [Hhead _]. specialize (Hhead " "%char eq_refl). discriminate.
Qed.

End ValidatorFacts.

(** ** The mock draft provider *)

Section SmartDraftFacts.
Import SmartDraft.

Lemma present_mjoin (sku : option (option string)) :
  present (mjoin sku) =
  match sku with
  | Some (Some s) => if bool_decide (s = "") then None else Some s
  | _ => None
  end.
Proof.
  destruct sku as [[s|]|]; cbn; [|reflexivity..].
  destruct (String.eqb_spec s ""); case_bool_decide; congruence.
Qed.

(** C10: the subject of the mock provider is a function of [recommendedSku]
    alone.  Two inputs with the same [recommendedSku] get the same subject
    whatever their [customerEmail] and [recentEventType]; the subject is
    "Still thinking about {sku}?" when [recommendedSku] is a non-empty
    string and "We have something special for you" otherwise, and the two
    forms never coincide. *)
Theorem mock_subject_depends_only_on_sku
    (sku : option (option string)) (email1 email2 : string)
    (type1 type2 : option string) :
  let out1 := mockGenerate {| customerEmail := email1;
                              recentEventType := type1;
                              recommendedSku := sku |} in
  let out2 := mockGenerate {| customerEmail := email2;
                              recentEventType := type2;
                              recommendedSku := sku |} in
  subject out1 = subject out2
  ∧ subject out1 =
      match sku with
      | Some (Some s) =>
          if bool_decide (s = "") then "We have something special for you"
          else "Still thinking about " +:+ s +:+ "?"
      | _ => "We have something special for you"
      end
  ∧ ∀ s : string,
      "Still thinking about " +:+ s +:+ "?"
      ≠ "We have something special for you".
Proof.
  assert (Hsubject : ∀ email type,
    subject (mockGenerate {| customerEmail := email;
                             recentEventType := type;
                             recommendedSku := sku |}) =
    match sku with
    | Some (Some s) =>
        if bool_decide (s = "") then "We have something special for you"
        else "Still thinking about " +:+ s +:+ "?"
    | _ => "We have something special for you"
    end).
  { intros email type. unfold mockGenerate.
    cbn [customerEmail recentEventType recommendedSku].
    rewrite present_mjoin.
    destruct sku as [[s|]|]; [destruct (bool_decide (s = ""))|..];
      destruct (present type); reflexivity. }
  cbv zeta. split_and!.
  - by rewrite !Hsubject.
  - apply Hsubject.
  - intros s. discriminate.
Qed.

End SmartDraftFacts.

(** ** The draft status patch *)

Section DraftRouteFacts.
Import Db DraftRoute.

Lemma allowed_status (s : string) :
  s ∈ ALLOWED_STATUSES ↔ s = "approved" ∨ s = "rejected".
Proof.
  unfold ALLOWED_STATUSES. rewrite !elem_of_cons, elem_of_nil. tauto.
Qed.

(** C7: a patch succeeds only when the requested status is "approved" or
    "rejected" and the draft is in status [generated]; a body with any
    other status value is answered with the validation error (400) and
    changes nothing; and for a draft whose status is not [generated] no
    patch attempt changes the database or succeeds, a request with an
    allowed value being answered with a conflict (409), which covers
    approving an approved draft. *)
Theorem PATCH_only_from_generated
    (campaignId draftId : Id) (body : option json) (db : Db.t) :
  let requested := body ≫= (λ b, get b "status") in
  let allowed :=
    requested = Some (JStr "approved") ∨ requested = Some (JStr "rejected") in
  let result := PATCH campaignId draftId body db in
  (∀ updated, result.1 = Json updated →
     ∃ existing,
       findDraft campaignId draftId db = Some existing
       ∧ EmailDraft.status existing = Generated
       ∧ (requested = Some (JStr "approved")
          ∧ EmailDraft.status updated = Approved
          ∨ requested = Some (JStr "rejected")
            ∧ EmailDraft.status updated = Rejected))
  ∧ (∀ b, body = Some b → b ≠ JNull → ¬ allowed →
       result = (invalidStatus, db))
  ∧ (∀ existing,
       findDraft campaignId draftId db = Some existing →
       EmailDraft.status existing ≠ Generated →
       result.2 = db
       ∧ (∀ updated, result.1 ≠ Json updated)
       ∧ (allowed → ∃ message, result.1 = Error 409 message)).
Proof.
  cbv zeta. unfold PATCH.
  destruct body as [b|]; cbn [mbind option_bind].
  2:{ split_and!; [discriminate | discriminate |].
      intros existing _ _. split_and!; [done | done |].
      intros [?|?]; discriminate. }
  assert (Hnull : b = JNull ∨ b ≠ JNull).
  { destruct b; auto; right; discriminate. }
  destruct Hnull as [-> | Hb].
  { cbn. split_and!; [discriminate | intros ? [= <-]; done |].
    intros existing _ _. split_and!; [done | done |].
    intros [?|?]; discriminate. }
  set (rest :=
    match get b "status" with
    | Some (JStr status) =>
        if bool_decide (status ∈ ALLOWED_STATUSES) then
          match findDraft campaignId draftId db with
          | None => (Error 404 "Draft not found", db)
          | Some existing =>
              match EmailDraft.status existing with
              | Generated =>
                  updateStatus draftId
                    (default Generated (statusOfString status)) db
              | other =>
                  (Error 409 ("Cannot transition draft from status " +:+ quote
                              +:+ statusName other +:+ quote), db)
              end
          end
        else (invalidStatus, db)
    | _ => (invalidStatus, db)
    end).
  assert (Hrest : match b with JNull => (Error 500 "Internal server error", db)
                  | _ => rest end = rest) by (by destruct b).
  rewrite Hrest. clear Hrest. subst rest.
  destruct (get b "status") as [[| | |status| |]|] eqn:Hstatus;
    try (split_and!;
         [ discriminate
         | intros ? _ _ _; reflexivity
         | intros existing _ _; split_and!;
           [done | done | intros [?|?]; discriminate] ]).
  case_bool_decide as Hallowed.
  2:{ split_and!; [discriminate | intros ? _ _ _; reflexivity |].
      intros existing _ _. split_and!; [done | done |].
      intros [[= ->]|[= ->]]; exfalso; apply Hallowed, allowed_status; auto. }
  apply allowed_status in Hallowed.
  destruct (findDraft campaignId draftId db) as [existing|] eqn:Hfind.
  2:{ split_and!; [discriminate | | discriminate].
      intros ? _ _ Hnot. exfalso. apply Hnot.
      destruct Hallowed as [-> | ->]; auto. }
  destruct (EmailDraft.status existing) eqn:Hst.
  - split_and!.
    + unfold updateStatus.
      destruct (findFirst _ (emailDrafts db)) as [row|]; [|discriminate].
      intros updated [= <-]. exists existing.
      destruct Hallowed as [-> | ->]; cbn; auto.
    + intros ? _ _ Hnot. exfalso. apply Hnot.
      destruct Hallowed as [-> | ->]; auto.
    + intros ? [= <-] Hne. congruence.
  - split_and!; [discriminate | |].
    + intros ? _ _ Hnot. exfalso. apply Hnot.
      destruct Hallowed as [-> | ->]; auto.
    + intros ? _ _. split_and!; [done | done | eauto].
  - split_and!; [discriminate | |].
    + intros ? _ _ Hnot. exfalso. apply Hnot.
      destruct Hallowed as [-> | ->]; auto.
    + intros ? _ _. split_and!; [done | done | eauto].
Qed.

Lemma PATCH_only_from_generated_witness :
  let result :=
    PATCH 1 10 (Some (JObj [("status", JStr "approved")])) approvedDb in
  result.2 = approvedDb
  ∧ (∀ updated, result.1 ≠ Json updated)
  ∧ ∃ message, result.1 = Error 409 message.
Proof.
  destruct (PATCH_only_from_generated 1 10
              (Some (JObj [("status", JStr "approved")])) approvedDb)
    as (_ & _ & Hconflict).
  destruct (Hconflict approvedDraft eq_refl) as (Hdb & Hfail & H409);
    [discriminate|].
  split_and!; [exact Hdb | exact Hfail | apply H409; left; reflexivity].
Defined.

End DraftRouteFacts.

(** ** The regular-expression matcher *)

Section RegexFacts.
Import Regex.
Context {A : Type}.
Implicit Types (k : list ascii → capture → option A) (p : ascii → bool).

Lemma rmatch_lit_chars (l s : list ascii) cap k :
  rmatch (lit_chars l) (l ++ s) cap k = k s cap.
Proof.
  induction l as [|c l IH]; [reflexivity|].
  cbn [lit_chars rmatch app]. rewrite Ascii.eqb_refl. exact IH.
Qed.

Lemma rmatch_star_cls_nil p cap k :
  rmatch (Star (Cls p)) [] cap k = k [] cap.
Proof. reflexivity. Qed.

Lemma rmatch_star_cls_cons p c s cap k :
  rmatch (Star (Cls p)) (c :: s) cap k =
  if p c then
    match rmatch (Star (Cls p)) s cap k with
    | Some a => Some a
    | None => k (c :: s) cap
    end
  else k (c :: s) cap.
Proof.
  cbn [rmatch length]. destruct (p c); [|reflexivity].
  assert (Hlt : (length s <? S (length s))%nat = true)
    by (apply Nat.ltb_lt; lia).
  rewrite Hlt. reflexivity.
Qed.

Lemma rmatch_star_cls_stop p s cap k :
  stops p s → rmatch (Star (Cls p)) s cap k = k s cap.
Proof.
  destruct s as [|c s]; [reflexivity|]. cbn [stops]. intros Hc.
  by rewrite rmatch_star_cls_cons, Hc.
Qed.

(** The greedy run: over a run [l] of characters of the class that the
    text does not continue, the star takes all of [l] first. *)
Lemma rmatch_star_cls_run p (l rest : list ascii) cap k (a : A) :
  Forall (λ c, p c = true) l → stops p rest →
  k rest cap = Some a →
  rmatch (Star (Cls p)) (l ++ rest) cap k = Some a.
Proof.
  intros Hl Hrest Hk. induction Hl as [|c l Hc _ IH].
  - cbn [app]. by rewrite rmatch_star_cls_stop.
  - cbn [app]. by rewrite rmatch_star_cls_cons, Hc, IH.
Qed.

Lemma rmatch_plus_cls_run p (l rest : list ascii) cap k (a : A) :
  l ≠ [] → Forall (λ c, p c = true) l → stops p rest →
  k rest cap = Some a →
  rmatch (plus (Cls p)) (l ++ rest) cap k = Some a.
Proof.
  intros Hne Hl Hrest Hk. destruct Hl as [|c l Hc Hl]; [done|].
  unfold plus. cbn [rmatch app]. rewrite Hc.
  by apply rmatch_star_cls_run.
Qed.

End RegexFacts.

Section SearchFacts.
Import Regex.

Lemma search_found (r : regex) (pre s : list ascii) (cap : capture) :
  matchHere r s = Some cap → is_Some (search r (pre ++ s)).
Proof.
  intros Hs. induction pre as [|c pre IH]; cbn [app].
  - destruct s; cbn [search]; rewrite Hs; eauto.
  - cbn [search]. destruct (matchHere r (c :: pre ++ s)); eauto.
Qed.

Lemma search_skip (r : regex) (pre s : list ascii) :
  (∀ c rest, c ∈ pre → matchHere r (c :: rest) = None) →
  search r (pre ++ s) = search r s.
Proof.
  induction pre as [|c pre IH]; intros Hpre; [reflexivity|].
  cbn [app search]. rewrite Hpre by left.
  apply IH. intros c' rest Hc'. apply Hpre. by right.
Qed.

Lemma search_here (r : regex) (s : list ascii) (cap : capture) :
  matchHere r s = Some cap → search r s = Some cap.
Proof. intros Hs. destruct s; cbn [search]; by rewrite Hs. Qed.

Lemma isDigit_not_space (c : ascii) : isDigit c = true → isWhiteSpace c = false.
Proof.
  unfold isDigit, isWhiteSpace. generalize (code c). intros n Hn.
  apply andb_true_iff in Hn as [H1%N.leb_le H2%N.leb_le].
  repeat (apply orb_false_iff; split);
    [apply andb_false_iff; right; apply N.leb_gt; lia
    | apply N.eqb_neq; lia | apply N.eqb_neq; lia].
Qed.

Lemma numeral_stops_space (ds rest : list ascii) :
  ds ≠ [] → Forall (λ c, isDigit c = true) ds → stops isWhiteSpace (ds ++ rest).
Proof.
  intros Hne Hds. destruct Hds as [|c ds Hc _]; [done|].
  cbn. by apply isDigit_not_space.
Qed.


End SearchFacts.

(** ** What a pattern matches *)

Section RegexInversion.
Import Regex.
Context {A : Type}.
Implicit Types (k : list ascii → capture → option A) (p : ascii → bool).

Lemma rmatch_seq (r1 r2 : regex) (s : list ascii) cap k :
  rmatch (Seq r1 r2) s cap k
  = rmatch r1 s cap (λ s' cap', rmatch r2 s' cap' k).
Proof. reflexivity. Qed.

Lemma rmatch_group (r : regex) (s : list ascii) cap k :
  rmatch (Group r) s cap k
  = rmatch r s cap
      (λ s' _, k s' (Some (take (length s - length s')%nat s))).
Proof. reflexivity. Qed.

Lemma rmatch_alt (r1 r2 : regex) (s : list ascii) cap k :
  rmatch (Alt r1 r2) s cap k
  = match rmatch r1 s cap k with
    | Some a => Some a
    | None => rmatch r2 s cap k
    end.
Proof. reflexivity. Qed.

Lemma rmatch_alt_inv (r1 r2 : regex) (s : list ascii) cap k (a : A) :
  rmatch (Alt r1 r2) s cap k = Some a →
  rmatch r1 s cap k = Some a ∨ rmatch r2 s cap k = Some a.
Proof. rewrite rmatch_alt. destruct (rmatch r1 s cap k); auto. Qed.

Lemma rmatch_alt_some (r1 r2 : regex) (s : list ascii) cap k :
  is_Some (rmatch r1 s cap k) ∨ is_Some (rmatch r2 s cap k) →
  is_Some (rmatch (Alt r1 r2) s cap k).
Proof.
  rewrite rmatch_alt. destruct (rmatch r1 s cap k); [eauto|].
  intros [[? [=]]|?]. done.
Qed.

Lemma rmatch_lit_chars_inv (l s : list ascii) cap k (a : A) :
  rmatch (lit_chars l) s cap k = Some a →
  ∃ s', s = l ++ s' ∧ k s' cap = Some a.
Proof.
  revert s. induction l as [|c l IH]; intros s; cbn [lit_chars].
  { intros Hk. by exists s. }
  rewrite rmatch_seq. destruct s as [|c' s]; [discriminate|]. cbn [rmatch].
  destruct (Ascii.eqb_spec c' c) as [->|]; [|discriminate].
  intros (s' & -> & Hk)%IH. by exists s'.
Qed.

Lemma rmatch_chr_inv (c : ascii) (s : list ascii) cap k (a : A) :
  rmatch (Chr c) s cap k = Some a → ∃ s', s = c :: s' ∧ k s' cap = Some a.
Proof.
  destruct s as [|c' s]; [discriminate|]. cbn [rmatch].
  destruct (Ascii.eqb_spec c' c) as [->|]; [eauto | discriminate].
Qed.

Lemma rmatch_chr_cons (c : ascii) (s : list ascii) cap k :
  rmatch (Chr c) (c :: s) cap k = k s cap.
Proof. cbn [rmatch]. by rewrite Ascii.eqb_refl. Qed.

Lemma rmatch_star_cls_inv p (s : list ascii) cap k (a : A) :
  rmatch (Star (Cls p)) s cap k = Some a →
  ∃ l rest, s = l ++ rest ∧ Forall (λ c, p c = true) l
            ∧ k rest cap = Some a.
Proof.
  induction s as [|c s IH].
  { rewrite rmatch_star_cls_nil. intros Hk. by exists [], []. }
  rewrite rmatch_star_cls_cons. destruct (p c) eqn:Hc.
  - destruct (rmatch (Star (Cls p)) s cap k) as [a'|] eqn:Hinner.
    + intros [= ->]. destruct (IH eq_refl) as (l & rest & -> & Hl & Hk).
      exists (c :: l), rest. split_and!; [done | by constructor | done].
    + intros Hk. by exists [], (c :: s).
  - intros Hk. by exists [], (c :: s).
Qed.

Lemma rmatch_plus_cls_inv p (s : list ascii) cap k (a : A) :
  rmatch (plus (Cls p)) s cap k = Some a →
  ∃ l rest, s = l ++ rest ∧ l ≠ [] ∧ Forall (λ c, p c = true) l
            ∧ k rest cap = Some a.
Proof.
  unfold plus. cbn [rmatch]. destruct s as [|c s]; [discriminate|].
  destruct (p c) eqn:Hc; [|discriminate].
  intros (l & rest & -> & Hl & Hk)%rmatch_star_cls_inv.
  exists (c :: l), rest. split_and!; [done | done | by constructor | done].
Qed.

(** Backtracking finds a match: when the continuation accepts the text
    after some run of the class, the star succeeds. *)
Lemma rmatch_star_cls_some p (l rest : list ascii) cap k :
  Forall (λ c, p c = true) l → is_Some (k rest cap) →
  is_Some (rmatch (Star (Cls p)) (l ++ rest) cap k).
Proof.
  intros Hl Hk. induction Hl as [|c l Hc _ IH]; cbn [app].
  - destruct rest as [|c rest]; [done|].
    rewrite rmatch_star_cls_cons.
    destruct (p c); [|done].
    by destruct (rmatch (Star (Cls p)) rest cap k).
  - rewrite rmatch_star_cls_cons, Hc.
    destruct IH as [a ->]. eauto.
Qed.

Lemma rmatch_plus_cls_some p (l rest : list ascii) cap k :
  l ≠ [] → Forall (λ c, p c = true) l → is_Some (k rest cap) →
  is_Some (rmatch (plus (Cls p)) (l ++ rest) cap k).
Proof.
  intros Hne Hl Hk. destruct Hl as [|c l Hc Hl]; [done|].
  unfold plus. cbn [rmatch app]. rewrite Hc.
  by apply rmatch_star_cls_some.
Qed.

End RegexInversion.

Section FirstMatch.
Import Regex.



(** The leftmost match, in terms of the places of the text. *)
Lemma search_Some (r : regex) (text : list ascii) (m : capture) :
  search r text = Some m
  ↔ ∃ pre s,
      text = pre ++ s ∧ matchHere r s = Some m
      ∧ ∀ p1 p2, pre = p1 ++ p2 → p2 ≠ [] → matchHere r (p2 ++ s) = None.
Proof.
  split.
  - induction text as [|c text IH].
    + cbn [search]. destruct (matchHere r []) eqn:Hhere; [|done].
      intros [= ->]. exists [], []. split_and!; [done | done |].
      intros p1 p2 Hp Hne. by destruct p1, p2.
    + cbn [search]. destruct (matchHere r (c :: text)) eqn:Hhere.
      * intros [= ->]. exists [], (c :: text). split_and!; [done | done |].
        intros p1 p2 Hp Hne. by destruct p1, p2.
      * intros (pre & s & -> & Hs & Hpre)%IH.
        exists (c :: pre), s. split_and!; [done | done |].
        intros [|c' p1] p2 Hp Hne.
        -- cbn in Hp. subst p2. exact Hhere.
        -- injection Hp as -> ->. by apply (Hpre p1).
  - intros (pre & s & -> & Hs & Hpre).
    induction pre as [|c pre IH]; [by apply search_here|].
    assert (Hhere : matchHere r (c :: pre ++ s) = None)
      by by apply (Hpre [] (c :: pre)).
    cbn [app search]. rewrite Hhere.
    apply IH. intros p1 p2 -> Hne. by apply (Hpre (c :: p1)).
Qed.



End FirstMatch.

(** ** The mock segment provider *)

Section SmartGenerateFacts.
Import Regex Segments SmartGenerate.

Lemma test_true (r : regex) (text : string) :
  test r text = true ↔ is_Some (exec r text).
Proof. unfold test. by rewrite bool_decide_eq_true. Qed.

Lemma test_false (r : regex) (text : string) :
  test r text = false ↔ exec r text = None.
Proof.
  unfold test. rewrite bool_decide_eq_false, <- eq_None_not_Some. done.
Qed.








(** Where the property-path pattern matches. *)
Lemma search_is_Some (r : regex) (text : list ascii) :
  is_Some (search r text)
  ↔ ∃ pre s, text = pre ++ s ∧ is_Some (matchHere r s).
Proof.
  split.
  - intros [m (pre & s & -> & Hs & _)%search_Some]. exists pre, s. eauto.
  - intros (pre & s & -> & [m Hs]). by eapply search_found.
Qed.

Lemma matchHere_path_after (verb : string) (s : list ascii) :
  is_Some (matchHere (seq [lit verb; plus ws; Chr "/"; plus word]) s)
  ↔ pathAfter verb s.
Proof.
  unfold matchHere. cbn [seq]. split.
  - intros [m Hm]. revert Hm. rewrite rmatch_seq. unfold lit at 1.
    intros (s1 & -> & H1)%rmatch_lit_chars_inv.
    rewrite rmatch_seq in H1. unfold ws at 1 in H1.
    apply rmatch_plus_cls_inv in H1 as (w & s2 & -> & Hne & Hw & H2).
    rewrite rmatch_seq in H2.
    apply rmatch_chr_inv in H2 as (s3 & -> & H3).
    unfold word in H3.
    apply rmatch_plus_cls_inv in H3 as (l & rest & -> & Hl & Hword & _).
    destruct Hword as [|c l Hc _]; [done|].
    by exists w, c, (l ++ rest).
  - intros (w & c & rest & -> & [Hne Hw] & Hc).
    rewrite rmatch_seq. unfold lit at 1. rewrite rmatch_lit_chars.
    rewrite rmatch_seq. unfold ws at 1.
    apply rmatch_plus_cls_some; [done | done |].
    rewrite rmatch_seq, rmatch_chr_cons. unfold word.
    apply (rmatch_plus_cls_some _ [c] rest); [done | by constructor | done].
Qed.

Lemma matchHere_pricing (s : list ascii) :
  is_Some (matchHere re_pricing s)
  ↔ (∃ rest, s = chars "pricing" ++ rest)
    ∨ (∃ rest, s = chars "/pricing" ++ rest)
    ∨ pathAfter "visited" s ∨ pathAfter "viewed" s.
Proof.
  rewrite <- !matchHere_path_after.
  unfold matchHere at 1, re_pricing. cbn [alt]. split.
  - intros [m Hm].
    apply rmatch_alt_inv in Hm as [Hm|Hm];
      [left; apply rmatch_lit_chars_inv in Hm as (rest & -> & _); eauto|].
    apply rmatch_alt_inv in Hm as [Hm|Hm];
      [right; left; apply rmatch_lit_chars_inv in Hm as (rest & -> & _);
       eauto|].
    apply rmatch_alt_inv in Hm as [Hm|Hm]; unfold matchHere; eauto.
  - intros [[rest ->]|[[rest ->]|[Hs|Hs]]].
    + apply rmatch_alt_some. left. unfold lit. by rewrite rmatch_lit_chars.
    + apply rmatch_alt_some. right. apply rmatch_alt_some. left.
      unfold lit. by rewrite rmatch_lit_chars.
    + do 2 (apply rmatch_alt_some; right). apply rmatch_alt_some. by left.
    + do 2 (apply rmatch_alt_some; right). apply rmatch_alt_some. by right.
Qed.

Lemma test_pricing (text : string) :
  test re_pricing text = true ↔ mentionsPricing text.
Proof.
  rewrite test_true. unfold exec. rewrite search_is_Some. split.
  - intros (pre & s & Htext & Hs). apply matchHere_pricing in Hs.
    destruct Hs as [Hs|[[rest ->]|Hs]].
    + exists pre, s. auto.
    + exists (pre ++ ["/"%char]), (chars "pricing" ++ rest). split.
      * by rewrite <- app_assoc.
      * left. eauto.
    + exists pre, s. auto.
  - intros (pre & s & Htext & Hs). exists pre, s. split; [done|].
    apply matchHere_pricing. destruct Hs as [Hs|Hs]; auto.
Qed.

Lemma toDouble_safe (z : Z) : z ≤ MAX_SAFE_INTEGER → toDouble z = Finite z.
Proof.
  intros Hz. unfold toDouble.
  assert (Hlt : (z <? 2 ^ 53) = true)
    by (apply Z.ltb_lt; unfold MAX_SAFE_INTEGER in Hz; lia).
  by rewrite Hlt.
Qed.

End SmartGenerateFacts.

Section SmartGeneratePriority.
Import Regex Segments SmartGenerate.


(** The count parser returns 0 both for "no count phrase" and for
    "at least 0", so that prompt falls through to the plain variant. *)
Example generate_at_least_zero :
  parseMinCount "at least 0 logins" = Finite 0
  ∧ generate "at least 0 logins" = EventTypeInLastDays "login" (Finite 30).
Proof. split; reflexivity. Qed.

Lemma without_decide (c : ascii) (s : string) :
  bool_decide (c ∉ chars s) = true → without c s.
Proof. apply bool_decide_eq_true. Qed.



End SmartGeneratePriority.

(** ** The segment evaluator *)

Section SegmentPreviewFacts.
Import Segments Db SegmentPreview.

#[local] Instance emailLe_total : Total emailLe.
Proof. intros a b. unfold emailLe. apply total, _. Qed.

#[local] Instance emailLe_trans : Transitive emailLe.
Proof. intros a b c. unfold emailLe. apply transitivity. Qed.

Lemma StronglySorted_take {A} (R : relation A) (n : nat) (l : list A) :
  StronglySorted R l → StronglySorted R (take n l).
Proof.
  intros Hl. rewrite <- (take_drop n l) in Hl.
  by apply StronglySorted_app_1_l in Hl.
Qed.

Lemma fetchCustomers_spec (ids : list Id) (db : Db.t) :
  let r := fetchCustomers ids db in
  count r = length ids
  ∧ (length (customers r) ≤ PREVIEW_LIMIT)%nat
  ∧ StronglySorted emailLe (customers r)
  ∧ ∀ c, c ∈ customers r → c ∈ Db.customers db ∧ Customer.id c ∈ ids.
Proof.
  unfold fetchCustomers, PREVIEW_LIMIT. case_bool_decide as Hlen; cbn.
  - split_and!; [done | lia | constructor |].
    intros c Hc. by apply elem_of_nil in Hc.
  - split_and!; [done | | |].
    + rewrite length_take. lia.
    + apply StronglySorted_take, StronglySorted_merge_sort; apply _.
    + intros c Hc%subseteq_take.
      rewrite merge_sort_Permutation in Hc.
      apply list_elem_of_filter in Hc. tauto.
Qed.


(** The customers that [fetchCustomers] lists, among those it found. *)
Lemma fetchCustomers_front (ids : list Id) (db : Db.t) (c c' : Customer.t) :
  c ∈ customers (fetchCustomers ids db) →
  c' ∈ Db.customers db → Customer.id c' ∈ ids →
  c' ∉ customers (fetchCustomers ids db) →
  emailLe c c'.
Proof.
  unfold fetchCustomers. case_bool_decide as Hlen; cbn [customers].
  { by intros []%elem_of_nil. }
  set (found := filter (λ c, Customer.id c ∈ ids) (Db.customers db)).
  intros Hc Hstored Hid Hout.
  assert (Hsorted : StronglySorted emailLe (merge_sort emailLe found))
    by (apply StronglySorted_merge_sort; apply _).
  assert (Hin : c' ∈ merge_sort emailLe found).
  { rewrite merge_sort_Permutation. by apply list_elem_of_filter. }
  rewrite <- (take_drop PREVIEW_LIMIT (merge_sort emailLe found)) in Hsorted, Hin.
  apply elem_of_app in Hin as [Hin|Hin]; [done|].
  by eapply StronglySorted_app_1_elem_of.
Qed.

Lemma distinct_customerIds (P : Event.t → Prop) `{∀ e, Decision (P e)}
    (evs : list Event.t) (c : Id) :
  c ∈ remove_dups (Event.customerId <$> filter P evs)
  ↔ ∃ e, e ∈ filter (λ e, Event.customerId e = c ∧ P e) evs.
Proof.
  rewrite elem_of_remove_dups, list_elem_of_fmap.
  split.
  - intros (e & -> & [HP He]%list_elem_of_filter).
    exists e. by apply list_elem_of_filter.
  - intros (e & [[Hc HP] He]%list_elem_of_filter).
    exists e. split; [done|]. by apply list_elem_of_filter.
Qed.

(** The cutoff is a date, and the evaluation returns, exactly when the
    instant [days] days before [now] is in the range of [Date]. *)
Lemma cutoffFor_Some (now days cutoff : Z) :
  cutoffFor now days = Some cutoff
  ↔ cutoff = now - days * DAY_MS ∧ Z.abs cutoff ≤ MAX_TIME.
Proof.
  unfold cutoffFor, timeClip.
  destruct (Z.leb_spec (Z.abs (now - days * DAY_MS)) MAX_TIME) as [Hle|Hgt].
  - split; [by intros [= <-] | by intros [-> _]].
  - split; [done | intros [-> ?]; lia].
Qed.

Lemma evaluateSegment_returns (now : Z) (definition : SegmentDefinition)
    (db : Db.t) :
  is_Some (evaluateSegment now definition db)
  ↔ Z.abs (now - Segments.days definition * DAY_MS) ≤ MAX_TIME.
Proof.
  unfold evaluateSegment.
  destruct (cutoffFor now (Segments.days definition)) as [cutoff|] eqn:Hcut.
  - apply cutoffFor_Some in Hcut as [-> Hle]. split; [done | eauto].
  - split; [by intros [? [=]]|]. intros Hle.
    assert (Hsome : cutoffFor now (Segments.days definition)
                    = Some (now - Segments.days definition * DAY_MS))
      by by apply cutoffFor_Some.
    congruence.
Qed.

(** The customer ids of each query are distinct and are exactly the
    matching ones. *)
Lemma matching_ids (now : Z) (definition : SegmentDefinition) (db : Db.t)
    (r : PreviewResult) :
  evaluateSegment now definition db = Some r →
  ∃ ids,
    NoDup ids
    ∧ (∀ c, c ∈ ids ↔ matches now definition db c)
    ∧ r = fetchCustomers ids db.
Proof.
  unfold evaluateSegment.
  destruct (cutoffFor now (Segments.days definition)) as [cutoff|] eqn:Hcut;
    [|discriminate].
  apply cutoffFor_Some in Hcut as [Hcut _]. intros [= <-].
  unfold matches. rewrite <- Hcut. clear Hcut.
  destruct definition as [t n | t p v n | t n m];
    refine (ex_intro _ _ (conj _ (conj _ eq_refl))).
  - apply NoDup_remove_dups.
  - intros c. apply distinct_customerIds.
  - apply NoDup_remove_dups.
  - intros c. rewrite distinct_customerIds. unfold eventsInWindow.
    split.
    + intros (e & [(Hc & Hw & Hp) He]%list_elem_of_filter).
      exists e. split; [|done]. by apply list_elem_of_filter.
    + intros (e & [[Hc Hw] He]%list_elem_of_filter & Hp).
      exists e. by apply list_elem_of_filter.
  - apply NoDup_filter, NoDup_remove_dups.
  - intros c. rewrite list_elem_of_filter, distinct_customerIds.
    unfold eventsInWindow.
    rewrite list_filter_filter. tauto.
Qed.



End SegmentPreviewFacts.

(** ** The client calls on a table *)

Section TableFacts.
Import Db.
Context {A : Type}.
Implicit Types (P Q : A → bool) (f : A → A) (rows : list A).

Lemma update_length P f rows : length (update P f rows) = length rows.
Proof.
  induction rows as [|r rows IH]; [reflexivity|]. cbn [update].
  destruct (P r); cbn; [reflexivity | by rewrite IH].
Qed.

Lemma update_none P f rows : findFirst P rows = None → update P f rows = rows.
Proof.
  unfold findFirst. induction rows as [|r rows IH]; [reflexivity|].
  cbn [update List.find]. destruct (P r); [discriminate|].
  intros Hnone. by rewrite IH.
Qed.

Lemma findFirst_update_same P f rows :
  (∀ r, P r = true → P (f r) = true) →
  findFirst P (update P f rows) = f <$> findFirst P rows.
Proof.
  intros Hf. unfold findFirst. induction rows as [|r rows IH]; [reflexivity|].
  cbn [update List.find]. destruct (P r) eqn:Hr; cbn [List.find].
  - by rewrite Hf.
  - by rewrite Hr.
Qed.

Lemma findFirst_update_other P Q f rows :
  (∀ r, P r = true → Q r = false ∧ Q (f r) = false) →
  findFirst Q (update P f rows) = findFirst Q rows.
Proof.
  intros Hf. unfold findFirst. induction rows as [|r rows IH]; [reflexivity|].
  cbn [update List.find]. destruct (P r) eqn:Hr; cbn [List.find].
  - destruct (Hf r Hr) as [-> ->]. reflexivity.
  - by rewrite IH.
Qed.

Lemma findFirst_app P rows1 rows2 :
  findFirst P (rows1 ++ rows2) =
  match findFirst P rows1 with
  | Some r => Some r
  | None => findFirst P rows2
  end.
Proof.
  unfold findFirst. induction rows1 as [|r rows1 IH]; [reflexivity|].
  cbn [app List.find]. by destruct (P r).
Qed.

Lemma findFirst_head_filter (R : A → Prop) `{∀ r, Decision (R r)} P rows :
  (∀ r, P r = true ↔ R r) →
  findFirst P rows = head (filter R rows).
Proof.
  intros HP. unfold findFirst. induction rows as [|r rows IH]; [reflexivity|].
  cbn [List.find]. rewrite filter_cons.
  destruct (P r) eqn:Hr.
  - rewrite decide_True by (by apply HP). reflexivity.
  - rewrite decide_False; [exact IH|].
    intros HR%HP. congruence.
Qed.

Lemma filter_update_other (R : A → Prop) `{∀ r, Decision (R r)} P f rows :
  (∀ r, P r = true → ¬ R r ∧ ¬ R (f r)) →
  filter R (update P f rows) = filter R rows.
Proof.
  intros Hf. induction rows as [|r rows IH]; [reflexivity|].
  cbn [update]. destruct (P r) eqn:Hr.
  - destruct (Hf r Hr) as [H1 H2].
    rewrite !filter_cons, !decide_False by done. reflexivity.
  - rewrite !filter_cons, IH. reflexivity.
Qed.

Lemma filter_update_same (R : A → Prop) `{∀ r, Decision (R r)} P f rows :
  (∀ r, P r = true ↔ R r) → (∀ r, R r → R (f r)) →
  filter R (update P f rows) =
  match filter R rows with
  | [] => []
  | d :: ds => f d :: ds
  end.
Proof.
  intros HP Hf. induction rows as [|r rows IH]; [reflexivity|].
  cbn [update]. destruct (P r) eqn:Hr.
  - assert (R r) by (by apply HP).
    rewrite !filter_cons, !decide_True by auto. reflexivity.
  - assert (¬ R r) by (intros HR%HP; congruence).
    rewrite !filter_cons, !decide_False by done. exact IH.
Qed.

End TableFacts.

(** ** Draft generation *)

Section GenerateDraftsFacts.
Import Segments Db SegmentPreview SmartDraft GenerateDraftsRoute.
Context `{SmartDraftProvider}.

Lemma sameDraftKey_true (cid cu : Id) (d : EmailDraft.t) :
  sameDraftKey cid cu d = true
  ↔ EmailDraft.campaignId d = cid ∧ EmailDraft.customerId d = cu.
Proof. unfold sameDraftKey. apply bool_decide_eq_true. Qed.

(** One upsert: the other tables and the other keys are untouched, an
    existing row is rewritten where it stands, a missing row is added. *)
Lemma upsertDraft_spec (cid cu : Id) (out : DraftOutput) (sku : option string)
    (db : Db.t) :
  uniqueDrafts db →
  let db' := upsertDraft cid cu out sku db in
  Db.customers db' = Db.customers db
  ∧ Db.events db' = Db.events db
  ∧ Db.campaigns db' = Db.campaigns db
  ∧ Db.sends db' = Db.sends db
  ∧ (∀ cid' cu', ¬ (cid' = cid ∧ cu' = cu) →
       draftsOf cid' cu' db' = draftsOf cid' cu' db)
  ∧ (∃ d, draftsOf cid cu db' = [d]
          ∧ upserted (draftsOf cid cu db) d (subject out, body out, sku))
  ∧ length (Db.emailDrafts db')
    = (length (Db.emailDrafts db)
       + if decide (draftsOf cid cu db = []) then 1 else 0)%nat.
Proof.
  intros Huniq. unfold upsertDraft, upsert.
  set (create := {| EmailDraft.id := nextId db |}).
  pose proof (findFirst_head_filter
    (λ d, EmailDraft.campaignId d = cid ∧ EmailDraft.customerId d = cu)
    (sameDraftKey cid cu) (emailDrafts db) (sameDraftKey_true cid cu)) as Hfind.
  fold (draftsOf cid cu db) in Hfind. rewrite Hfind.
  specialize (Huniq cid cu).
  destruct (draftsOf cid cu db) as [|d0 ds] eqn:Hprior; cbn [head].
  - cbv zeta. cbn. split_and!; try reflexivity.
    + intros cid' cu' Hne. unfold draftsOf. cbn.
      rewrite filter_app, filter_cons, decide_False, filter_nil, app_nil_r;
        [done|]. subst create. cbn. intros [? ?]. apply Hne. by split.
    + exists create. unfold draftsOf in *. cbn.
      rewrite filter_app, Hprior, filter_cons, decide_True, filter_nil;
        [|by cbn]. done.
    + rewrite length_app, decide_True by done. reflexivity.
  - assert (ds = []) as -> by (destruct ds; [done | cbn in Huniq; lia]).
    cbv zeta. cbn. split_and!; try reflexivity.
    + intros cid' cu' Hne. unfold draftsOf. cbn.
      apply filter_update_other. intros r [Hr1 Hr2]%sameDraftKey_true. cbn.
      split; intros [? ?]; apply Hne; split; congruence.
    + exists (EmailDraft.withCopy (subject out) (body out) sku d0).
      unfold draftsOf in *. cbn.
      rewrite (filter_update_same _ _ _ _ (sameDraftKey_true cid cu)), Hprior
        by (by intros r).
      done.
    + rewrite update_length, decide_False by done. lia.
Qed.

Lemma upsertDraft_unique (cid cu : Id) (out : DraftOutput)
    (sku : option string) (db : Db.t) :
  uniqueDrafts db → uniqueDrafts (upsertDraft cid cu out sku db).
Proof.
  intros Huniq.
  destruct (upsertDraft_spec cid cu out sku db Huniq)
    as (_ & _ & _ & _ & Hother & (d & Hd & _) & _).
  intros cid' cu'.
  destruct (decide (cid' = cid ∧ cu' = cu)) as [[-> ->]|Hne].
  - rewrite Hd. cbn. lia.
  - rewrite Hother by done. apply Huniq.
Qed.

End GenerateDraftsFacts.

Section DraftLoopFacts.
Import Segments Db SegmentPreview SmartDraft GenerateDraftsRoute.
Context `{SmartDraftProvider}.

Lemma filter_ext_elem {A} (P Q : A → Prop)
    `{!∀ x, Decision (P x), !∀ x, Decision (Q x)} (l : list A) :
  (∀ x, x ∈ l → (P x ↔ Q x)) → filter P l = filter Q l.
Proof.
  induction l as [|a l IH]; intros Hl; [reflexivity|].
  rewrite !filter_cons.
  rewrite IH by (intros x Hx; apply Hl; by right).
  destruct (decide (P a)) as [HP|HP], (decide (Q a)) as [HQ|HQ];
    try reflexivity; exfalso; apply (Hl a) in HP || apply (Hl a) in HQ;
    done || by left.
Qed.

(** The loop over the processed customers: one upsert each. *)
Lemma draftLoop_spec (id : Id) (m : gmap Id (list Event.t))
    (cs : list Customer.t) (db : Db.t) (n : nat) :
  NoDup (Customer.id <$> cs) → uniqueDrafts db →
  let st := foldl (draftStep id m) (db, n) cs in
  st.2 = (n + length cs)%nat
  ∧ Db.customers st.1 = Db.customers db
  ∧ Db.events st.1 = Db.events db
  ∧ Db.campaigns st.1 = Db.campaigns db
  ∧ Db.sends st.1 = Db.sends db
  ∧ uniqueDrafts st.1
  ∧ (∀ cid cu, ¬ (cid = id ∧ cu ∈ Customer.id <$> cs) →
       draftsOf cid cu st.1 = draftsOf cid cu db)
  ∧ (∀ c, c ∈ cs →
       ∃ d, draftsOf id (Customer.id c) st.1 = [d]
            ∧ upserted (draftsOf id (Customer.id c) db) d (loopCopy m c))
  ∧ length (Db.emailDrafts st.1)
    = (length (Db.emailDrafts db) + length (undrafted id db cs))%nat.
Proof.
  revert db n. induction cs as [|c cs IH]; intros db n Hnodup Huniq.
  { cbn. split_and!; try done; try lia.
    intros c Hc. by apply elem_of_nil in Hc. }
  rewrite fmap_cons in Hnodup. apply NoDup_cons in Hnodup as [Hc Hcs].
  unfold loopCopy in *.
  destruct (draftFor m c) as [out sku] eqn:Hdraft.
  set (db1 := upsertDraft id (Customer.id c) out sku db).
  assert (Hstep : draftStep id m (db, n) c = (db1, S n)).
  { unfold draftStep. by rewrite Hdraft. }
  cbn [foldl]. rewrite Hstep.
  destruct (upsertDraft_spec id (Customer.id c) out sku db Huniq)
    as (Hcu1 & Hev1 & Hca1 & Hse1 & Hother1 & (d & Hd & Hup) & Hlen1).
  fold db1 in Hcu1, Hev1, Hca1, Hse1, Hother1, Hd, Hlen1.
  assert (Huniq1 : uniqueDrafts db1) by (by apply upsertDraft_unique).
  destruct (IH db1 (S n) Hcs Huniq1)
    as (Hn & Hcu & Hev & Hca & Hse & Huniq' & Hother & Hproc & Hlen).
  assert (Hsame : ∀ c', c' ∈ cs →
    draftsOf id (Customer.id c') db1 = draftsOf id (Customer.id c') db).
  { intros c' Hc'. apply Hother1. intros [_ Heq]. apply Hc.
    rewrite <- Heq. by apply list_elem_of_fmap_2. }
  split_and!.
  - rewrite Hn. cbn. lia.
  - congruence.
  - congruence.
  - congruence.
  - congruence.
  - exact Huniq'.
  - intros cid cu Hne. rewrite Hother.
    + apply Hother1. intros [-> ->]. apply Hne. split; [done|]. left.
    + intros [-> Hcu']. apply Hne. split; [done|]. by right.
  - intros c' [->|Hc']%elem_of_cons.
    + exists d. rewrite Hdraft. split; [|done].
      rewrite Hother; [done|]. by intros [_ ?].
    + destruct (Hproc c' Hc') as (d' & Hd' & Hup').
      exists d'. split; [done|]. by rewrite <- (Hsame c' Hc').
  - rewrite Hlen, Hlen1. unfold undrafted. rewrite filter_cons.
    rewrite (filter_ext_elem _ (λ c', draftsOf id (Customer.id c') db = []) cs)
      by (intros c' Hc'; by rewrite (Hsame c' Hc')).
    destruct (decide (draftsOf id (Customer.id c) db = [])); cbn; lia.
Qed.

End DraftLoopFacts.

Section GenerateDraftsRun.
Import Segments Db SegmentPreview SmartDraft GenerateDraftsRoute.
Context `{SmartDraftProvider}.

Lemma fetchCustomers_NoDup (ids : list Id) (db : Db.t) :
  NoDup (Customer.id <$> Db.customers db) →
  NoDup (Customer.id <$> customers (fetchCustomers ids db)).
Proof.
  intros Hdb. unfold fetchCustomers. case_bool_decide; cbn; [constructor|].
  eapply sublist_NoDup; [|apply fmap_sublist, sublist_take].
  rewrite merge_sort_Permutation.
  eapply sublist_NoDup; [exact Hdb|]. apply fmap_sublist, sublist_filter.
Qed.

Lemma targets_NoDup (now : Z) (id : Id) (db : Db.t) :
  NoDup (Customer.id <$> Db.customers db) →
  NoDup (Customer.id <$> targets now id db).
Proof.
  intros Hdb. unfold targets.
  destruct (findCampaign id db) as [campaign|]; [|constructor].
  destruct (validateSegmentDefinition _) as [definition|]; [|constructor].
  destruct (evaluateSegment now definition db) as [preview|] eqn:Hpreview;
    [|constructor].
  apply matching_ids in Hpreview as (ids & _ & _ & ->).
  by apply fetchCustomers_NoDup.
Qed.

(** Closes the cases of a run that processes no customer: the database is
    the one it started from and the list of processed customers is empty. *)
Ltac nothing_processed :=
  cbn; split_and!; try done; try lia;
  try (by intros ? [= <-]);
  let Hc := fresh "Hc" in intros ? Hc; by apply elem_of_nil in Hc.

(** One run of draft generation. *)
Lemma POST_spec (now : Z) (id : Id) (db : Db.t) :
  uniqueDrafts db → NoDup (Customer.id <$> Db.customers db) →
  let r := POST now id db in
  let cs := targets now id db in
  Db.customers r.2 = Db.customers db
  ∧ Db.events r.2 = Db.events db
  ∧ Db.sends r.2 = Db.sends db
  ∧ uniqueDrafts r.2
  ∧ (∀ cid cu, ¬ (cid = id ∧ cu ∈ Customer.id <$> cs) →
       draftsOf cid cu r.2 = draftsOf cid cu db)
  ∧ (∀ c, c ∈ cs →
       ∃ d, draftsOf id (Customer.id c) r.2 = [d]
            ∧ upserted (draftsOf id (Customer.id c) db) d (copyFor now id db c))
  ∧ length (Db.emailDrafts r.2)
    = (length (Db.emailDrafts db) + length (undrafted id db cs))%nat
  ∧ (∀ n, r.1 = Json n → n = length cs)
  ∧ (cs = [] → r.2 = db)
  ∧ (cs ≠ [] →
       r = (Json (length cs),
            setCampaignStatus id StatusDrafted
              (foldl (draftStep id
                        (groupByCustomer
                           (recentEventsOf now (Customer.id <$> cs) db)))
                 (db, 0%nat) cs).1)).
Proof.
  intros Huniq Hnodup.
  pose proof (targets_NoDup now id db Hnodup) as Hcs.
  unfold copyFor. unfold POST, targets in *.
  destruct (findCampaign id db) as [campaign|]; [|nothing_processed].
  destruct (validateSegmentDefinition _) as [definition|error];
    [|nothing_processed].
  destruct (evaluateSegment now definition db) as [preview|];
    [|nothing_processed].
  set (cs := customers preview) in *.
  rewrite length_fmap. case_bool_decide as Hempty.
  { apply nil_length_inv in Hempty. rewrite Hempty. nothing_processed. }
  set (m := groupByCustomer (recentEventsOf now (Customer.id <$> cs) db)).
  destruct (draftLoop_spec id m cs db 0 Hcs Huniq)
    as (Hn & Hcu & Hev & Hca & Hse & Huniq' & Hother & Hproc & Hlen).
  destruct (foldl (draftStep id m) (db, 0%nat) cs) as [db1 draftedCount].
  cbn [fst snd] in *. rewrite Nat.add_0_l in Hn. subst draftedCount.
  assert (Hpos : (0 <? length cs)%nat = true).
  { apply Nat.ltb_lt. destruct cs; [done | cbn; lia]. }
  rewrite Hpos. cbn [fst snd].
  split_and!; try done.
  - by intros n [= <-].
  - intros ->. done.
Qed.

End GenerateDraftsRun.

Section GenerateDraftsTwice.
Import Segments Db SegmentPreview SmartDraft GenerateDraftsRoute.

Lemma draftsOf_emailDrafts (cid cu : Id) (db db' : Db.t) :
  Db.emailDrafts db = Db.emailDrafts db' → draftsOf cid cu db = draftsOf cid cu db'.
Proof. unfold draftsOf. by intros ->. Qed.

(** C4: a second run of draft generation for the same campaign, on a
    database that still holds the drafts of the first run (events and
    customers may have changed in between), rewrites the draft of every
    customer it processes where it stands.  After it each customer the
    second run processed has exactly one draft, with subject, body and
    recommended SKU of the second run, and, when the customer had a draft
    after the first run, with the id and status of that draft; each customer
    the first run processed still has exactly one draft; and records are
    added only for processed customers that had no draft. *)
Theorem generate_drafts_rerun_in_place `{SmartDraftProvider}
    (now1 now2 : Z) (id : Id) (db0 between : Db.t) :
  uniqueDrafts db0 →
  NoDup (Customer.id <$> Db.customers db0) →
  NoDup (Customer.id <$> Db.customers between) →
  let db1 := (POST now1 id db0).2 in
  Db.emailDrafts between = Db.emailDrafts db1 →
  let db2 := (POST now2 id between).2 in
  let cs1 := targets now1 id db0 in
  let cs2 := targets now2 id between in
  uniqueDrafts db2
  ∧ (∀ c, c ∈ cs2 →
       ∃ d, draftsOf id (Customer.id c) db2 = [d]
            ∧ upserted (draftsOf id (Customer.id c) db1) d
                (copyFor now2 id between c))
  ∧ (∀ c1 c2, c1 ∈ cs1 → c2 ∈ cs2 → Customer.id c1 = Customer.id c2 →
       ∃ d1 d2,
         draftsOf id (Customer.id c1) db1 = [d1]
         ∧ draftsOf id (Customer.id c1) db2 = [d2]
         ∧ EmailDraft.id d2 = EmailDraft.id d1
         ∧ EmailDraft.status d2 = EmailDraft.status d1
         ∧ copyOf d2 = copyFor now2 id between c2)
  ∧ (∀ c, c ∈ cs1 → length (draftsOf id (Customer.id c) db2) = 1%nat)
  ∧ length (Db.emailDrafts db2)
    = (length (Db.emailDrafts db1) + length (undrafted id db1 cs2))%nat.
Proof.
  intros Huniq0 Hnodup0 Hnodup1 db1 Hdrafts db2 cs1 cs2.
  destruct (POST_spec now1 id db0 Huniq0 Hnodup0)
    as (_ & _ & _ & Huniq1 & _ & Hproc1 & _).
  fold db1 in Huniq1, Hproc1. fold cs1 in Hproc1.
  assert (Hsame : ∀ cid cu, draftsOf cid cu between = draftsOf cid cu db1)
    by (intros; by apply draftsOf_emailDrafts).
  assert (Huniq : uniqueDrafts between).
  { intros cid cu. rewrite Hsame. apply Huniq1. }
  destruct (POST_spec now2 id between Huniq Hnodup1)
    as (_ & _ & _ & Huniq2 & Hother2 & Hproc2 & Hlen2 & _).
  fold db2 in Huniq2, Hother2, Hproc2, Hlen2.
  fold cs2 in Hother2, Hproc2, Hlen2.
  split_and!.
  - exact Huniq2.
  - intros c Hc. destruct (Hproc2 c Hc) as (d & Hd & Hup).
    exists d. by rewrite <- Hsame.
  - intros c1 c2 Hc1 Hc2 Heq.
    destruct (Hproc1 c1 Hc1) as (d1 & Hd1 & _).
    destruct (Hproc2 c2 Hc2) as (d2 & Hd2 & Hcopy & Hkeep).
    rewrite <- Heq, Hsame, Hd1 in Hkeep. rewrite <- Heq in Hd2.
    exists d1, d2. tauto.
  - intros c Hc. destruct (Hproc1 c Hc) as (d1 & Hd1 & _).
    destruct (decide (Customer.id c ∈ Customer.id <$> cs2)) as [Hin|Hout].
    + apply list_elem_of_fmap in Hin as (c2 & Heq & Hc2).
      destruct (Hproc2 c2 Hc2) as (d2 & Hd2 & _).
      by rewrite Heq, Hd2.
    + rewrite Hother2, Hsame, Hd1 by tauto. reflexivity.
  - rewrite Hlen2, Hdrafts. unfold undrafted. do 2 f_equal.
    apply filter_ext_elem. intros c _. by rewrite Hsame.
Qed.

Lemma uniqueDrafts_empty (db : Db.t) : Db.emailDrafts db = [] → uniqueDrafts db.
Proof. intros Hnone cid cu. unfold draftsOf. rewrite Hnone. cbn. lia. Qed.

Lemma generate_drafts_rerun_in_place_witness :
  let P := MockSmartDraftProvider in
  let db0 := campaignDb StatusDraft in
  let db1 := (POST 2000 3 db0).2 in
  let db2 := (POST 5000 3 db1).2 in
  (∃ d, draftsOf 3 1 db2 = [d]
        ∧ upserted (draftsOf 3 1 db1) d (copyFor 5000 3 db1 ann))
  ∧ length (Db.emailDrafts db2) = 1%nat.
Proof.
  intros P db0 db1 db2.
  destruct (generate_drafts_rerun_in_place 2000 5000 3 db0 db1)
    as (_ & Hproc & _ & _ & Hlen).
  - by apply uniqueDrafts_empty.
  - apply NoDup_singleton.
  - apply NoDup_singleton.
  - reflexivity.
  - split; [|exact Hlen].
    apply (Hproc ann). by apply list_elem_of_singleton.
Defined.

End GenerateDraftsTwice.

(** ** The campaign status *)

Section CampaignStatusFacts.
Import Segments Db SegmentPreview SmartDraft.

Lemma statusOf_campaigns (id : Id) (db db' : Db.t) :
  Db.campaigns db = Db.campaigns db' → statusOf id db = statusOf id db'.
Proof. unfold statusOf, findCampaign. by intros ->. Qed.

Lemma statusOf_set_same (id : Id) (s : CampaignStatus) (db : Db.t) :
  is_Some (findCampaign id db) →
  statusOf id (setCampaignStatus id s db) = Some s.
Proof.
  intros [c Hc]. unfold statusOf, findCampaign, setCampaignStatus in *.
  cbn [Db.campaigns withCampaigns].
  rewrite findFirst_update_same, Hc; [reflexivity|].
  intros r Hr. exact Hr.
Qed.

Lemma statusOf_set_other (id other : Id) (s : CampaignStatus) (db : Db.t) :
  other ≠ id →
  statusOf other (setCampaignStatus id s db) = statusOf other db.
Proof.
  intros Hne. unfold statusOf, findCampaign, setCampaignStatus.
  cbn [Db.campaigns withCampaigns].
  rewrite findFirst_update_other; [reflexivity|].
  intros r Hr%bool_decide_eq_true. cbn.
  split; apply bool_decide_eq_false; congruence.
Qed.

Lemma findCampaign_campaigns (id : Id) (db db' : Db.t) :
  Db.campaigns db = Db.campaigns db' → findCampaign id db = findCampaign id db'.
Proof. unfold findCampaign. by intros ->. Qed.

Lemma draftLoop_frame `{SmartDraftProvider} (id : Id)
    (m : gmap Id (list Event.t)) (cs : list Customer.t) (db : Db.t) (n : nat) :
  let st := foldl (GenerateDraftsRoute.draftStep id m) (db, n) cs in
  st.2 = (n + length cs)%nat ∧ Db.campaigns st.1 = Db.campaigns db.
Proof.
  revert db n. induction cs as [|c cs IH]; intros db n; cbn [foldl].
  { cbn. split; [lia | done]. }
  destruct (GenerateDraftsRoute.draftFor m c) as [out sku] eqn:Hdraft.
  assert (Hstep : GenerateDraftsRoute.draftStep id m (db, n) c
    = (GenerateDraftsRoute.upsertDraft id (Customer.id c) out sku db, S n)).
  { unfold GenerateDraftsRoute.draftStep. by rewrite Hdraft. }
  rewrite Hstep.
  destruct (IH (GenerateDraftsRoute.upsertDraft id (Customer.id c) out sku db)
              (S n)) as [Hn Hc].
  split; [rewrite Hn; cbn; lia|].
  rewrite Hc. unfold GenerateDraftsRoute.upsertDraft.
  by destruct (upsert _ _ _ _).
Qed.

(** What a run of draft generation does to the campaigns. *)
Lemma generate_campaigns `{SmartDraftProvider} (now : Z) (id : Id)
    (db : Db.t) :
  let r := GenerateDraftsRoute.POST now id db in
  (targets now id db = [] → r.2 = db)
  ∧ (targets now id db ≠ [] →
       is_Some (findCampaign id db)
       ∧ Db.campaigns r.2
         = Db.campaigns (setCampaignStatus id StatusDrafted db)).
Proof.
  unfold GenerateDraftsRoute.POST, targets.
  destruct (findCampaign id db) as [campaign|] eqn:Hfind; [|done].
  destruct (validateSegmentDefinition _) as [definition|error]; [|done].
  destruct (evaluateSegment now definition db) as [preview|]; [|done].
  set (cs := customers preview).
  rewrite length_fmap. case_bool_decide as Hempty.
  { apply nil_length_inv in Hempty. by rewrite Hempty. }
  set (m := GenerateDraftsRoute.groupByCustomer _).
  destruct (draftLoop_frame id m cs db 0) as [Hn Hc].
  destruct (foldl _ _ cs) as [db1 draftedCount]. cbn [fst snd] in *.
  assert (Hpos : (0 <? draftedCount)%nat = true).
  { apply Nat.ltb_lt. destruct cs; [done | cbn in Hn; lia]. }
  rewrite Hpos. cbn [snd]. split; [by intros ->|].
  intros _. split; [eauto|].
  unfold setCampaignStatus. cbn. by rewrite Hc.
Qed.

Lemma sendLoop_frame (now : Z) (id : Id) (drafts : list EmailDraft.t)
    (db : Db.t) (sent : nat) :
  ∃ db', foldl (SendRoute.sendStep now id) (db, sent, 0%nat) drafts
         = (db', (sent + length drafts)%nat, 0%nat)
         ∧ Db.campaigns db' = Db.campaigns db.
Proof.
  revert db sent. induction drafts as [|d drafts IH]; intros db sent.
  { exists db. cbn. split; [|done]. do 2 f_equal. lia. }
  cbn [foldl].
  assert (Hstep : SendRoute.sendStep now id (db, sent, 0%nat) d
    = (SendRoute.upsertSend id (EmailDraft.customerId d) SendSent
         (Some now) None false db, S sent, 0%nat)) by reflexivity.
  rewrite Hstep.
  destruct (IH (SendRoute.upsertSend id (EmailDraft.customerId d) SendSent
                  (Some now) None false db) (S sent)) as (db' & -> & Hc).
  exists db'. split; [do 2 f_equal; cbn; lia|].
  rewrite Hc. unfold SendRoute.upsertSend. by destruct (upsert _ _ _ _).
Qed.

(** What a send does to the campaigns. *)
Lemma send_campaigns (now : Z) (id : Id) (db : Db.t) :
  let r := SendRoute.POST now id db in
  ((findCampaign id db = None ∨ approvedDrafts id db = []) → r.2 = db)
  ∧ (is_Some (findCampaign id db) → approvedDrafts id db ≠ [] →
       r.1 = SendRoute.Json (length (approvedDrafts id db)) 0
       ∧ Db.campaigns r.2 = Db.campaigns (setCampaignStatus id StatusSent db)).
Proof.
  unfold SendRoute.POST. fold (approvedDrafts id db).
  destruct (findCampaign id db) as [campaign|] eqn:Hfind.
  2:{ split; [done|]. by intros [? ?]. }
  case_bool_decide as Hempty.
  { apply nil_length_inv in Hempty. split; [done|]. by intros _ ?. }
  destruct (sendLoop_frame now id (approvedDrafts id db) db 0)
    as (db' & -> & Hc).
  cbn. split.
  - intros [Hn|Hn]; [discriminate | by rewrite Hn in Hempty].
  - intros _ _. split; [done|]. unfold setCampaignStatus. cbn. by rewrite Hc.
Qed.

End CampaignStatusFacts.

Section CampaignStatusWritten.
Import Segments Db SegmentPreview SmartDraft.

(** What the two operations do to the status of a campaign: they write it
    without reading it.  A draft generation that processes at least one
    customer leaves the campaign in status [drafted] and a send with at
    least one approved draft leaves it in status [sent], whatever the status
    was before; a draft generation without a customer to process and a send
    without a campaign or an approved draft change nothing; the status of
    every other campaign is kept. *)
Lemma status_after_generation_and_send `{SmartDraftProvider}
    (now : Z) (id : Id) (db : Db.t) :
  let generated := (GenerateDraftsRoute.POST now id db).2 in
  let sent := (SendRoute.POST now id db).2 in
  (targets now id db ≠ [] → statusOf id generated = Some StatusDrafted)
  ∧ (targets now id db = [] → generated = db)
  ∧ (is_Some (findCampaign id db) → approvedDrafts id db ≠ [] →
       statusOf id sent = Some StatusSent)
  ∧ (findCampaign id db = None ∨ approvedDrafts id db = [] → sent = db)
  ∧ (∀ other, other ≠ id →
       statusOf other generated = statusOf other db
       ∧ statusOf other sent = statusOf other db).
Proof.
  intros generated sent.
  destruct (generate_campaigns now id db) as [Hidle Hrun].
  destruct (send_campaigns now id db) as [Hnone Hsend].
  fold generated in Hidle, Hrun. fold sent in Hnone, Hsend.
  split_and!.
  - intros Hcs. destruct (Hrun Hcs) as [Hsome Hc].
    rewrite (statusOf_campaigns _ _ _ Hc). by apply statusOf_set_same.
  - exact Hidle.
  - intros Hsome Hdrafts. destruct (Hsend Hsome Hdrafts) as [_ Hc].
    rewrite (statusOf_campaigns _ _ _ Hc). by apply statusOf_set_same.
  - exact Hnone.
  - intros other Hother. split.
    + destruct (decide (targets now id db = [])) as [Hcs|Hcs].
      * by rewrite (Hidle Hcs).
      * destruct (Hrun Hcs) as [_ Hc].
        rewrite (statusOf_campaigns _ _ _ Hc). by apply statusOf_set_other.
    + destruct (findCampaign id db) as [campaign|] eqn:Hfind;
        [|by rewrite Hnone by auto].
      destruct (decide (approvedDrafts id db = [])) as [Hdrafts|Hdrafts];
        [by rewrite Hnone by auto|].
      destruct Hsend as [_ Hc]; [eauto | done |].
      rewrite (statusOf_campaigns _ _ _ Hc). by apply statusOf_set_other.
Qed.

(** C3 fails in the code: the status of a campaign does not only move
    forward.  On a campaign in status [sent] whose segment matches one
    customer, draft generation run again is not refused: it answers with
    the number of drafts, 1, and leaves the campaign in status [drafted],
    which is a step backwards. *)
Theorem sent_campaign_returns_to_drafted :
  let db := campaignDb StatusSent in
  let run :=
    GenerateDraftsRoute.POST (H := MockSmartDraftProvider) 2000 3 db in
  statusOf 3 db = Some StatusSent
  ∧ run.1 = GenerateDraftsRoute.Json 1
  ∧ statusOf 3 run.2 = Some StatusDrafted
  ∧ ¬ forward StatusSent StatusDrafted.
Proof.
  split_and!; [reflexivity | reflexivity | reflexivity |].
  unfold forward. cbn. lia.
Qed.

End CampaignStatusWritten.

(** ** Event ingestion *)

Section EventsRouteFacts.
Import Db Utils EventsRoute.
Variable newDate : json → option Z.

Lemma upsertCustomer_spec (email : string) (db : Db.t) :
  let r := upsertCustomer email db in
  findFirst (λ c, bool_decide (Customer.email c = email)) (Db.customers r.2)
  = Some r.1
  ∧ Db.events r.2 = Db.events db
  ∧ (∃ added, Db.customers r.2 = Db.customers db ++ added)
  ∧ Db.campaigns r.2 = Db.campaigns db
  ∧ Db.emailDrafts r.2 = Db.emailDrafts db
  ∧ Db.sends r.2 = Db.sends db.
Proof.
  unfold upsertCustomer.
  destruct (findFirst _ (Db.customers db)) as [customer|] eqn:Hfind; cbn.
  - split_and!; try done. exists []. by rewrite app_nil_r.
  - split_and!; try done; [|eauto].
    rewrite findFirst_app, Hfind. cbn. by rewrite bool_decide_true.
Qed.

Lemma upsertCustomer_found (email : string) (customer : Customer.t)
    (db : Db.t) :
  findFirst (λ c, bool_decide (Customer.email c = email)) (Db.customers db)
  = Some customer →
  upsertCustomer email db = (customer, db).
Proof. intros Hfind. unfold upsertCustomer. by rewrite Hfind. Qed.

(** What [store] does without a key: the customer is resolved and one
    event is added. *)
Lemma store_without_key (a : Accepted) (db : Db.t) :
  let resolved := upsertCustomer (normalizedEmail a) db in
  let event :=
    eventOf (Db.nextId resolved.2) (Customer.id resolved.1) a None in
  store a None db
  = (Json 201 true (Event.id event) (Customer.id resolved.1),
     withEvents resolved.2 (Db.events db ++ [event]) (S (Db.nextId resolved.2))).
Proof.
  cbv zeta. unfold store.
  destruct (upsertCustomer_spec (normalizedEmail a) db) as (_ & Hev & _).
  destruct (upsertCustomer (normalizedEmail a) db) as [customer db1].
  cbn [fst snd] in *. unfold createEvent, eventOf. by rewrite Hev.
Qed.

(** C9: a request without the [Idempotency-Key] header (or with an empty
    one) that passes validation always stores a new event and answers
    [created: true] with status 201, whatever the database holds.  Sending
    the same request twice at the same instant stores two events that agree
    on customer, type, properties and time of occurrence. *)
Theorem POST_without_key_always_creates
    (now : Z) (request : Request) (b : json) (a : Accepted) (db : Db.t) :
  idempotencyKeyOf request = None →
  body request = Some b →
  validate newDate now b = inr a →
  let first := POST newDate now request db in
  let second := POST newDate now request first.2 in
  ∃ customerId eventId eventId',
    first.1 = Json 201 true eventId customerId
    ∧ Db.events first.2 = Db.events db ++ [eventOf eventId customerId a None]
    ∧ second.1 = Json 201 true eventId' customerId
    ∧ Db.events second.2
      = Db.events db ++ [eventOf eventId customerId a None;
                         eventOf eventId' customerId a None].
Proof.
  intros Hkey Hbody Hvalid first second.
  assert (Hpost : ∀ db', POST newDate now request db' = store a None db').
  { intros db'. unfold POST. rewrite Hbody, Hkey.
    destruct b; try (by rewrite Hvalid). discriminate. }
  subst first second. rewrite !Hpost, !store_without_key. cbn [fst snd].
  destruct (upsertCustomer_spec (normalizedEmail a) db)
    as (Hfind & _ & _).
  destruct (upsertCustomer (normalizedEmail a) db) as [customer db1].
  cbn [fst snd] in *.
  set (db2 := withEvents db1 _ _).
  assert (Hagain : upsertCustomer (normalizedEmail a) db2 = (customer, db2))
    by (by apply upsertCustomer_found).
  rewrite Hagain. cbn [fst snd].
  eexists _, _, _. split_and!; try reflexivity.
  subst db2. cbn. by rewrite <- app_assoc.
Qed.

Lemma extends_refl (db : Db.t) : extends db db.
Proof. split; exists []; by rewrite app_nil_r. Qed.

Lemma extends_trans (db1 db2 db3 : Db.t) :
  extends db1 db2 → extends db2 db3 → extends db1 db3.
Proof.
  intros [[c1 Hc1] [e1 He1]] [[c2 Hc2] [e2 He2]]. split.
  - exists (c1 ++ c2). by rewrite Hc2, Hc1, app_assoc.
  - exists (e1 ++ e2). by rewrite He2, He1, app_assoc.
Qed.

Create HintDb ingest discriminated.
#[local] Hint Resolve extends_refl extends_trans : ingest.

Lemma findFirst_extends {A} (P : A → bool) (rows added : list A) (r : A) :
  findFirst P rows = Some r → findFirst P (rows ++ added) = Some r.
Proof. intros Hr. by rewrite findFirst_app, Hr. Qed.

Lemma findByKey_head (c : Id) (k : string) (db : Db.t) :
  findByKey c k db = head (eventsWithKey c k db).
Proof.
  unfold findByKey, eventsWithKey. apply findFirst_head_filter.
  intros e. apply bool_decide_eq_true.
Qed.

Lemma customerByEmail_extends (email : string) (c : Customer.t)
    (db db' : Db.t) :
  extends db db' → customerByEmail email db = Some c →
  customerByEmail email db' = Some c.
Proof.
  intros [[added Hadd] _] Hc. unfold customerByEmail in *. rewrite Hadd.
  by apply findFirst_extends.
Qed.

Lemma findByKey_extends (c : Id) (k : string) (e : Event.t) (db db' : Db.t) :
  extends db db' → findByKey c k db = Some e → findByKey c k db' = Some e.
Proof.
  intros [_ [added Hadd]] He. unfold findByKey in *. rewrite Hadd.
  by apply findFirst_extends.
Qed.

Lemma eventsWithKey_events (c : Id) (k : string) (db db' : Db.t) :
  Db.events db = Db.events db' → eventsWithKey c k db = eventsWithKey c k db'.
Proof. unfold eventsWithKey. by intros ->. Qed.

Lemma uniqueEventKeys_events (db db' : Db.t) :
  Db.events db = Db.events db' → uniqueEventKeys db → uniqueEventKeys db'.
Proof.
  intros Hev Huniq c k. rewrite <- (eventsWithKey_events c k db db' Hev).
  apply Huniq.
Qed.

(** The handler after validation: the customer of the email is resolved,
    the response names that customer and an event stored under the key
    when there is one, and the unique constraint is kept. *)
Lemma store_spec (a : Accepted) (key : option string) (db : Db.t) :
  uniqueEventKeys db →
  let r := store a key db in
  uniqueEventKeys r.2
  ∧ extends db r.2
  ∧ ∃ customer status created eventId,
      r.1 = Json status created eventId (Customer.id customer)
      ∧ customerByEmail (normalizedEmail a) r.2 = Some customer
      ∧ ∀ k, key = Some k →
          ∃ e, findByKey (Customer.id customer) k r.2 = Some e
               ∧ Event.id e = eventId.
Proof.
  intros Huniq. unfold store.
  destruct (upsertCustomer_spec (normalizedEmail a) db)
    as (Hfind & Hev & Hcust & _).
  destruct (upsertCustomer (normalizedEmail a) db) as [customer db1].
  cbn [fst snd] in *.
  assert (Huniq1 : uniqueEventKeys db1)
    by (by apply (uniqueEventKeys_events db)).
  assert (Hext1 : extends db db1).
  { split; [done|]. exists []. by rewrite app_nil_r. }
  set (existing := match key with
                   | Some k => findByKey (Customer.id customer) k db1
                   | None => None
                   end).
  destruct existing as [e|] eqn:Hexisting; subst existing; cbn [fst snd].
  { split_and!; [done | done |].
    exists customer, 200%nat, false, (Event.id e). split_and!; [done | done |].
    intros k ->. eauto. }
  unfold createEvent. cbn [fst snd].
  set (event := {| Event.id := nextId db1 |}).
  set (db2 := withEvents db1 _ _).
  split_and!.
  - intros c k. unfold eventsWithKey. cbn.
    rewrite filter_app, length_app, filter_cons, filter_nil.
    fold (eventsWithKey c k db1).
    destruct (decide (Event.customerId event = c
                      ∧ Event.idempotencyKey event = Some k)) as [[<- Hk]|_].
    + cbn in Hk. subst key. rewrite findByKey_head in Hexisting.
      destruct (eventsWithKey _ k db1); [cbn; lia | discriminate].
    + cbn. specialize (Huniq1 c k). lia.
  - eapply extends_trans; [exact Hext1|].
    split; [exists []; by rewrite app_nil_r | by exists [event]].
  - exists customer, 201%nat, true, (Event.id event).
    split_and!; [done | done |].
    intros k ->. exists event. split; [|done].
    unfold findByKey in *. cbn. rewrite findFirst_app, Hexisting. cbn.
    by rewrite bool_decide_true.
Qed.

Lemma POST_spec_any (now : Z) (request : Request) (db : Db.t) :
  uniqueEventKeys db →
  uniqueEventKeys (POST newDate now request db).2
  ∧ extends db (POST newDate now request db).2.
Proof.
  intros Huniq. unfold POST.
  destruct (body request) as [b|]; [|split; auto with ingest].
  assert (Hrun :
    match validate newDate now b with
    | inl error => (error, db)
    | inr a => store a (idempotencyKeyOf request) db
    end.2 = db
    ∨ ∃ a, match validate newDate now b with
           | inl error => (error, db)
           | inr a => store a (idempotencyKeyOf request) db
           end = store a (idempotencyKeyOf request) db).
  { destruct (validate newDate now b); eauto. }
  destruct b; try (split; by auto with ingest);
    (destruct Hrun as [-> | [a ->]];
     [split; by auto with ingest
     | destruct (store_spec a (idempotencyKeyOf request) db Huniq)
         as (? & ? & _); done]).
Qed.

Lemma ingestAll_spec (requests : list (Z * Request)) (db : Db.t) :
  uniqueEventKeys db →
  uniqueEventKeys (ingestAll newDate requests db)
  ∧ extends db (ingestAll newDate requests db).
Proof.
  revert db. induction requests as [|r requests IH]; intros db Huniq.
  { split; auto with ingest. }
  unfold ingestAll. cbn [foldl]. fold (ingestAll newDate requests).
  destruct (POST_spec_any r.1 r.2 db Huniq) as [Huniq1 Hext1].
  destruct (IH _ Huniq1) as [Huniq2 Hext2].
  split; eauto with ingest.
Qed.

Lemma POST_accepted (now : Z) (request : Request) (b : json) (a : Accepted)
    (db : Db.t) :
  body request = Some b → validate newDate now b = inr a →
  POST newDate now request db = store a (idempotencyKeyOf request) db.
Proof.
  intros Hbody Hvalid. unfold POST. rewrite Hbody.
  destruct b; try (by rewrite Hvalid). discriminate.
Qed.

(** C6: two accepted requests that carry the same idempotency key and
    resolve to the same customer (the same normalized email), with any
    ingestion requests between them, on a database that satisfies the unique
    constraint: the second request answers [created: false] with status 200
    and the event id and customer id of the first answer, stores nothing,
    and exactly one event, the one of that id, is stored for the pair
    (customer, key). *)
Theorem POST_same_key_is_absorbed
    (now1 now2 : Z) (request1 request2 : Request) (b1 b2 : json)
    (a1 a2 : Accepted) (key : string) (between : list (Z * Request))
    (db : Db.t) :
  uniqueEventKeys db →
  idempotencyKeyOf request1 = Some key →
  idempotencyKeyOf request2 = Some key →
  body request1 = Some b1 → validate newDate now1 b1 = inr a1 →
  body request2 = Some b2 → validate newDate now2 b2 = inr a2 →
  normalizedEmail a1 = normalizedEmail a2 →
  let first := POST newDate now1 request1 db in
  let db' := ingestAll newDate between first.2 in
  let second := POST newDate now2 request2 db' in
  ∃ status created eventId customerId e,
    first.1 = Json status created eventId customerId
    ∧ second.1 = Json 200 false eventId customerId
    ∧ second.2 = db'
    ∧ eventsWithKey customerId key second.2 = [e]
    ∧ Event.id e = eventId.
Proof.
  intros Huniq Hkey1 Hkey2 Hbody1 Hvalid1 Hbody2 Hvalid2 Hemail
    first db' second.
  assert (Hfirst : first = store a1 (Some key) db).
  { subst first. by rewrite (POST_accepted now1 request1 b1 a1), Hkey1. }
  assert (Hsecond : second = store a2 (Some key) db').
  { subst second. by rewrite (POST_accepted now2 request2 b2 a2), Hkey2. }
  destruct (store_spec a1 (Some key) db Huniq)
    as (Huniq1 & _ & customer & status & created & eventId & Hresp & Hcust & He).
  destruct (He key eq_refl) as (e & Hfound & Hid).
  rewrite <- Hfirst in Huniq1, Hresp, Hcust, Hfound.
  destruct (ingestAll_spec between _ Huniq1) as [Huniq' Hext].
  fold db' in Huniq', Hext.
  pose proof (customerByEmail_extends _ _ _ _ Hext Hcust) as Hcust'.
  pose proof (findByKey_extends _ _ _ _ _ Hext Hfound) as Hfound'.
  clearbody second db' first. subst second.
  exists status, created, eventId, (Customer.id customer), e.
  unfold store. rewrite <- Hemail.
  rewrite (upsertCustomer_found _ _ _ Hcust'), Hfound'. cbn [fst snd].
  split_and!; [done | by rewrite Hid | done | | done].
  rewrite findByKey_head in Hfound'. specialize (Huniq' (Customer.id customer) key).
  destruct (eventsWithKey (Customer.id customer) key db') as [|e' [|? ?]];
    [discriminate | by injection Hfound' as -> | cbn in Huniq'; lia].
Qed.

End EventsRouteFacts.

Section EventsWitnesses.
Import Db Utils EventsRoute.

Lemma uniqueEventKeys_empty : uniqueEventKeys emptyDb.
Proof. intros c k. cbn. lia. Qed.

Lemma POST_same_key_is_absorbed_witness :
  let first := POST noDate 7000 (viewRequest (Some "k-1")) emptyDb in
  let db' := ingestAll noDate [(7500, viewRequest None)] first.2 in
  let second := POST noDate 8000 (viewRequest (Some "k-1")) db' in
  ∃ status created eventId customerId e,
    first.1 = Json status created eventId customerId
    ∧ second.1 = Json 200 false eventId customerId
    ∧ second.2 = db'
    ∧ eventsWithKey customerId "k-1" second.2 = [e]
    ∧ Event.id e = eventId.
Proof.
  apply (POST_same_key_is_absorbed noDate 7000 8000
           (viewRequest (Some "k-1")) (viewRequest (Some "k-1"))
           (JObj [("email", JStr " Ann@Example.com ");
                  ("type", JStr "page_view")])
           (JObj [("email", JStr " Ann@Example.com ");
                  ("type", JStr "page_view")])
           (viewAccepted 7000) (viewAccepted 8000) "k-1"
           [(7500, viewRequest None)] emptyDb);
    [apply uniqueEventKeys_empty | reflexivity..].
Defined.

Lemma POST_without_key_always_creates_witness :
  let first := POST noDate 7000 (viewRequest None) emptyDb in
  let second := POST noDate 7000 (viewRequest None) first.2 in
  ∃ customerId eventId eventId',
    first.1 = Json 201 true eventId customerId
    ∧ Db.events first.2
      = [eventOf eventId customerId (viewAccepted 7000) None]
    ∧ second.1 = Json 201 true eventId' customerId
    ∧ Db.events second.2
      = [eventOf eventId customerId (viewAccepted 7000) None;
         eventOf eventId' customerId (viewAccepted 7000) None].
Proof.
  apply (POST_without_key_always_creates noDate 7000 (viewRequest None)
           (JObj [("email", JStr " Ann@Example.com ");
                  ("type", JStr "page_view")])
           (viewAccepted 7000) emptyDb); reflexivity.
Defined.

End EventsWitnesses.

(** ** Draft generation and the preview limit *)

Section PreviewLimit.
Import Segments Db SegmentPreview SmartDraft.


(** On every database a run reports at most [PREVIEW_LIMIT] drafts. *)
Lemma draftedCount_at_most_preview_limit `{SmartDraftProvider}
    (now : Z) (id : Id) (db : Db.t) (n : nat) :
  (GenerateDraftsRoute.POST now id db).1 = GenerateDraftsRoute.Json n →
  (n ≤ PREVIEW_LIMIT)%nat.
Proof.
  unfold GenerateDraftsRoute.POST.
  destruct (findCampaign id db) as [campaign|]; [|discriminate].
  destruct (validateSegmentDefinition _) as [definition|error]; [|discriminate].
  destruct (evaluateSegment now definition db) as [preview|] eqn:Hpreview;
    [|discriminate].
  rewrite length_fmap. case_bool_decide as Hempty.
  { intros [= <-]. unfold PREVIEW_LIMIT. lia. }
  set (m := GenerateDraftsRoute.groupByCustomer _).
  destruct (draftLoop_frame id m (customers preview) db 0) as [Hn _].
  destruct (foldl _ _ _) as [db1 draftedCount]. cbn [fst snd] in *.
  intros [= <-]. rewrite Hn.
  apply matching_ids in Hpreview as (ids & _ & _ & ->).
  destruct (fetchCustomers_spec ids db) as (_ & Hlen & _). lia.
Qed.

(** C1 on a segment of 51 customers: the snapshot is valid, each of the 51
    customers matches it and the evaluator counts 51, yet the run reports 50
    drafts, stores 50, and the matching customer whose email sorts last
    (id 51) has no draft. *)
Theorem generate_drafts_stops_at_preview_limit :
  let run :=
    GenerateDraftsRoute.POST (H := MockSmartDraftProvider) 2000 200 crowdDb in
  validateSegmentDefinition pageViewSnapshot = Valid pageViewSegment
  ∧ (∀ n, (1 ≤ n ≤ 51)%nat → matches 2000 pageViewSegment crowdDb n)
  ∧ count <$> evaluateSegment 2000 pageViewSegment crowdDb = Some 51%nat
  ∧ run.1 = GenerateDraftsRoute.Json 50
  ∧ length (Db.emailDrafts run.2) = 50%nat
  ∧ draftsOf 200 51 run.2 = [].
Proof.
  split_and!; [reflexivity | | by vm_compute..].
  intros n Hn. exists (crowdEvent n). unfold eventsInWindow.
  apply list_elem_of_filter. split.
  - split; [reflexivity|]. split; [reflexivity|]. by vm_compute.
  - cbn [Db.events crowdDb]. apply list_elem_of_fmap_2, elem_of_seq. lia.
Qed.

End PreviewLimit.

(* ================================================================== *)
(** * Part IV: further properties of the code                          *)
(* ================================================================== *)

(** ** More on texts *)

Section MoreStringFacts.

Lemma trimStart_id (l : list ascii) :
  (∀ c, head l = Some c → isWhiteSpace c = false) → trimStart l = l.
Proof.
  destruct l as [|a l]; [reflexivity|]. intros Ha. cbn.
  by rewrite (Ha a eq_refl).
Qed.

Lemma trimEnd_id (l : list ascii) :
  (∀ c, last l = Some c → isWhiteSpace c = false) → trimEnd l = l.
Proof.
  intros Hl. unfold trimEnd. rewrite trimStart_id.
  - apply reverse_involutive.
  - intros c. rewrite head_reverse. apply Hl.
Qed.

Lemma trim_of_trimmed (s : string) : trimmed s → trim s = s.
Proof.
  intros [Hhead Hlast]. unfold trim.
  rewrite trimStart_id, trimEnd_id by done. apply str_chars.
Qed.

Lemma trim_idempotent (s : string) : trim (trim s) = trim s.
Proof. apply trim_of_trimmed, trim_trimmed. Qed.

Lemma lowerChar_isWhiteSpace (c : ascii) :
  isWhiteSpace (lowerChar c) = isWhiteSpace c.
Proof. by destruct c as [[] [] [] [] [] [] [] []]. Qed.

Lemma lowerChar_idempotent (c : ascii) : lowerChar (lowerChar c) = lowerChar c.
Proof. by destruct c as [[] [] [] [] [] [] [] []]. Qed.

Lemma trimStart_lower (l : list ascii) :
  trimStart (lowerChar <$> l) = lowerChar <$> trimStart l.
Proof.
  induction l as [|c l IH]; [reflexivity|]. cbn.
  rewrite lowerChar_isWhiteSpace. by destruct (isWhiteSpace c).
Qed.

Lemma trimEnd_lower (l : list ascii) :
  trimEnd (lowerChar <$> l) = lowerChar <$> trimEnd l.
Proof.
  unfold trimEnd. by rewrite <- fmap_reverse, trimStart_lower, fmap_reverse.
Qed.

Lemma trim_toLowerCase (s : string) :
  trim (toLowerCase s) = toLowerCase (trim s).
Proof.
  unfold trim, toLowerCase. rewrite !chars_str.
  by rewrite trimStart_lower, trimEnd_lower.
Qed.

Lemma toLowerCase_idempotent (s : string) :
  toLowerCase (toLowerCase s) = toLowerCase s.
Proof.
  unfold toLowerCase. rewrite chars_str, <- list_fmap_compose. f_equal.
  apply list_fmap_ext. intros _ c _. apply lowerChar_idempotent.
Qed.



End MoreStringFacts.


(** ** lib/utils.ts *)

Section UtilsFacts.
Import Utils.


(** X2: [isValidEmail] accepts exactly the texts of the form
    local@domain.tld in which the three parts are non-empty and contain
    neither white space nor an at sign (the domain part may itself contain
    dots).  So an accepted email has exactly one at sign and no white
    space. *)
Theorem isValidEmail_shape (email : string) :
  isValidEmail email = true
  ↔ ∃ localPart domain tld,
      chars email = localPart ++ "@"%char :: domain ++ "."%char :: tld
      ∧ plainText localPart ∧ plainText domain ∧ plainText tld.
Proof.
  unfold isValidEmail, emailRegex, plainText.
  rewrite bool_decide_eq_true. cbn [Regex.seq]. rewrite rmatch_seq. split.
  - intros [[] Hmatch].
    apply rmatch_plus_cls_inv in Hmatch as (l1 & s1 & -> & ? & ? & Hmatch).
    rewrite rmatch_seq in Hmatch.
    apply rmatch_chr_inv in Hmatch as (s2 & -> & Hmatch).
    rewrite rmatch_seq in Hmatch.
    apply rmatch_plus_cls_inv in Hmatch as (l2 & s3 & -> & ? & ? & Hmatch).
    rewrite rmatch_seq in Hmatch.
    apply rmatch_chr_inv in Hmatch as (s4 & -> & Hmatch).
    apply rmatch_plus_cls_inv in Hmatch as (l3 & rest & -> & ? & ? & Hend).
    destruct rest; [|discriminate]. rewrite app_nil_r.
    by exists l1, l2, l3.
  - intros (l1 & l2 & l3 & -> & [? ?] & [? ?] & [? ?]).
    apply rmatch_plus_cls_some; [done..|].
    rewrite rmatch_seq, rmatch_chr_cons, rmatch_seq.
    apply rmatch_plus_cls_some; [done..|].
    rewrite rmatch_seq, rmatch_chr_cons.
    rewrite <- (app_nil_r l3). by apply rmatch_plus_cls_some.
Qed.

End UtilsFacts.

(** ** lib/segments.ts: what is accepted *)

Section ValidatorAccepts.
Import Segments Store.

Lemma positiveInteger_inv (v : option json) (z : Z) :
  positiveInteger v = Some z →
  ∃ q, v = Some (JNum q) ∧ 0 < z ∧ Qnum q = z * Z.pos (Qden q).
Proof.
  destruct v as [[| |q| | |]|]; try discriminate. cbn.
  destruct (isInteger q) eqn:Hint; [|discriminate].
  destruct (nonPositive q) eqn:Hpos; [discriminate|]. cbn.
  intros [= <-]. exists q. unfold isInteger, nonPositive, toInteger in *.
  apply Z.eqb_eq in Hint. apply Z.leb_gt in Hpos.
  pose proof (Z.div_mod (Qnum q) (Z.pos (Qden q))) as Hdiv.
  split_and!; [done | | lia].
  apply Z.div_str_pos. split; [lia|].
  destruct (Z.le_gt_cases (Z.pos (Qden q)) (Qnum q)) as [|Hlt]; [done|].
  rewrite Z.mod_small in Hint by lia. lia.
Qed.

Lemma positiveInteger_whole (z : Z) :
  0 < z → positiveInteger (Some (JNum (Qmake z 1))) = Some z.
Proof.
  intros Hz. cbn. unfold isInteger, nonPositive, toInteger. cbn.
  rewrite Z.mod_1_r, Z.div_1_r. cbn.
  destruct (Z.leb_spec z 0); [lia | done].
Qed.

Lemma nonEmptyString_trimmed (t : string) :
  trimmed t → t ≠ "" → nonEmptyString (Some (JStr t)) = Some t.
Proof.
  intros Ht%trim_of_trimmed Hne. cbn. rewrite Ht.
  by destruct (String.eqb_spec t "").
Qed.

(** The checks behind an accepted definition, variant by variant. *)
Lemma validateSegmentDefinition_inv (input : json) (d : SegmentDefinition) :
  validateSegmentDefinition input = Valid d →
  get input "kind" = Some (JStr (kindName d))
  ∧ match d with
    | EventTypeInLastDays eventType days =>
        nonEmptyString (get input "eventType") = Some eventType
        ∧ positiveInteger (get input "days") = Some days
    | EventPropertyEquals eventType path value days =>
        nonEmptyString (get input "eventType") = Some eventType
        ∧ nonEmptyString (get input "path") = Some path
        ∧ get input "value" = Some (JStr value)
        ∧ positiveInteger (get input "days") = Some days
    | EventCountGteInLastDays eventType days minCount =>
        nonEmptyString (get input "eventType") = Some eventType
        ∧ positiveInteger (get input "days") = Some days
        ∧ positiveInteger (get input "minCount") = Some minCount
    end.
Proof.
  unfold validateSegmentDefinition.
  destruct input as [| | | | |fields]; try discriminate.
  destruct (get (JObj fields) "kind") as [[| | |kind| |]|]; try discriminate.
  destruct (String.eqb_spec kind "event_type_in_last_days") as [->|_].
  { unfold validateEventTypeInLastDays.
    destruct (nonEmptyString _) as [t|]; [|discriminate].
    destruct (positiveInteger _) as [n|]; [|discriminate].
    by intros [= <-]. }
  destruct (String.eqb_spec kind "event_property_equals") as [->|_].
  { unfold validateEventPropertyEquals.
    destruct (nonEmptyString (get _ "eventType")) as [t|]; [|discriminate].
    destruct (nonEmptyString (get _ "path")) as [p|]; [|discriminate].
    destruct (get _ "value") as [[| | |v| |]|]; try discriminate.
    destruct (positiveInteger _) as [n|]; [|discriminate].
    by intros [= <-]. }
  destruct (String.eqb_spec kind "event_count_gte_in_last_days") as [->|_];
    [|discriminate].
  unfold validateEventCountGteInLastDays.
  destruct (nonEmptyString _) as [t|]; [|discriminate].
  destruct (positiveInteger (get _ "days")) as [n|]; [|discriminate].
  destruct (positiveInteger (get _ "minCount")) as [m|]; [|discriminate].
  by intros [= <-].
Qed.

(** X3: the variant of an accepted definition is the one that the input's
    [kind] names, and its [days] (and [minCount], for the count variant) is
    a positive integer, the one that the input's number denotes. *)
Theorem validateSegmentDefinition_kind_and_numbers
    (input : json) (d : SegmentDefinition) :
  validateSegmentDefinition input = Valid d →
  get input "kind" = Some (JStr (kindName d))
  ∧ positiveFrom input "days" (days d)
  ∧ match d with
    | EventCountGteInLastDays _ _ minCount =>
        positiveFrom input "minCount" minCount
    | _ => True
    end.
Proof.
  intros [Hkind Hfields]%validateSegmentDefinition_inv.
  split; [done|]. unfold positiveFrom.
  destruct d; cbn [days]; destruct_and!;
    split; auto using positiveInteger_inv.
Qed.

Lemma validateSegmentDefinition_kind_and_numbers_witness :
  get paddedValueInput "kind" = Some (JStr "event_property_equals")
  ∧ positiveFrom paddedValueInput "days" 7
  ∧ True.
Proof.
  apply (validateSegmentDefinition_kind_and_numbers paddedValueInput
           (EventPropertyEquals "purchase" "sku" " A " 7)).
  reflexivity.
Defined.

(** An accepted definition is well formed. *)
Lemma accepted_wellFormed (input : json) (d : SegmentDefinition) :
  validateSegmentDefinition input = Valid d → wellFormed d.
Proof.
  intros [_ Hfields]%validateSegmentDefinition_inv.
  assert (Htext : ∀ v t, nonEmptyString v = Some t → trimmed t ∧ t ≠ "").
  { intros v t (raw & _ & -> & Hne)%nonEmptyString_inv.
    split; [apply trim_trimmed | done]. }
  assert (Hnumber : ∀ v z, positiveInteger v = Some z → 0 < z).
  { by intros v z (q & _ & Hz & _)%positiveInteger_inv. }
  unfold wellFormed.
  destruct d as [t n | t p v n | t n m]; cbn [eventType days];
    destruct_and!;
    repeat match goal with
           | H : nonEmptyString _ = Some _ |- _ => apply Htext in H as [? ?]
           | H : positiveInteger _ = Some _ |- _ => apply Hnumber in H
           end; split_and!; done.
Qed.

(** A well-formed definition, stored as JSON, is accepted as itself. *)
Lemma wellFormed_stored (d : SegmentDefinition) :
  wellFormed d → validateSegmentDefinition (definitionJson d) = Valid d.
Proof.
  intros (Htrimmed & Hne & Hdays & Hrest).
  destruct d as [t n | t p v n | t n m]; cbn [eventType days] in *.
  - change (validateSegmentDefinition _)
      with (validateEventTypeInLastDays
              (definitionJson (EventTypeInLastDays t n))).
    unfold validateEventTypeInLastDays.
    change (get _ "eventType") with (Some (JStr t)).
    change (get _ "days") with (Some (JNum (Qmake n 1))).
    by rewrite nonEmptyString_trimmed, positiveInteger_whole.
  - destruct Hrest as [Hpath Hpne].
    change (validateSegmentDefinition _)
      with (validateEventPropertyEquals
              (definitionJson (EventPropertyEquals t p v n))).
    unfold validateEventPropertyEquals.
    change (get _ "eventType") with (Some (JStr t)).
    change (get _ "path") with (Some (JStr p)).
    change (get _ "value") with (Some (JStr v)).
    change (get _ "days") with (Some (JNum (Qmake n 1))).
    by rewrite !nonEmptyString_trimmed, positiveInteger_whole.
  - change (validateSegmentDefinition _)
      with (validateEventCountGteInLastDays
              (definitionJson (EventCountGteInLastDays t n m))).
    unfold validateEventCountGteInLastDays.
    change (get _ "eventType") with (Some (JStr t)).
    change (get _ "days") with (Some (JNum (Qmake n 1))).
    change (get _ "minCount") with (Some (JNum (Qmake m 1))).
    by rewrite nonEmptyString_trimmed, !positiveInteger_whole.
Qed.

(** X4: validation is idempotent through the stored form: the object
    returned for an accepted input is well formed and, stored as JSON and
    validated again (as the preview and the draft generation do with what
    the segment route stored), is accepted and gives the same
    definition. *)
Theorem validateSegmentDefinition_round_trip
    (input : json) (d : SegmentDefinition) :
  validateSegmentDefinition input = Valid d →
  wellFormed d ∧ validateSegmentDefinition (definitionJson d) = Valid d.
Proof.
  intros Hd%accepted_wellFormed. split; [done | by apply wellFormed_stored].
Qed.

Lemma validateSegmentDefinition_round_trip_witness :
  wellFormed (EventPropertyEquals "purchase" "sku" " A " 7)
  ∧ validateSegmentDefinition
      (definitionJson (EventPropertyEquals "purchase" "sku" " A " 7))
    = Valid (EventPropertyEquals "purchase" "sku" " A " 7).
Proof.
  apply (validateSegmentDefinition_round_trip paddedValueInput). reflexivity.
Defined.

End ValidatorAccepts.

(** ** lib/campaignUtils.ts and the grouping of recent events *)

Section DraftInputs.
Import Db CampaignUtils GenerateDraftsRoute.

Lemma hasSku_dec (e : Event.t) :
  (∃ sku, hasSku e sku
          ∧ get (Event.properties e) "sku" ≫= (λ v,
              match v with
              | JStr raw => if String.eqb (trim raw) "" then None
                            else Some (trim raw)
              | _ => None
              end) = Some sku)
  ∨ (∀ sku, ¬ hasSku e sku).
Proof.
  unfold hasSku.
  destruct (get (Event.properties e) "sku") as [[| | |raw| |]|] eqn:Hget;
    try (right; intros sku (? & [=] & _); done).
  cbn. destruct (String.eqb_spec (trim raw) "") as [Hempty|Hne].
  - right. intros sku (raw' & [= <-] & -> & Hsku). done.
  - left. exists (trim raw). split; [|done]. by exists raw.
Qed.

(** X5: the recommended SKU is the trimmed, non-empty SKU of the first
    event of the list that carries one, and there is none exactly when no
    event of the list carries one. *)
Theorem extractRecommendedSku_first_with_sku (events : list Event.t) :
  (∀ sku, extractRecommendedSku events = Some sku
     ↔ ∃ before e after,
         events = before ++ e :: after
         ∧ hasSku e sku
         ∧ ∀ e', e' ∈ before → ∀ sku', ¬ hasSku e' sku')
  ∧ (extractRecommendedSku events = None
     ↔ ∀ e, e ∈ events → ∀ sku, ¬ hasSku e sku)
  ∧ (∀ sku, extractRecommendedSku events = Some sku →
       trimmed sku ∧ sku ≠ "").
Proof.
  assert (Hstep : ∀ e rest,
    extractRecommendedSku (e :: rest)
    = match get (Event.properties e) "sku" ≫= (λ v,
              match v with
              | JStr raw => if String.eqb (trim raw) "" then None
                            else Some (trim raw)
              | _ => None
              end) with
      | Some sku => Some sku
      | None => extractRecommendedSku rest
      end).
  { intros e rest. cbn [extractRecommendedSku].
    destruct (get (Event.properties e) "sku") as [[| | |raw| |]|]; cbn;
      try done. by destruct (String.eqb (trim raw) ""). }
  assert (Hfirst : ∀ sku, extractRecommendedSku events = Some sku
     ↔ ∃ before e after,
         events = before ++ e :: after
         ∧ hasSku e sku
         ∧ ∀ e', e' ∈ before → ∀ sku', ¬ hasSku e' sku').
  { induction events as [|e rest IH]; intros sku.
    { split; [discriminate|]. intros ([|??] & ? & ? & [=] & _). }
    rewrite Hstep. destruct (hasSku_dec e) as [(s & Hs & ->)|Hnone].
    - split.
      + intros [= <-]. exists [], e, rest. split_and!; [done | done |].
        intros e' Hin. by apply elem_of_nil in Hin.
      + intros ([|e0 before] & e1 & after & [= <- Hrest] & Hsku & Hbefore).
        * destruct Hs as (raw & Hraw & -> & _).
          destruct Hsku as (raw' & Hraw' & -> & _). congruence.
        * exfalso. eapply Hbefore; [by apply elem_of_cons; left | exact Hs].
    - assert (Hget : get (Event.properties e) "sku" ≫= (λ v,
              match v with
              | JStr raw => if String.eqb (trim raw) "" then None
                            else Some (trim raw)
              | _ => None
              end) = None).
      { destruct (get (Event.properties e) "sku") as [[| | |raw| |]|] eqn:Hg;
          cbn; try done.
        destruct (String.eqb_spec (trim raw) "") as [|Hne]; [done|].
        exfalso. apply (Hnone (trim raw)). by exists raw. }
      rewrite Hget, IH. split.
      + intros (before & e1 & after & -> & Hsku & Hbefore).
        exists (e :: before), e1, after. split_and!; [done | done |].
        intros e' [->|Hin]%elem_of_cons; [apply Hnone | by apply Hbefore].
      + intros ([|e0 before] & e1 & after & [= <- Hrest] & Hsku & Hbefore).
        * exfalso. by eapply Hnone.
        * exists before, e1, after. split_and!; [done | done |].
          intros e' Hin. apply Hbefore. by apply elem_of_cons; right. }
  split_and!; [exact Hfirst | |].
  - split.
    + intros Hnone e Hin sku Hsku.
      apply list_elem_of_split in Hin as (l1 & l2 & ->).
      clear Hfirst. induction l1 as [|e0 l1 IH].
      * cbn [app] in Hnone. rewrite Hstep in Hnone.
        destruct (hasSku_dec e) as [(s & _ & Hs)|Hno];
          [by rewrite Hs in Hnone | by eapply Hno].
      * apply IH. cbn [app] in Hnone. rewrite Hstep in Hnone.
        by destruct (_ ≫= _).
    + intros Hnone. destruct (extractRecommendedSku events) as [sku|] eqn:Hsku;
        [|done].
      destruct (proj1 (Hfirst sku) eq_refl)
        as (before & e & after & -> & Hcarries & _).
      exfalso. eapply Hnone; [|exact Hcarries].
      apply elem_of_app. right. apply elem_of_cons. by left.
  - intros sku (_ & e & _ & _ & (raw & _ & -> & Hne) & _)%Hfirst.
    split; [apply trim_trimmed | done].
Qed.

Lemma groupByCustomer_snoc (l : list Event.t) (e : Event.t) :
  groupByCustomer (l ++ [e])
  = <[Event.customerId e :=
        default [] (groupByCustomer l !! Event.customerId e) ++ [e]]>
      (groupByCustomer l).
Proof.
  unfold groupByCustomer. rewrite foldl_app. cbn [foldl].
  set (m := foldl _ ∅ l).
  destruct (m !! Event.customerId e) as [es|] eqn:Hm.
  - by rewrite Hm.
  - rewrite lookup_insert_eq. cbn. by rewrite insert_insert_eq.
Qed.

(** The entry of a customer in the grouping. *)
Lemma groupByCustomer_filter (recentEvents : list Event.t) (c : Id) :
  groupByCustomer recentEvents !! c
  = match filter (λ e, Event.customerId e = c) recentEvents with
    | [] => None
    | events => Some events
    end.
Proof.
  induction recentEvents as [|e l IH] using rev_ind; [done|].
  rewrite groupByCustomer_snoc, filter_app, filter_cons, filter_nil.
  destruct (decide (Event.customerId e = c)) as [->|Hne].
  - rewrite lookup_insert_eq, IH.
    by destruct (filter _ l).
  - rewrite lookup_insert_ne, IH, app_nil_r by done. done.
Qed.

(** X6: the grouping has an entry exactly for the customers with an event
    in the list, and the entry of a customer holds that customer's events,
    all of them, in the order of the list. *)
Theorem groupByCustomer_lookup (recentEvents : list Event.t) (c : Id) :
  (groupByCustomer recentEvents !! c = None
   ↔ ∀ e, e ∈ recentEvents → Event.customerId e ≠ c)
  ∧ ∀ events,
      groupByCustomer recentEvents !! c = Some events →
      events = filter (λ e, Event.customerId e = c) recentEvents
      ∧ events ≠ [].
Proof.
  rewrite groupByCustomer_filter. split.
  - split.
    + intros Hnone e He Hc.
      assert (Hin : e ∈ filter (λ e, Event.customerId e = c) recentEvents)
        by (by apply list_elem_of_filter).
      destruct (filter _ recentEvents); [|discriminate].
      by apply elem_of_nil in Hin.
    + intros Hnone.
      destruct (filter _ recentEvents) as [|e l] eqn:Hfilter; [done|].
      assert (Hin : e ∈ filter (λ e, Event.customerId e = c) recentEvents)
        by (rewrite Hfilter; apply elem_of_cons; by left).
      apply list_elem_of_filter in Hin as [Hc He]. by destruct (Hnone e He).
  - intros events Hevents.
    destruct (filter _ recentEvents) as [|e l]; [discriminate|].
    by injection Hevents as <-.
Qed.

#[local] Instance newerFirst_trans : Transitive newerFirst.
Proof. intros a b c. unfold newerFirst. lia. Qed.

#[local] Instance newerFirst_total : Total newerFirst.
Proof. intros a b. unfold newerFirst. lia. Qed.

Lemma StronglySorted_filter {A} (R : relation A) (P : A → Prop)
    `{∀ x, Decision (P x)} (l : list A) :
  StronglySorted R l → StronglySorted R (filter P l).
Proof.
  induction 1 as [|x l Hl IH Hx]; [constructor|].
  rewrite filter_cons. destruct (decide (P x)); [|done].
  constructor; [done|]. apply Forall_forall. intros y [_ Hy]%list_elem_of_filter.
  by eapply Forall_forall in Hx.
Qed.

(** The events from which the draft of a customer is written. *)
Lemma draft_events (now : Z) (customerIds : list Id) (db : Db.t) (c : Id) :
  c ∈ customerIds →
  let events :=
    default [] (groupByCustomer (recentEventsOf now customerIds db) !! c) in
  events ≡ₚ eventsSince (now - THIRTY_DAYS_MS) c db
  ∧ StronglySorted newerFirst events.
Proof.
  intros Hc events.
  assert (Hevents : events
    = filter (λ e, Event.customerId e = c)
        (recentEventsOf now customerIds db)).
  { subst events. rewrite groupByCustomer_filter. by destruct (filter _ _). }
  split.
  - rewrite Hevents. unfold recentEventsOf, eventsSince.
    rewrite merge_sort_Permutation, list_filter_filter.
    erewrite list_filter_iff; [done|]. intros e. cbn. split.
    + intros (-> & _ & Hat). done.
    + intros (-> & Hat). done.
  - rewrite Hevents. apply StronglySorted_filter.
    unfold recentEventsOf. apply (StronglySorted_merge_sort _).
Qed.

(** X7: what the provider is given for a targeted customer.  The draft of
    the customer is what the provider writes for an input that carries the
    email of the customer, the recommended SKU and the recent event type,
    both read from the customer's events of the last 30 days, each once,
    the newest first; the draft is stored with that SKU.  The input has no
    event type exactly when the customer has no event in that window;
    otherwise its event type is the type of an event of the window that no
    event of the customer in the window is newer than. *)
Theorem draft_events_recent_newest_first `{SmartDraft.SmartDraftProvider}
    (now : Z) (customerIds : list Id) (db : Db.t) (c : Customer.t) :
  Customer.id c ∈ customerIds →
  let window := eventsSince (now - THIRTY_DAYS_MS) (Customer.id c) db in
  ∃ events input,
    events ≡ₚ window
    ∧ StronglySorted newerFirst events
    ∧ draftFor (groupByCustomer (recentEventsOf now customerIds db)) c
      = (SmartDraft.generate input, extractRecommendedSku events)
    ∧ SmartDraft.customerEmail input = Customer.email c
    ∧ SmartDraft.recommendedSku input = Some (extractRecommendedSku events)
    ∧ (SmartDraft.recentEventType input = None ↔ window = [])
    ∧ (window ≠ [] →
         ∃ newest,
           newest ∈ window
           ∧ SmartDraft.recentEventType input = Some (Event.type newest)
           ∧ ∀ e, e ∈ window →
                  Event.occurredAt e ≤ Event.occurredAt newest).
Proof.
  intros Hc window.
  destruct (draft_events now customerIds db (Customer.id c) Hc)
    as [Hperm Hsorted].
  fold window in Hperm.
  set (events := default [] _) in Hperm, Hsorted.
  exists events,
    {| SmartDraft.customerEmail := Customer.email c;
       SmartDraft.recentEventType := extractRecentEventType events;
       SmartDraft.recommendedSku := Some (extractRecommendedSku events) |}.
  cbn [SmartDraft.customerEmail SmartDraft.recentEventType
       SmartDraft.recommendedSku].
  split_and!; [done | done | done | done | done | |].
  - unfold extractRecentEventType. split.
    + intros Hnone. destruct events as [|e rest]; [|discriminate].
      by apply Permutation_nil_l in Hperm.
    + intros Hempty. rewrite Hempty in Hperm.
      apply Permutation_nil_r in Hperm. by rewrite Hperm.
  - intros Hne. destruct events as [|newest rest] eqn:Hlist.
    { by apply Permutation_nil_l in Hperm. }
    exists newest. split_and!; [|done|].
    + rewrite <- Hperm. by apply elem_of_cons; left.
    + intros e He. rewrite <- Hperm in He.
      apply StronglySorted_cons in Hsorted as [Hnewest _].
      apply elem_of_cons in He as [->|He]; [lia|].
      by eapply Forall_forall in Hnewest.
Qed.

Lemma draft_events_recent_newest_first_witness :
  let db := campaignDb StatusDraft in
  let window := eventsSince (2000 - THIRTY_DAYS_MS) 1 db in
  window = [annViewedWidget]
  ∧ ∃ events input,
      events ≡ₚ window
      ∧ StronglySorted newerFirst events
      ∧ draftFor (H := SmartDraft.MockSmartDraftProvider)
          (groupByCustomer (recentEventsOf 2000 [1%nat] db)) ann
        = (SmartDraft.mockGenerate input, extractRecommendedSku events)
      ∧ SmartDraft.customerEmail input = "ann@example.com"
      ∧ SmartDraft.recommendedSku input = Some (extractRecommendedSku events)
      ∧ (SmartDraft.recentEventType input = None ↔ window = [])
      ∧ (window ≠ [] →
           ∃ newest,
             newest ∈ window
             ∧ SmartDraft.recentEventType input = Some (Event.type newest)
             ∧ ∀ e, e ∈ window →
                    Event.occurredAt e ≤ Event.occurredAt newest).
Proof.
  split; [reflexivity|].
  apply (draft_events_recent_newest_first
           (H := SmartDraft.MockSmartDraftProvider) 2000 [1%nat]
           (campaignDb StatusDraft) ann).
  constructor.
Defined.

End DraftInputs.

(** ** app/api/campaigns/[id]/send/route.ts: the send records *)

Section SendRecords.
Import Db SendRoute.

Lemma sameSendKey_true (cid cu : Id) (x : Send.t) :
  sameSendKey cid cu x = true
  ↔ Send.campaignId x = cid ∧ Send.customerId x = cu.
Proof. unfold sameSendKey. apply bool_decide_eq_true. Qed.

(** The upsert of a successful delivery: the other tables and the other
    keys are untouched, an existing record is rewritten where it stands and
    keeps its id, a missing record is added. *)
Lemma upsertSend_spec (now : Z) (cid cu : Id) (db : Db.t) :
  uniqueSends db →
  let db' := upsertSend cid cu SendSent (Some now) None false db in
  Db.customers db' = Db.customers db
  ∧ Db.events db' = Db.events db
  ∧ Db.campaigns db' = Db.campaigns db
  ∧ Db.emailDrafts db' = Db.emailDrafts db
  ∧ (∀ cid' cu', ¬ (cid' = cid ∧ cu' = cu) →
       sendsOf cid' cu' db' = sendsOf cid' cu' db)
  ∧ (∃ x, sendsOf cid cu db' = [x] ∧ deliveredAt now x
          ∧ ∀ x0, head (sendsOf cid cu db) = Some x0 → Send.id x = Send.id x0)
  ∧ length (Db.sends db')
    = (length (Db.sends db)
       + if decide (sendsOf cid cu db = []) then 1 else 0)%nat.
Proof.
  intros Huniq. unfold upsertSend, upsert.
  set (create := {| Send.id := nextId db |}).
  pose proof (findFirst_head_filter
    (λ x, Send.campaignId x = cid ∧ Send.customerId x = cu)
    (sameSendKey cid cu) (sends db) (sameSendKey_true cid cu)) as Hfind.
  fold (sendsOf cid cu db) in Hfind. rewrite Hfind.
  specialize (Huniq cid cu).
  destruct (sendsOf cid cu db) as [|x0 xs] eqn:Hprior; cbn [head].
  - cbv zeta. cbn. split_and!; try reflexivity.
    + intros cid' cu' Hne. unfold sendsOf. cbn.
      rewrite filter_app, filter_cons, decide_False, filter_nil, app_nil_r;
        [done|]. subst create. cbn. intros [? ?]. apply Hne. by split.
    + exists create. unfold sendsOf in *. cbn.
      rewrite filter_app, Hprior, filter_cons, decide_True, filter_nil;
        [|by cbn]. done.
    + rewrite length_app, decide_True by done. reflexivity.
  - assert (xs = []) as -> by (destruct xs; [done | cbn in Huniq; lia]).
    cbv zeta. cbn. split_and!; try reflexivity.
    + intros cid' cu' Hne. unfold sendsOf. cbn.
      apply filter_update_other. intros r [Hr1 Hr2]%sameSendKey_true. cbn.
      split; intros [? ?]; apply Hne; split; congruence.
    + exists (Send.withResult SendSent (Some now) None x0).
      unfold sendsOf in *. cbn.
      rewrite (filter_update_same _ _ _ _ (sameSendKey_true cid cu)), Hprior
        by (by intros r).
      split_and!; [done | done |]. by intros ? [= <-].
    + rewrite update_length, decide_False by done. lia.
Qed.

Lemma upsertSend_unique (now : Z) (cid cu : Id) (db : Db.t) :
  uniqueSends db →
  uniqueSends (upsertSend cid cu SendSent (Some now) None false db).
Proof.
  intros Huniq.
  destruct (upsertSend_spec now cid cu db Huniq)
    as (_ & _ & _ & _ & Hother & (x & Hx & _) & _).
  intros cid' cu'.
  destruct (decide (cid' = cid ∧ cu' = cu)) as [[-> ->]|Hne].
  - rewrite Hx. cbn. lia.
  - rewrite Hother by done. apply Huniq.
Qed.

(** The loop over the approved drafts. *)
Lemma sendLoop_spec (now : Z) (id : Id) (drafts : list EmailDraft.t)
    (db : Db.t) (sent : nat) :
  uniqueSends db →
  ∃ db', foldl (sendStep now id) (db, sent, 0%nat) drafts
         = (db', (sent + length drafts)%nat, 0%nat)
    ∧ Db.customers db' = Db.customers db
    ∧ Db.events db' = Db.events db
    ∧ Db.campaigns db' = Db.campaigns db
    ∧ Db.emailDrafts db' = Db.emailDrafts db
    ∧ uniqueSends db'
    ∧ (∀ cid cu, ¬ (cid = id ∧ cu ∈ EmailDraft.customerId <$> drafts) →
         sendsOf cid cu db' = sendsOf cid cu db)
    ∧ (∀ cu, cu ∈ EmailDraft.customerId <$> drafts →
         ∃ x, sendsOf id cu db' = [x] ∧ deliveredAt now x
              ∧ ∀ x0, head (sendsOf id cu db) = Some x0 →
                      Send.id x = Send.id x0)
    ∧ ((∀ cu, cu ∈ EmailDraft.customerId <$> drafts →
          sendsOf id cu db ≠ []) →
       length (Db.sends db') = length (Db.sends db)).
Proof.
  revert db sent. induction drafts as [|d drafts IH]; intros db sent Huniq.
  { exists db. cbn. split_and!; try done.
    - do 2 f_equal. lia.
    - intros cu Hin. by apply elem_of_nil in Hin. }
  cbn [foldl].
  assert (Hstep : sendStep now id (db, sent, 0%nat) d
    = (upsertSend id (EmailDraft.customerId d) SendSent
         (Some now) None false db, S sent, 0%nat)) by reflexivity.
  rewrite Hstep.
  destruct (upsertSend_spec now id (EmailDraft.customerId d) db Huniq)
    as (Hc1 & He1 & Hg1 & Hd1 & Hother1 & (x1 & Hx1 & Hsent1 & Hid1) & Hlen1).
  pose proof (upsertSend_unique now id (EmailDraft.customerId d) db Huniq)
    as Huniq1.
  set (db1 := upsertSend _ _ _ _ _ _ db) in *.
  destruct (IH db1 (S sent) Huniq1)
    as (db' & -> & Hc & He & Hg & Hd & Huniq' & Hother & Hsent & Hlen).
  exists db'. rewrite fmap_cons.
  split_and!; try congruence.
  - do 2 f_equal. cbn. lia.
  - exact Huniq'.
  - intros cid cu Hne. rewrite Hother, Hother1; [done | |].
    + intros [-> ->]. apply Hne. split; [done|]. by apply elem_of_cons; left.
    + intros [-> Hin]. apply Hne. split; [done|]. by apply elem_of_cons; right.
  - intros cu Hin.
    destruct (decide (cu ∈ EmailDraft.customerId <$> drafts)) as [Hrest|Hrest].
    + destruct (Hsent cu Hrest) as (x & Hx & Hdelivered & Hid).
      exists x. split_and!; [done | done |].
      intros x0 Hx0.
      destruct (decide (cu = EmailDraft.customerId d)) as [->|Hne].
      * rewrite (Hid x1) by (by rewrite Hx1). by apply Hid1.
      * apply Hid. rewrite Hother1; [done|]. intros [_ ?]. done.
    + apply elem_of_cons in Hin as [->|Hin]; [|done].
      exists x1. rewrite Hother by (intros [_ ?]; done).
      split_and!; done.
  - intros Hall. rewrite Hlen, Hlen1.
    + rewrite decide_False; [lia|]. apply Hall. by apply elem_of_cons; left.
    + intros cu Hin.
      destruct (decide (cu = EmailDraft.customerId d)) as [->|Hne].
      * by rewrite Hx1.
      * rewrite Hother1 by (intros [_ ?]; done).
        apply Hall. by apply elem_of_cons; right.
Qed.

(** A send that finds the campaign and an approved draft. *)
Lemma send_POST_run (now : Z) (id : Id) (db : Db.t) :
  is_Some (findCampaign id db) → approvedDrafts id db ≠ [] →
  ∀ db', foldl (sendStep now id) (db, 0%nat, 0%nat) (approvedDrafts id db)
         = (db', length (approvedDrafts id db), 0%nat) →
  POST now id db
  = (Json (length (approvedDrafts id db)) 0,
     setCampaignStatus id StatusSent db').
Proof.
  intros [campaign Hfind] Hdrafts db' Hloop. unfold POST.
  fold (approvedDrafts id db). rewrite Hfind.
  rewrite bool_decide_false by (by intros ?%nil_length_inv).
  by rewrite Hloop.
Qed.

(** X8: a send that finds approved drafts leaves, for each customer with
    an approved draft, exactly one send record of the campaign, of status
    [sent], stamped with the time of the send and without error; the
    records of the other pairs (campaign, customer), the customers, the
    events and the drafts are untouched; the unique constraint of the send
    records is kept, and the campaign ends in status [sent]. *)
Theorem send_records_every_approved_customer
    (now : Z) (id : Id) (db : Db.t) :
  uniqueSends db →
  is_Some (findCampaign id db) → approvedDrafts id db ≠ [] →
  let r := POST now id db in
  r.1 = Json (length (approvedDrafts id db)) 0
  ∧ statusOf id r.2 = Some StatusSent
  ∧ Db.customers r.2 = Db.customers db
  ∧ Db.events r.2 = Db.events db
  ∧ Db.emailDrafts r.2 = Db.emailDrafts db
  ∧ uniqueSends r.2
  ∧ (∀ d, d ∈ approvedDrafts id db →
       ∃ x, sendsOf id (EmailDraft.customerId d) r.2 = [x]
            ∧ deliveredAt now x)
  ∧ (∀ cid cu,
       ¬ (cid = id ∧ ∃ d, d ∈ approvedDrafts id db
                          ∧ EmailDraft.customerId d = cu) →
       sendsOf cid cu r.2 = sendsOf cid cu db).
Proof.
  intros Huniq Hfind Hdrafts.
  destruct (sendLoop_spec now id (approvedDrafts id db) db 0 Huniq)
    as (db' & Hloop & Hc & He & Hg & Hd & Huniq' & Hother & Hsent & _).
  cbv zeta. rewrite (send_POST_run now id db Hfind Hdrafts db' Hloop).
  cbn [fst snd]. split_and!; try done.
  - rewrite statusOf_set_same; [done|].
    by rewrite (findCampaign_campaigns id db' db).
  - intros d Hin.
    destruct (Hsent (EmailDraft.customerId d)) as (x & Hx & Hdelivered & _).
    { apply list_elem_of_fmap. eauto. }
    eauto.
  - intros cid cu Hne.
    change (sendsOf cid cu (setCampaignStatus id StatusSent db'))
      with (sendsOf cid cu db').
    apply Hother. intros [-> (d & -> & Hin)%list_elem_of_fmap].
    apply Hne. eauto.
Qed.

(** X9: sending a campaign again, with no change of its drafts in
    between, answers with the same counts and adds no send record: the
    record of each customer with an approved draft keeps its id and is
    stamped with the time of the second send. *)
Theorem send_again_rewrites_in_place
    (now now' : Z) (id : Id) (db : Db.t) :
  uniqueSends db →
  is_Some (findCampaign id db) → approvedDrafts id db ≠ [] →
  let first := POST now id db in
  let second := POST now' id first.2 in
  second.1 = first.1
  ∧ length (Db.sends second.2) = length (Db.sends first.2)
  ∧ ∀ d, d ∈ approvedDrafts id db →
      ∃ x x', sendsOf id (EmailDraft.customerId d) first.2 = [x]
              ∧ sendsOf id (EmailDraft.customerId d) second.2 = [x']
              ∧ Send.id x' = Send.id x
              ∧ deliveredAt now' x'.
Proof.
  intros Huniq Hfind Hdrafts.
  destruct (sendLoop_spec now id (approvedDrafts id db) db 0 Huniq)
    as (db1 & Hloop1 & _ & _ & Hg1 & Hd1 & Huniq1 & _ & Hsent1 & _).
  cbv zeta. rewrite (send_POST_run now id db Hfind Hdrafts db1 Hloop1).
  cbn [fst snd].
  set (db1' := setCampaignStatus id StatusSent db1).
  assert (Happroved : approvedDrafts id db1' = approvedDrafts id db).
  { unfold approvedDrafts. cbn. by rewrite Hd1. }
  assert (Hfind' : is_Some (findCampaign id db1')).
  { destruct Hfind as [campaign Hcampaign].
    unfold findCampaign, db1', setCampaignStatus. cbn [campaigns withCampaigns].
    rewrite findFirst_update_same by done.
    unfold findCampaign in Hcampaign. rewrite Hg1, Hcampaign. eauto. }
  assert (Huniq1' : uniqueSends db1') by exact Huniq1.
  destruct (sendLoop_spec now' id (approvedDrafts id db1') db1' 0 Huniq1')
    as (db2 & Hloop2 & _ & _ & _ & _ & _ & _ & Hsent2 & Hlen2).
  rewrite (send_POST_run now' id db1' Hfind'
             ltac:(by rewrite Happroved) db2 Hloop2).
  rewrite Happroved in *. cbn [fst snd].
  split_and!; [done | |].
  - change (length (sends db2) = length (sends db1')). apply Hlen2.
    intros cu Hin. destruct (Hsent1 cu Hin) as (x & Hx & _).
    change (sendsOf id cu db1') with (sendsOf id cu db1). by rewrite Hx.
  - intros d Hin.
    assert (Hcu : EmailDraft.customerId d
                  ∈ EmailDraft.customerId <$> approvedDrafts id db).
    { apply list_elem_of_fmap. eauto. }
    destruct (Hsent1 _ Hcu) as (x & Hx & _).
    destruct (Hsent2 _ Hcu) as (x' & Hx' & Hdelivered & Hid).
    exists x, x'. split_and!; [done | done | | done].
    apply Hid. change (sendsOf id (EmailDraft.customerId d) db1')
      with (sendsOf id (EmailDraft.customerId d) db1). by rewrite Hx.
Qed.

Lemma uniqueSends_approvedDb : uniqueSends approvedDb.
Proof. intros cid cu. cbn. lia. Qed.

Lemma send_records_every_approved_customer_witness :
  let r := POST 5000 1 approvedDb in
  r.1 = Json (length (approvedDrafts 1 approvedDb)) 0
  ∧ statusOf 1 r.2 = Some StatusSent
  ∧ Db.customers r.2 = Db.customers approvedDb
  ∧ Db.events r.2 = Db.events approvedDb
  ∧ Db.emailDrafts r.2 = Db.emailDrafts approvedDb
  ∧ uniqueSends r.2
  ∧ (∀ d, d ∈ approvedDrafts 1 approvedDb →
       ∃ x, sendsOf 1 (EmailDraft.customerId d) r.2 = [x]
            ∧ deliveredAt 5000 x)
  ∧ (∀ cid cu,
       ¬ (cid = 1%nat ∧ ∃ d, d ∈ approvedDrafts 1 approvedDb
                             ∧ EmailDraft.customerId d = cu) →
       sendsOf cid cu r.2 = sendsOf cid cu approvedDb).
Proof.
  apply (send_records_every_approved_customer 5000 1 approvedDb).
  - exact uniqueSends_approvedDb.
  - vm_compute. eauto.
  - vm_compute. discriminate.
Defined.

Lemma send_again_rewrites_in_place_witness :
  let first := POST 5000 1 approvedDb in
  let second := POST 6000 1 first.2 in
  second.1 = first.1
  ∧ length (Db.sends second.2) = length (Db.sends first.2)
  ∧ ∀ d, d ∈ approvedDrafts 1 approvedDb →
      ∃ x x', sendsOf 1 (EmailDraft.customerId d) first.2 = [x]
              ∧ sendsOf 1 (EmailDraft.customerId d) second.2 = [x']
              ∧ Send.id x' = Send.id x
              ∧ deliveredAt 6000 x'.
Proof.
  apply (send_again_rewrites_in_place 5000 6000 1 approvedDb).
  - exact uniqueSends_approvedDb.
  - vm_compute. eauto.
  - vm_compute. discriminate.
Defined.

End SendRecords.

(** ** app/api/campaigns/[id]/drafts/[draftId]/route.ts: the stored draft *)

Section DraftDecision.
Import Db DraftRoute.

Lemma fmap_update_same {A B} (g : A → B) (P : A → bool) (f : A → A)
    (rows : list A) :
  (∀ r, g (f r) = g r) → g <$> update P f rows = g <$> rows.
Proof.
  intros Hg. induction rows as [|r rows IH]; [done|]. cbn [update].
  destruct (P r); cbn; [by rewrite Hg | by rewrite IH].
Qed.

(** Rows with distinct keys: the row of a key is the first one found by
    that key, and [update] rewrites that row only. *)
Lemma findFirst_key {A} (g : A → Id) (rows : list A) (r : A) :
  NoDup (g <$> rows) → r ∈ rows →
  findFirst (λ x, bool_decide (g x = g r)) rows = Some r.
Proof.
  unfold findFirst. induction rows as [|r0 rows IH]; intros Hnodup Hin.
  { by apply elem_of_nil in Hin. }
  rewrite fmap_cons in Hnodup. apply NoDup_cons in Hnodup as [Hfresh Hnodup].
  cbn [List.find]. case_bool_decide as Hkey.
  - apply elem_of_cons in Hin as [->|Hin]; [done|].
    exfalso. apply Hfresh. rewrite Hkey. apply list_elem_of_fmap. eauto.
  - apply elem_of_cons in Hin as [->|Hin]; [done|]. by apply IH.
Qed.

Lemma elem_of_update_key {A} (g : A → Id) (f : A → A) (rows : list A)
    (r d : A) :
  NoDup (g <$> rows) → r ∈ rows →
  d ∈ update (λ x, bool_decide (g x = g r)) f rows
  ↔ d = f r ∨ (d ∈ rows ∧ g d ≠ g r).
Proof.
  induction rows as [|r0 rows IH]; intros Hnodup Hin.
  { by apply elem_of_nil in Hin. }
  rewrite fmap_cons in Hnodup. apply NoDup_cons in Hnodup as [Hfresh Hnodup].
  cbn [update]. case_bool_decide as Hkey.
  - assert (r = r0) as <-.
    { apply elem_of_cons in Hin as [->|Hin]; [done|].
      exfalso. apply Hfresh. rewrite Hkey. apply list_elem_of_fmap. eauto. }
    rewrite !elem_of_cons. split.
    + intros [->|Hd]; [by left|]. right. split; [by right|].
      intros Heq. apply Hfresh. rewrite <- Heq. apply list_elem_of_fmap. eauto.
    + intros [->|[[->|Hd] Hne]]; [by left | done | by right].
  - assert (Hrest : r ∈ rows).
    { apply elem_of_cons in Hin as [->|Hin]; done. }
    rewrite !elem_of_cons, (IH Hnodup Hrest). split.
    + intros [->|[->|[Hd Hne]]]; [|by left|].
      * right. split; [by left | done].
      * right. split; [by right | done].
    + intros [->|[[->|Hd] Hne]]; [right; by left | by left |].
      right. right. done.
Qed.

(** The ways a patch ends: an error that leaves the database as it is, or
    the update of a draft in status [generated]. *)
Lemma PATCH_cases (campaignId draftId : Id) (body : option json) (db : Db.t) :
  (∃ status error, PATCH campaignId draftId body db = (Error status error, db))
  ∨ (∃ b status existing,
       body = Some b ∧ get b "status" = Some (JStr status)
       ∧ status ∈ ALLOWED_STATUSES
       ∧ findDraft campaignId draftId db = Some existing
       ∧ EmailDraft.status existing = Generated
       ∧ PATCH campaignId draftId body db
         = updateStatus draftId (default Generated (statusOfString status)) db).
Proof.
  unfold PATCH. destruct body as [b|]; [|left; eauto].
  set (rest :=
    match get b "status" with
    | Some (JStr status) =>
        if bool_decide (status ∈ ALLOWED_STATUSES) then
          match findDraft campaignId draftId db with
          | None => (Error 404 "Draft not found", db)
          | Some existing =>
              match EmailDraft.status existing with
              | Generated =>
                  updateStatus draftId
                    (default Generated (statusOfString status)) db
              | other =>
                  (Error 409 ("Cannot transition draft from status " +:+ quote
                              +:+ statusName other +:+ quote), db)
              end
          end
        else (invalidStatus, db)
    | _ => (invalidStatus, db)
    end).
  assert (Hnull : b = JNull ∨ b ≠ JNull).
  { destruct b; auto; right; discriminate. }
  destruct Hnull as [-> | Hb]; [left; eauto|].
  assert (Hrest : match b with JNull => (Error 500 "Internal server error", db)
                  | _ => rest end = rest) by (by destruct b).
  rewrite Hrest. clear Hrest. subst rest. unfold invalidStatus.
  destruct (get b "status") as [[| | |status| |]|] eqn:Hstatus;
    try (left; eauto; fail).
  case_bool_decide as Hallowed; [|left; eauto].
  destruct (findDraft campaignId draftId db) as [existing|] eqn:Hfind;
    [|left; eauto].
  destruct (EmailDraft.status existing) eqn:Hst;
    [|left; eauto|left; eauto].
  right. exists b, status, existing. split_and!; done.
Qed.

Lemma findDraft_elem (campaignId draftId : Id) (db : Db.t)
    (existing : EmailDraft.t) :
  findDraft campaignId draftId db = Some existing →
  existing ∈ Db.emailDrafts db ∧ EmailDraft.id existing = draftId
  ∧ EmailDraft.campaignId existing = campaignId.
Proof.
  unfold findDraft, findFirst. intros [Hin Hkey]%find_some.
  apply bool_decide_eq_true in Hkey as [? ?].
  split_and!; [by apply list_elem_of_In | done | done].
Qed.

Lemma findDraft_updated (existing : EmailDraft.t) (s : DraftStatus)
    (db : Db.t) :
  findDraft (EmailDraft.campaignId existing) (EmailDraft.id existing) db
  = Some existing →
  findFirst (λ d, bool_decide (EmailDraft.id d = EmailDraft.id existing))
    (Db.emailDrafts db) = Some existing →
  findDraft (EmailDraft.campaignId existing) (EmailDraft.id existing)
    (withEmailDrafts db
       (update (λ d, bool_decide (EmailDraft.id d = EmailDraft.id existing))
          (EmailDraft.withStatus s) (Db.emailDrafts db))
       (Db.nextId db))
  = Some (EmailDraft.withStatus s existing).
Proof.
  unfold findDraft, findFirst. cbn [emailDrafts withEmailDrafts].
  generalize (emailDrafts db). intros rows.
  induction rows as [|r rows IH]; [discriminate|].
  cbn [List.find update].
  destruct (bool_decide (EmailDraft.id r = EmailDraft.id existing)) eqn:Hid.
  - intros _ [= ->]. cbn [List.find].
    rewrite !bool_decide_true; done.
  - assert (Hkey : bool_decide
              (EmailDraft.id r = EmailDraft.id existing
               ∧ EmailDraft.campaignId r = EmailDraft.campaignId existing)
            = false).
    { apply bool_decide_eq_false. intros [? _].
      by apply bool_decide_eq_false in Hid. }
    rewrite Hkey. cbn [List.find]. rewrite Hkey. exact IH.
Qed.

(** X10: with the draft ids distinct (the primary key), a patch that
    succeeds stores the requested status, [approved] or [rejected], in the
    draft it found and in no other row: the answer is that draft with the
    new status and nothing else changed, it is the draft found from then
    on, the rows keep their ids and their order, every row of another id is
    as it was, and the other tables are untouched. *)
Theorem PATCH_success_rewrites_one_draft
    (campaignId draftId : Id) (body : option json) (db : Db.t)
    (updated : EmailDraft.t) :
  uniqueDraftIds db →
  (PATCH campaignId draftId body db).1 = Json updated →
  let db' := (PATCH campaignId draftId body db).2 in
  ∃ existing s,
    findDraft campaignId draftId db = Some existing
    ∧ (s = Approved ∨ s = Rejected)
    ∧ body ≫= (λ b, get b "status") = Some (JStr (statusName s))
    ∧ updated = EmailDraft.withStatus s existing
    ∧ findDraft campaignId draftId db' = Some updated
    ∧ EmailDraft.id <$> Db.emailDrafts db' = EmailDraft.id <$> Db.emailDrafts db
    ∧ (∀ d, d ∈ Db.emailDrafts db'
          ↔ d = updated
            ∨ (d ∈ Db.emailDrafts db ∧ EmailDraft.id d ≠ draftId))
    ∧ Db.customers db' = Db.customers db
    ∧ Db.events db' = Db.events db
    ∧ Db.campaigns db' = Db.campaigns db
    ∧ Db.sends db' = Db.sends db.
Proof.
  intros Hids Hjson.
  destruct (PATCH_cases campaignId draftId body db)
    as [(status & error & Herror)
       |(b & status & existing & -> & Hstatus & Hallowed & Hfind & Hst & Hrun)].
  { by rewrite Herror in Hjson. }
  cbv zeta. rewrite Hrun in *. clear Hrun.
  destruct (findDraft_elem _ _ _ _ Hfind) as (Hin & <- & <-).
  pose proof (findFirst_key EmailDraft.id _ existing Hids Hin) as Hfirst.
  unfold updateStatus in *. cbv zeta in *. rewrite Hfirst in *.
  cbn [fst snd] in *.
  injection Hjson as <-.
  exists existing, (default Generated (statusOfString status)).
  assert (Hs : (default Generated (statusOfString status) = Approved
                ∨ default Generated (statusOfString status) = Rejected)
               ∧ status = statusName (default Generated (statusOfString status))).
  { apply allowed_status in Hallowed as [-> | ->]; cbn; auto. }
  destruct Hs as [Hs Hname].
  split_and!; try done.
  - cbn. by rewrite Hstatus, <- Hname.
  - by apply findDraft_updated.
  - cbn [emailDrafts withEmailDrafts]. by rewrite fmap_update_same.
  - intros d. cbn [emailDrafts withEmailDrafts].
    by rewrite (elem_of_update_key EmailDraft.id).
Qed.

(** X11: a draft is decided once: after a patch that succeeded, no patch
    of that draft succeeds or changes the database, whatever its body. *)
Theorem PATCH_decides_once
    (campaignId draftId : Id) (body body' : option json) (db : Db.t) :
  uniqueDraftIds db →
  (∃ updated, (PATCH campaignId draftId body db).1 = Json updated) →
  let db' := (PATCH campaignId draftId body db).2 in
  (PATCH campaignId draftId body' db').2 = db'
  ∧ ∀ updated, (PATCH campaignId draftId body' db').1 ≠ Json updated.
Proof.
  intros Hids [updated Hjson].
  destruct (PATCH_cases campaignId draftId body db)
    as [(status & error & Herror)
       |(b & status & existing & -> & Hstatus & Hallowed & Hfind & Hst & Hrun)].
  { by rewrite Herror in Hjson. }
  cbv zeta. rewrite Hrun in *. clear Hrun.
  destruct (findDraft_elem _ _ _ _ Hfind) as (Hin & <- & <-).
  pose proof (findFirst_key EmailDraft.id _ existing Hids Hin) as Hfirst.
  unfold updateStatus in *. cbv zeta in *. rewrite Hfirst in *.
  cbn [fst snd] in *.
  set (s := default Generated (statusOfString status)) in *.
  assert (Hs : s ≠ Generated).
  { subst s. apply allowed_status in Hallowed as [-> | ->]; cbn; done. }
  set (db' := withEmailDrafts db _ _).
  assert (Hfind' : findDraft (EmailDraft.campaignId existing)
                     (EmailDraft.id existing) db'
                   = Some (EmailDraft.withStatus s existing)).
  { by apply findDraft_updated. }
  destruct (PATCH_cases (EmailDraft.campaignId existing)
              (EmailDraft.id existing) body' db')
    as [(status' & error' & ->)
       |(b' & status' & existing' & _ & _ & _ & Hfind2 & Hst2 & _)].
  { split; [done | discriminate]. }
  rewrite Hfind' in Hfind2. injection Hfind2 as <-. cbn in Hst2. done.
Qed.

Lemma uniqueDraftIds_generatedDb : uniqueDraftIds generatedDb.
Proof. apply NoDup_singleton. Qed.

Lemma PATCH_success_rewrites_one_draft_witness :
  let db' := (PATCH 1 10 (statusBody "approved") generatedDb).2 in
  ∃ existing s,
    findDraft 1 10 generatedDb = Some existing
    ∧ (s = Approved ∨ s = Rejected)
    ∧ statusBody "approved" ≫= (λ b, get b "status")
      = Some (JStr (statusName s))
    ∧ approvedDraft = EmailDraft.withStatus s existing
    ∧ findDraft 1 10 db' = Some approvedDraft
    ∧ EmailDraft.id <$> Db.emailDrafts db'
      = EmailDraft.id <$> Db.emailDrafts generatedDb
    ∧ (∀ d, d ∈ Db.emailDrafts db'
          ↔ d = approvedDraft
            ∨ (d ∈ Db.emailDrafts generatedDb ∧ EmailDraft.id d ≠ 10%nat))
    ∧ Db.customers db' = Db.customers generatedDb
    ∧ Db.events db' = Db.events generatedDb
    ∧ Db.campaigns db' = Db.campaigns generatedDb
    ∧ Db.sends db' = Db.sends generatedDb.
Proof.
  apply (PATCH_success_rewrites_one_draft 1 10 (statusBody "approved")
           generatedDb approvedDraft).
  - exact uniqueDraftIds_generatedDb.
  - reflexivity.
Defined.

Lemma PATCH_decides_once_witness :
  let db' := (PATCH 1 10 (statusBody "approved") generatedDb).2 in
  (PATCH 1 10 (statusBody "rejected") db').2 = db'
  ∧ ∀ updated, (PATCH 1 10 (statusBody "rejected") db').1 ≠ Json updated.
Proof.
  apply (PATCH_decides_once 1 10 (statusBody "approved")
           (statusBody "rejected") generatedDb).
  - exact uniqueDraftIds_generatedDb.
  - exists approvedDraft. reflexivity.
Defined.

End DraftDecision.

(** ** app/api/events/route.ts: what is accepted and what is stored *)

Section EventsStored.
Import Db Utils EventsRoute.
Variable newDate : json → option Z.

Lemma normalizeEmail_twice (email : string) :
  normalizeEmail (normalizeEmail email) = normalizeEmail email.
Proof.
  unfold normalizeEmail.
  by rewrite trim_toLowerCase, toLowerCase_idempotent, trim_idempotent.
Qed.

(** The email of an accepted request, and the status of a rejection. *)
Lemma validate_accepted_email (now : Z) (b : json) (a : Accepted) :
  validate newDate now b = inr a →
  isValidEmail (normalizedEmail a) = true
  ∧ normalizeEmail (normalizedEmail a) = normalizedEmail a.
Proof.
  unfold validate.
  destruct (requestEmail b) as [[| | |email| |]|]; try discriminate.
  destruct (String.eqb email ""); [discriminate|].
  destruct (get b "type") as [[| | |type| |]|]; try discriminate.
  destruct (String.eqb (trim type) ""); [discriminate|].
  destruct (isValidEmail (normalizeEmail email)) eqn:Hvalid;
    [|discriminate]. cbn [negb].
  assert (Hchecked : ∀ r : Response + Accepted,
    (∀ a', r = inr a' → normalizedEmail a' = normalizeEmail email) →
    r = inr a →
    isValidEmail (normalizedEmail a) = true
    ∧ normalizeEmail (normalizedEmail a) = normalizedEmail a).
  { intros r Hr ->. rewrite (Hr a eq_refl).
    split; [done | apply normalizeEmail_twice]. }
  destruct (get b "properties") as [[| | | | |fields]|]; try discriminate;
    apply Hchecked; intros a';
    (destruct (truthy (get b "occurredAt"));
     [destruct (newDate _); [|discriminate] |]; by intros [= <-]).
Qed.

Lemma validate_rejected_400 (now : Z) (b : json) (response : Response) :
  validate newDate now b = inl response → ∃ error, response = Error 400 error.
Proof.
  unfold validate.
  destruct (requestEmail b) as [[| | |email| |]|];
    try (intros [= <-]; eauto; fail).
  destruct (String.eqb email ""); [intros [= <-]; eauto|].
  destruct (get b "type") as [[| | |type| |]|];
    try (intros [= <-]; eauto; fail).
  destruct (String.eqb (trim type) ""); [intros [= <-]; eauto|].
  destruct (negb (isValidEmail (normalizeEmail email)));
    [intros [= <-]; eauto|].
  destruct (get b "properties") as [[| | | | |fields]|];
    try (intros [= <-]; eauto; fail);
    (destruct (truthy (get b "occurredAt"));
     [destruct (newDate _); [discriminate|] | discriminate];
     intros [= <-]; eauto).
Qed.

(** X12: a body passes validation only with a non-empty text as email
    (its own or the one of its [customer]) whose normal form is a valid
    address, a [type] that is a text with something besides white space,
    [properties] absent or an object, and an [occurredAt] that is falsy or
    a readable date.  The accepted request carries the normal form of the
    email, the trimmed type, the properties (the empty object when absent)
    and the date read, or the time of arrival when there is none.  Every
    rejection carries status 400. *)
Theorem validate_accepts_or_400 (now : Z) (b : json) :
  match validate newDate now b with
  | inr a =>
      (∃ email, requestEmail b = Some (JStr email) ∧ email ≠ ""
                ∧ normalizedEmail a = normalizeEmail email)
      ∧ isValidEmail (normalizedEmail a) = true
      ∧ normalizeEmail (normalizedEmail a) = normalizedEmail a
      ∧ trimmedFrom b "type" (eventType a)
      ∧ (∃ fields, properties a = JObj fields
                   ∧ (get b "properties" = None ∧ fields = []
                      ∨ get b "properties" = Some (JObj fields)))
      ∧ (if truthy (get b "occurredAt")
         then newDate (default JNull (get b "occurredAt"))
              = Some (occurredAt a)
         else occurredAt a = now)
  | inl response => ∃ error, response = Error 400 error
  end.
Proof.
  unfold validate.
  destruct (requestEmail b) as [[| | |email| |]|] eqn:Hemail; eauto.
  destruct (String.eqb_spec email "") as [|Hne]; eauto.
  destruct (get b "type") as [[| | |type| |]|] eqn:Htype; eauto.
  destruct (String.eqb_spec (trim type) "") as [|Htrim]; eauto.
  destruct (isValidEmail (normalizeEmail email)) eqn:Hvalid; cbn [negb]; eauto.
  assert (Hchecked : ∀ fields,
    get b "properties" = None ∧ fields = []
    ∨ get b "properties" = Some (JObj fields) →
    match
      (if truthy (get b "occurredAt") then
         match newDate (default JNull (get b "occurredAt")) with
         | None => inl (Error 400 "Invalid occurredAt date format")
         | Some occurredAt =>
             inr {| normalizedEmail := normalizeEmail email;
                    eventType := trim type;
                    properties := JObj fields;
                    occurredAt := occurredAt |}
         end
       else
         inr {| normalizedEmail := normalizeEmail email;
                eventType := trim type;
                properties := JObj fields;
                occurredAt := now |})
    with
    | inr a =>
        (∃ email', Some (JStr email) = Some (JStr email') ∧ email' ≠ ""
                   ∧ normalizedEmail a = normalizeEmail email')
        ∧ isValidEmail (normalizedEmail a) = true
        ∧ normalizeEmail (normalizedEmail a) = normalizedEmail a
        ∧ trimmedFrom b "type" (eventType a)
        ∧ (∃ fields', properties a = JObj fields'
                      ∧ (get b "properties" = None ∧ fields' = []
                         ∨ get b "properties" = Some (JObj fields')))
        ∧ (if truthy (get b "occurredAt")
           then newDate (default JNull (get b "occurredAt"))
                = Some (occurredAt a)
           else occurredAt a = now)
    | inl response => ∃ error, response = Error 400 error
    end).
  { intros fields Hfields.
    assert (Htype' : trimmedFrom b "type" (trim type)).
    { exists type. split_and!; [done | done | apply trim_trimmed | done]. }
    destruct (truthy (get b "occurredAt")).
    - destruct (newDate _) as [at'|] eqn:Hdate; [|eauto]. cbn.
      split_and!; eauto. apply normalizeEmail_twice.
    - cbn. split_and!; eauto. apply normalizeEmail_twice. }
  destruct (get b "properties") as [[| | | | |fields]|] eqn:Hprops; eauto;
    apply Hchecked; auto.
Qed.

Lemma findFirst_none_elem {A} (P : A → bool) (rows : list A) (r : A) :
  findFirst P rows = None → r ∈ rows → P r = false.
Proof.
  unfold findFirst. intros Hnone Hin%list_elem_of_In.
  by eapply find_none in Hnone.
Qed.

Lemma findFirst_some_elem {A} (P : A → bool) (rows : list A) (r : A) :
  findFirst P rows = Some r → r ∈ rows ∧ P r = true.
Proof.
  unfold findFirst. intros [Hin HP]%find_some.
  split; [by apply list_elem_of_In | done].
Qed.

(** The resolved customer is stored, and the customer table stays sound
    when the email is valid and in normal form. *)
Lemma upsertCustomer_sound (email : string) (db : Db.t) :
  isValidEmail email = true → normalizeEmail email = email →
  soundCustomers db →
  let r := upsertCustomer email db in
  soundCustomers r.2 ∧ r.1 ∈ Db.customers r.2 ∧ Db.events r.2 = Db.events db.
Proof.
  intros Hvalid Hnormal (Hnodup & Hemails & Howned). unfold upsertCustomer.
  destruct (findFirst _ (Db.customers db)) as [customer|] eqn:Hfind;
    cbn [fst snd].
  { apply findFirst_some_elem in Hfind as [Hin _]. done. }
  set (customer := {| Customer.id := nextId db |}).
  split_and!; [|cbn; apply elem_of_app; right; by apply elem_of_cons; left|done].
  split_and!; cbn [Db.customers Db.events withCustomers].
  - rewrite fmap_app. apply NoDup_app. split_and!; [done | | apply NoDup_singleton].
    intros e (c & -> & Hc)%list_elem_of_fmap [Heq|[]%elem_of_nil]%elem_of_cons.
    apply (findFirst_none_elem _ _ c) in Hfind; [|done].
    by apply bool_decide_eq_false in Hfind.
  - intros c [Hc|[->|[]%elem_of_nil]%elem_of_cons]%elem_of_app; auto.
  - intros e (c & Hc & Hid)%Howned. exists c. split; [|done].
    apply elem_of_app. by left.
Qed.

Lemma store_sound (a : Accepted) (key : option string) (db : Db.t) :
  isValidEmail (normalizedEmail a) = true →
  normalizeEmail (normalizedEmail a) = normalizedEmail a →
  soundCustomers db → soundCustomers (store a key db).2.
Proof.
  intros Hvalid Hnormal Hsound. unfold store.
  destruct (upsertCustomer_sound _ db Hvalid Hnormal Hsound)
    as (Hsound1 & Hin & Hev).
  destruct (upsertCustomer (normalizedEmail a) db) as [customer db1].
  cbn [fst snd] in *.
  destruct (match key with
            | Some k => findByKey (Customer.id customer) k db1
            | None => None
            end) as [existing|]; [done|].
  cbn [createEvent fst snd]. destruct Hsound1 as (Hnodup & Hemails & Howned).
  split_and!; cbn [Db.customers Db.events withEvents]; [done | done |].
  intros e [He|[->|[]%elem_of_nil]%elem_of_cons]%elem_of_app; [auto|].
  exists customer. done.
Qed.

(** X13: ingestion keeps the customer table sound, whatever the request:
    the stored emails stay pairwise distinct, valid and in normal form, and
    every stored event belongs to a stored customer. *)
Theorem POST_keeps_customers_sound (now : Z) (request : Request) (db : Db.t) :
  soundCustomers db → soundCustomers (POST newDate now request db).2.
Proof.
  intros Hsound. unfold POST.
  destruct (body request) as [b|]; [|done].
  assert (Hrun : soundCustomers
    match validate newDate now b with
    | inl error => (error, db)
    | inr a => store a (idempotencyKeyOf request) db
    end.2).
  { destruct (validate newDate now b) as [error|a] eqn:Hvalidate; [done|].
    destruct (validate_accepted_email now b a Hvalidate) as [Hvalid Hnormal].
    by apply store_sound. }
  by destruct b.
Qed.

(** X14: what an answer of the ingestion route tells about the store.  An
    error carries status 400 or 500 and nothing was stored.  An answer
    [created: true] carries status 201 and its event is the one row added
    to the events, owned by the customer named in the answer; an answer
    [created: false] carries status 200, no event was added, and its event
    was stored before, owned by that customer.  In both the customer named
    in the answer is stored, and at most one customer row, that one, was
    added. *)
Theorem POST_answer_and_store (now : Z) (request : Request) (db : Db.t) :
  let db' := (POST newDate now request db).2 in
  match (POST newDate now request db).1 with
  | Error status _ => (status = 400 ∨ status = 500)%nat ∧ db' = db
  | Json status created eventId customerId =>
      (∃ customer,
         customer ∈ Db.customers db' ∧ Customer.id customer = customerId
         ∧ (Db.customers db' = Db.customers db
            ∨ Db.customers db' = Db.customers db ++ [customer]))
      ∧ if created then
          status = 201%nat
          ∧ ∃ e, Db.events db' = Db.events db ++ [e]
                 ∧ Event.id e = eventId ∧ Event.customerId e = customerId
                 ∧ Event.idempotencyKey e = idempotencyKeyOf request
        else
          status = 200%nat
          ∧ Db.events db' = Db.events db
          ∧ ∃ e, e ∈ Db.events db ∧ Event.id e = eventId
                 ∧ Event.customerId e = customerId
                 ∧ Event.idempotencyKey e = idempotencyKeyOf request
  end.
Proof.
  cbv zeta. unfold POST.
  destruct (body request) as [b|]; [|cbn; auto].
  set (run := match validate newDate now b with
              | inl error => (error, db)
              | inr a => store a (idempotencyKeyOf request) db
              end).
  assert (Hrun : match run.1 with
    | Error status _ => (status = 400 ∨ status = 500)%nat ∧ run.2 = db
    | Json status created eventId customerId =>
        (∃ customer,
           customer ∈ Db.customers run.2 ∧ Customer.id customer = customerId
           ∧ (Db.customers run.2 = Db.customers db
              ∨ Db.customers run.2 = Db.customers db ++ [customer]))
        ∧ if created then
            status = 201%nat
            ∧ ∃ e, Db.events run.2 = Db.events db ++ [e]
                   ∧ Event.id e = eventId ∧ Event.customerId e = customerId
                   ∧ Event.idempotencyKey e = idempotencyKeyOf request
          else
            status = 200%nat
            ∧ Db.events run.2 = Db.events db
            ∧ ∃ e, e ∈ Db.events db ∧ Event.id e = eventId
                   ∧ Event.customerId e = customerId
                   ∧ Event.idempotencyKey e = idempotencyKeyOf request
    end).
  { subst run. destruct (validate newDate now b) as [error|a] eqn:Hvalidate.
    { apply validate_rejected_400 in Hvalidate as [message ->]. cbn. auto. }
    clear Hvalidate. unfold store.
    assert (Hcustomer :
      let r := upsertCustomer (normalizedEmail a) db in
      r.1 ∈ Db.customers r.2 ∧ Db.events r.2 = Db.events db
      ∧ (Db.customers r.2 = Db.customers db
         ∨ Db.customers r.2 = Db.customers db ++ [r.1])).
    { unfold upsertCustomer.
      destruct (findFirst _ (Db.customers db)) as [customer|] eqn:Hfind;
        cbn [fst snd].
      - apply findFirst_some_elem in Hfind as [Hin _]. auto.
      - cbn. split_and!; [|done|by right].
        apply elem_of_app. right. by apply elem_of_cons; left. }
    destruct (upsertCustomer (normalizedEmail a) db) as [customer db1].
    cbn [fst snd] in Hcustomer. destruct Hcustomer as (Hin & Hev & Hcustomers).
    destruct (idempotencyKeyOf request) as [key|] eqn:Hkey.
    - destruct (findByKey (Customer.id customer) key db1) as [existing|]
        eqn:Hexisting; cbn [fst snd createEvent].
      + split; [eauto|]. split_and!; [done | done |].
        apply findFirst_some_elem in Hexisting as [He Hk].
        apply bool_decide_eq_true in Hk as [? ?]. rewrite Hev in He. eauto.
      + split; [eauto|]. split; [done|].
        eexists. cbn. rewrite Hev. split_and!; reflexivity.
    - cbn [fst snd createEvent]. split; [eauto|]. split; [done|].
      eexists. cbn. rewrite Hev. split_and!; reflexivity. }
  destruct b; try exact Hrun. cbn. auto.
Qed.

End EventsStored.

Section EventsStoredWitness.
Import Db Utils EventsRoute.

Lemma soundCustomers_emptyDb : soundCustomers emptyDb.
Proof.
  split_and!; cbn.
  - apply NoDup_nil_2.
  - intros c []%elem_of_nil.
  - intros e []%elem_of_nil.
Qed.

Lemma POST_keeps_customers_sound_witness :
  soundCustomers (POST noDate 7000 (viewRequest (Some "k-1")) emptyDb).2.
Proof.
  apply (POST_keeps_customers_sound noDate 7000 (viewRequest (Some "k-1"))
           emptyDb).
  exact soundCustomers_emptyDb.
Defined.

End EventsStoredWitness.

(** ** lib/smartGenerate/mock.ts: the suggested definition *)

Section SmartGenerateOutput.
Import Regex Segments SmartGenerate Store.

Lemma parseEventType_known (text : string) :
  parseEventType text ∈ knownEventTypes.
Proof.
  unfold parseEventType.
  destruct (list_find _ mappings) as [[i [r eventType]]|] eqn:Hfind.
  - apply list_find_Some in Hfind as (Hi & _ & _).
    apply list_elem_of_lookup_2 in Hi. unfold mappings in Hi.
    rewrite !elem_of_cons, elem_of_nil in Hi. unfold knownEventTypes.
    rewrite !elem_of_cons.
    destruct Hi as [Hi|[Hi|[Hi|[Hi|[Hi|[Hi|[]]]]]]];
      injection Hi as _ ->; tauto.
  - unfold knownEventTypes. rewrite !elem_of_cons. tauto.
Qed.

(** X15: the definition that the mock provider suggests names one of the
    six event types of its table; its window is the number of days read
    from the lowered prompt; a property definition is about [page_view]
    events whose [path] is a text that starts with a slash; and a count
    definition has a positive minimum. *)
Theorem generate_shape (prompt : string) :
  eventType (generate prompt) ∈ knownEventTypes
  ∧ days (generate prompt) = parseDays (toLowerCase prompt)
  ∧ match generate prompt with
    | EventTypeInLastDays _ _ =>
        isPositive (parseMinCount (toLowerCase prompt)) = false
    | EventPropertyEquals t p v _ =>
        t = "page_view" ∧ p = "path" ∧ ∃ rest, v = "/" +:+ rest
    | EventCountGteInLastDays _ _ m =>
        m = parseMinCount (toLowerCase prompt) ∧ isPositive m = true
    end.
Proof.
  unfold generate. cbv zeta.
  destruct (test re_pricing (toLowerCase prompt)).
  - cbn [eventType days]. split_and!; try done.
    + unfold knownEventTypes. rewrite !elem_of_cons. tauto.
    + destruct (exec re_path (toLowerCase prompt)) as [m|]; [eauto|].
      by exists "pricing".
  - destruct (isPositive (parseMinCount (toLowerCase prompt))) eqn:Hpos;
      cbn [eventType days]; split_and!; try done;
      apply parseEventType_known.
Qed.

Lemma knownEventTypes_trimmed (t : string) :
  t ∈ knownEventTypes → trimmed t ∧ t ≠ "".
Proof.
  unfold knownEventTypes. rewrite !elem_of_cons, elem_of_nil.
  intros [->|[->|[->|[->|[->|[->|[]]]]]]];
    (split; [split; intros c [= <-]; reflexivity | discriminate]).
Qed.

(** A suggestion with finite numbers is well formed when its window is
    positive. *)
Lemma generate_wellFormed (prompt : string) (d : SegmentDefinition) :
  finiteDefinition (generate prompt) = Some d →
  wellFormed d ↔ 0 < days d.
Proof.
  unfold generate, wellFormed. cbv zeta.
  destruct (test re_pricing (toLowerCase prompt)).
  - destruct (parseDays _) as [n|]; [|discriminate]. intros [= <-].
    cbn [eventType days]. split; [tauto|]. intros Hdays.
    split_and!; try done; split; intros c [= <-]; reflexivity.
  - destruct (knownEventTypes_trimmed _
                (parseEventType_known (toLowerCase prompt))) as [Ht Hne].
    destruct (parseMinCount (toLowerCase prompt)) as [m|];
      cbn [isPositive].
    + destruct (Z.ltb_spec 0 m);
        (destruct (parseDays _) as [n|]; [|discriminate]); intros [= <-];
        cbn [eventType days]; tauto.
    + by destruct (parseDays _).
Qed.

Lemma suggestionJson_finite (g : SegmentDefinitionOf number)
    (d : SegmentDefinition) :
  finiteDefinition g = Some d → SmartGenerateRoute.suggestionJson g = definitionJson d.
Proof.
  destruct g as [t [n|] | t p v [n|] | t [n|] [m|]]; try discriminate;
    by intros [= <-].
Qed.

(** An infinite number is written [null], which the validator refuses. *)
Lemma suggestionJson_infinite (g : SegmentDefinitionOf number)
    (d : SegmentDefinition) :
  finiteDefinition g = None →
  validateSegmentDefinition (SmartGenerateRoute.suggestionJson g) ≠ Valid d.
Proof.
  destruct g as [t [n|] | t p v [n|] | t [n|] [m|]]; try discriminate;
    intros _.
  - change (validateSegmentDefinition _)
      with (validateEventTypeInLastDays
              (SmartGenerateRoute.suggestionJson (EventTypeInLastDays t Infinity))).
    unfold validateEventTypeInLastDays.
    change (get _ "days") with (Some JNull).
    by destruct (nonEmptyString _).
  - change (validateSegmentDefinition _)
      with (validateEventPropertyEquals
              (SmartGenerateRoute.suggestionJson (EventPropertyEquals t p v Infinity))).
    unfold validateEventPropertyEquals.
    change (get _ "days") with (Some JNull).
    change (get _ "value") with (Some (JStr v)).
    destruct (nonEmptyString _); [|done]. by destruct (nonEmptyString _).
  - change (validateSegmentDefinition _)
      with (validateEventCountGteInLastDays
              (SmartGenerateRoute.suggestionJson (EventCountGteInLastDays t (Finite n) Infinity))).
    unfold validateEventCountGteInLastDays.
    change (get _ "minCount") with (Some JNull).
    destruct (nonEmptyString _); [|done]. by destruct (positiveInteger _).
  - change (validateSegmentDefinition _)
      with (validateEventCountGteInLastDays
              (SmartGenerateRoute.suggestionJson (EventCountGteInLastDays t Infinity (Finite m)))).
    unfold validateEventCountGteInLastDays.
    change (get _ "days") with (Some JNull).
    by destruct (nonEmptyString _).
  - change (validateSegmentDefinition _)
      with (validateEventCountGteInLastDays
              (SmartGenerateRoute.suggestionJson (EventCountGteInLastDays t Infinity Infinity))).
    unfold validateEventCountGteInLastDays.
    change (get _ "days") with (Some JNull).
    by destruct (nonEmptyString _).
Qed.

(** A stored definition that is accepted has a positive window. *)
Lemma stored_days_positive (g d : SegmentDefinition) :
  validateSegmentDefinition (definitionJson g) = Valid d → 0 < days g.
Proof.
  intros [Hkind Hfields]%validateSegmentDefinition_inv.
  assert (Hdays : positiveInteger (Some (JNum (Qmake (days g) 1)))
                  = Some (days d)).
  { destruct g, d; try discriminate; cbn in Hfields; destruct_and!; done. }
  apply positiveInteger_inv in Hdays as (q & [= <-] & Hpositive & Hq).
  cbn in Hq. lia.
Qed.

(** When the validator accepts the suggestion for a prompt. *)
Lemma generate_valid (prompt : string) (d : SegmentDefinition) :
  validateSegmentDefinition (SmartGenerateRoute.suggestionJson (generate prompt))
  = Valid d
  ↔ finiteDefinition (generate prompt) = Some d ∧ 0 < days d.
Proof.
  split.
  - intros Hvalid.
    destruct (finiteDefinition (generate prompt)) as [g|]
      eqn:Hfinite; [|by apply suggestionJson_infinite in Hvalid].
    rewrite (suggestionJson_finite _ _ Hfinite) in Hvalid.
    pose proof (stored_days_positive _ _ Hvalid) as Hdays.
    pose proof (wellFormed_stored g
                  (proj2 (generate_wellFormed _ _ Hfinite) Hdays)) as Hstored.
    rewrite Hstored in Hvalid. injection Hvalid as ->. done.
  - intros [Hfinite Hdays].
    rewrite (suggestionJson_finite _ _ Hfinite).
    by apply wellFormed_stored, (generate_wellFormed _ _ Hfinite).
Qed.

(** The numbers of a suggestion are those that the parsers read. *)
Lemma generate_finite (prompt : string) :
  let lower := toLowerCase prompt in
  is_Some (finiteDefinition (generate prompt))
  ↔ parseDays lower ≠ Infinity
    ∧ (mentionsPricing lower ∨ parseMinCount lower ≠ Infinity).
Proof.
  cbv zeta. rewrite <- test_pricing. unfold generate. cbv zeta.
  destruct (test re_pricing (toLowerCase prompt));
    [|destruct (parseMinCount _) as [m|]; cbn [isPositive];
      [destruct (0 <? m)|]];
    destruct (parseDays _); cbn [finiteDefinition];
    (split;
     [intros [? Hsome]; first [discriminate Hsome | split; [done | auto]]
     |intros [Hdays [Hpricing|Hcount]]; try done; eauto]).
Qed.

(** X16: the suggestion of the mock provider, as the route sends it,
    passes the validator exactly when each of its numbers is finite and
    the number of days read from the prompt is positive, and the accepted
    definition is then the suggestion itself.  The numbers are finite when
    the window read from the lowered prompt is, and the stated count is or
    the prompt mentions a path.  There is a prompt whose window is 0 and
    one whose window is infinite, so that the suggestion is rejected. *)
Theorem generate_valid_iff_days_positive :
  (∀ prompt d,
     validateSegmentDefinition
       (SmartGenerateRoute.suggestionJson (generate prompt)) = Valid d
     ↔ finiteDefinition (generate prompt) = Some d
       ∧ 0 < days d)
  ∧ (∀ prompt,
       let lower := toLowerCase prompt in
       is_Some (finiteDefinition (generate prompt))
       ↔ parseDays lower ≠ Infinity
         ∧ (mentionsPricing lower ∨ parseMinCount lower ≠ Infinity))
  ∧ (∃ prompt error,
       days (generate prompt) = Finite 0
       ∧ validateSegmentDefinition
           (SmartGenerateRoute.suggestionJson (generate prompt))
         = Invalid error)
  ∧ (∃ prompt error,
       days (generate prompt) = Infinity
       ∧ validateSegmentDefinition
           (SmartGenerateRoute.suggestionJson (generate prompt))
         = Invalid error).
Proof.
  split_and!.
  - apply generate_valid.
  - apply generate_finite.
  - exists "purchased in the last 0 days". eexists. by vm_compute.
  - exists longWindowPrompt. eexists. by vm_compute.
Qed.

End SmartGenerateOutput.

(** ** lib/smartGenerate/mock.ts: the window *)

Section ParseDays.
Import Regex Segments SmartGenerate.

(** The words that open a window phrase. *)
Lemma matchHere_opener_first (c : ascii) (s : list ascii) (openers : regex)
    (r : regex) :
  (∀ k : list ascii → capture → option capture,
     rmatch openers (c :: s) None k = None) →
  matchHere (Seq openers r) (c :: s) = None.
Proof. intros Hopen. unfold matchHere. cbn [rmatch]. apply Hopen. Qed.

Lemma first_days (c : ascii) (s : list ascii) :
  c ∉ chars "lpw" → matchHere re_days (c :: s) = None.
Proof.
  intros Hc. apply matchHere_opener_first. intros k.
  unfold lit. cbn.
  destruct (Ascii.eqb_spec c "l") as [->|_];
    [exfalso; apply Hc; cbn; rewrite !elem_of_cons; tauto|].
  destruct (Ascii.eqb_spec c "p") as [->|_];
    [exfalso; apply Hc; cbn; rewrite !elem_of_cons; tauto|].
  destruct (Ascii.eqb_spec c "w") as [->|_];
    [exfalso; apply Hc; cbn; rewrite !elem_of_cons; tauto|].
  reflexivity.
Qed.

Lemma first_weeks (c : ascii) (s : list ascii) :
  c ∉ chars "lp" → matchHere re_weeks (c :: s) = None.
Proof.
  intros Hc. apply matchHere_opener_first. intros k.
  unfold lit. cbn.
  destruct (Ascii.eqb_spec c "l") as [->|_];
    [exfalso; apply Hc; cbn; rewrite !elem_of_cons; tauto|].
  destruct (Ascii.eqb_spec c "p") as [->|_];
    [exfalso; apply Hc; cbn; rewrite !elem_of_cons; tauto|].
  reflexivity.
Qed.

(** The rest of a window pattern after its opener, on a numeral that is
    followed by one space and the unit. *)
Lemma rmatch_window (unit : string) (ds post : list ascii) :
  ds ≠ [] → Forall (λ c, isDigit c = true) ds →
  chars unit ≠ [] → stops isWhiteSpace (chars unit) →
  rmatch (seq [plus ws; Group (plus digit); Star ws; lit unit; opt (Chr "s")])
    (" "%char :: ds ++ " "%char :: chars unit ++ post) None
    (λ _ cap, Some cap)
  = Some (Some ds).
Proof.
  intros Hne Hds Hword Hunit. cbn [seq]. rewrite rmatch_seq.
  apply (rmatch_plus_cls_run _ [" "%char]);
    [done | by repeat constructor | by apply numeral_stops_space |].
  cbv beta. rewrite rmatch_seq, rmatch_group.
  apply rmatch_plus_cls_run; [done | done | reflexivity |].
  cbv beta. rewrite length_app.
  replace (length ds + length (" "%char :: chars unit ++ post)
           - length (" "%char :: chars unit ++ post))%nat
    with (length ds) by lia.
  rewrite take_app_length, rmatch_seq.
  apply (rmatch_star_cls_run _ [" "%char]); [by repeat constructor | |].
  { destruct (chars unit); [done | exact Hunit]. }
  cbv beta. rewrite rmatch_seq. unfold lit. rewrite rmatch_lit_chars.
  unfold opt. cbn [rmatch]. destruct post as [|c post]; [done|].
  by destruct (Ascii.eqb c "s").
Qed.

Lemma matchHere_days (opener : string) (ds post : list ascii) :
  opener ∈ ["last"; "past"; "within"] →
  ds ≠ [] → Forall (λ c, isDigit c = true) ds →
  matchHere re_days
    (chars opener ++ " "%char :: ds ++ " "%char :: chars "day" ++ post)
  = Some (Some ds).
Proof.
  intros Hopener Hne Hds. unfold matchHere.
  change re_days
    with (Seq (Alt (lit "last") (Alt (lit "past") (lit "within")))
            (seq [plus ws; Group (plus digit); Star ws; lit "day";
                  opt (Chr "s")])).
  rewrite rmatch_seq.
  pose proof (rmatch_window "day" ds post Hne Hds) as Hrest.
  rewrite !elem_of_cons, elem_of_nil in Hopener.
  destruct Hopener as [->|[->|[->|[]]]].
  - cbn [rmatch]. unfold lit at 1. rewrite rmatch_lit_chars, Hrest; done.
  - assert (Hlast : ∀ s (k : list ascii → capture → option capture),
              rmatch (lit "last") (chars "past" ++ s) None k = None)
      by reflexivity.
    cbn [rmatch]. rewrite Hlast. unfold lit at 1.
    rewrite rmatch_lit_chars, Hrest; done.
  - assert (Hlast : ∀ s (k : list ascii → capture → option capture),
              rmatch (lit "last") (chars "within" ++ s) None k = None)
      by reflexivity.
    assert (Hpast : ∀ s (k : list ascii → capture → option capture),
              rmatch (lit "past") (chars "within" ++ s) None k = None)
      by reflexivity.
    cbn [rmatch]. rewrite Hlast, Hpast. unfold lit.
    rewrite rmatch_lit_chars. apply Hrest; done.
Qed.

Lemma matchHere_weeks (opener : string) (ds post : list ascii) :
  opener ∈ ["last"; "past"] →
  ds ≠ [] → Forall (λ c, isDigit c = true) ds →
  matchHere re_weeks
    (chars opener ++ " "%char :: ds ++ " "%char :: chars "week" ++ post)
  = Some (Some ds).
Proof.
  intros Hopener Hne Hds. unfold matchHere.
  change re_weeks
    with (Seq (Alt (lit "last") (lit "past"))
            (seq [plus ws; Group (plus digit); Star ws; lit "week";
                  opt (Chr "s")])).
  rewrite rmatch_seq.
  pose proof (rmatch_window "week" ds post Hne Hds) as Hrest.
  rewrite !elem_of_cons, elem_of_nil in Hopener.
  destruct Hopener as [->|[->|[]]].
  - cbn [rmatch]. unfold lit at 1. rewrite rmatch_lit_chars, Hrest; done.
  - assert (Hlast : ∀ s (k : list ascii → capture → option capture),
              rmatch (lit "last") (chars "past" ++ s) None k = None)
      by reflexivity.
    cbn [rmatch]. rewrite Hlast. unfold lit.
    rewrite rmatch_lit_chars. apply Hrest; done.
Qed.

Lemma decimal_nonneg (ds : list ascii) :
  Forall (λ c, isDigit c = true) ds → 0 ≤ decimal ds.
Proof.
  unfold decimal. intros Hds.
  assert (Hacc : ∀ acc, 0 ≤ acc →
            0 ≤ foldl (λ acc c, 10 * acc + digitValue c) acc ds);
    [|by apply Hacc].
  induction Hds as [|c l Hc _ IH]; intros acc Hacc; [done|].
  cbn [foldl]. apply IH.
  unfold isDigit in Hc. unfold digitValue.
  apply andb_true_iff in Hc as [Hc%N.leb_le _]. lia.
Qed.

(** X17: the window read from a text.  When the first window phrase of
    the text is [last N day], [past N day] or [within N day] (before it
    the text has none of the letters that open such a phrase), the window
    is what [parseInt] reads from [N]: [N] days when [N] is at most
    2^53 - 1; when the text has no such phrase in days and its first
    phrase in weeks is [last N week] or [past N week], the window is 7
    times what [parseInt] reads from [N]: [7 N] days when that is at most
    2^53 - 1. *)
Theorem parseDays_window_phrase (pre opener n post : string) :
  numeral n →
  (opener ∈ ["last"; "past"; "within"] →
   (∀ c, c ∈ chars pre → c ∉ chars "lpw") →
   let text := pre +:+ opener +:+ " " +:+ n +:+ " day" +:+ post in
   parseDays text = parseInt (chars n)
   ∧ (safeNumeral n → parseDays text = Finite (decimal (chars n))))
  ∧ (opener ∈ ["last"; "past"] →
     (∀ c, c ∈ chars pre → c ∉ chars "lp") →
     let text := pre +:+ opener +:+ " " +:+ n +:+ " week" +:+ post in
     test re_days text = false →
     parseDays text = timesNat (parseInt (chars n)) 7
     ∧ (decimal (chars n) * 7 ≤ MAX_SAFE_INTEGER →
        parseDays text = Finite (decimal (chars n) * 7))).
Proof.
  intros [Hne Hds].
  pose proof (decimal_nonneg _ Hds) as Hnat.
  split.
  - intros Hopener Hpre text.
    assert (Hdays : parseDays text = parseInt (chars n)).
    { unfold parseDays, exec. subst text.
      rewrite !chars_app, search_skip
        by (intros c rest Hc; by apply first_days, Hpre).
      rewrite (search_here _ _ (Some (chars n))); [reflexivity|].
      change (chars " " ++ chars n ++ chars " day" ++ chars post)
        with (" "%char :: chars n ++ " "%char :: chars "day" ++ chars post).
      by apply matchHere_days. }
    split; [done|]. intros [_ Hsafe]. rewrite Hdays.
    by apply toDouble_safe.
  - intros Hopener Hpre text Hdays%test_false.
    assert (Hweeks : parseDays text = timesNat (parseInt (chars n)) 7).
    { unfold parseDays. rewrite Hdays. subst text. unfold exec.
      rewrite !chars_app, search_skip
        by (intros c rest Hc; by apply first_weeks, Hpre).
      rewrite (search_here _ _ (Some (chars n))); [reflexivity|].
      change (chars " " ++ chars n ++ chars " week" ++ chars post)
        with (" "%char :: chars n ++ " "%char :: chars "week" ++ chars post).
      by apply matchHere_weeks. }
    split; [done|]. intros Hsafe. rewrite Hweeks. unfold parseInt.
    rewrite toDouble_safe by lia. cbn [timesNat]. by apply toDouble_safe.
Qed.

Lemma parseDays_window_phrase_witness :
  parseDays ("in the " +:+ "last" +:+ " " +:+ "14" +:+ " day" +:+ "s")
  = Finite 14.
Proof.
  destruct (parseDays_window_phrase "in the " "last" "14" "s") as [Hdays _].
  - split; [done | by repeat constructor].
  - destruct Hdays as [_ Hsafe].
    + by apply elem_of_cons; left.
    + apply Forall_forall. apply (bool_decide_unpack _). vm_compute. exact I.
    + apply Hsafe. split; [|by vm_compute].
      split; [done | by repeat constructor].
Defined.

End ParseDays.

(** ** The segment and campaign routes *)

Section SegmentAndCampaignRoutes.
Import Segments Db SegmentPreview Store.

Lemma findFirst_fresh {A} (key : A → Id) (rows : list A) (row : A) :
  (∀ r, r ∈ rows → (key r < key row)%nat) →
  findFirst (λ r, bool_decide (key r = key row)) (rows ++ [row]) = Some row
  ∧ ∀ id, id ≠ key row →
      findFirst (λ r, bool_decide (key r = id)) (rows ++ [row])
      = findFirst (λ r, bool_decide (key r = id)) rows.
Proof.
  intros Hfresh. split.
  - rewrite findFirst_app.
    destruct (findFirst _ rows) as [r|] eqn:Hfind.
    + unfold findFirst in Hfind. apply find_some in Hfind as [Hin Hkey].
      apply list_elem_of_In, Hfresh in Hin.
      apply bool_decide_eq_true in Hkey. lia.
    + cbn. by rewrite bool_decide_true.
  - intros id Hne. rewrite findFirst_app.
    destruct (findFirst _ rows); [done|]. cbn.
    by rewrite bool_decide_false.
Qed.

(** The ways the creation of a segment ends. *)
Lemma segment_POST_created (body : option json) (s s' : Store.t)
    (segmentId : Id) :
  SegmentsRoute.POST body s = (SegmentsRoute.Created segmentId, s') →
  ∃ b name d,
    body = Some b
    ∧ nonEmptyString (get b "name") = Some name
    ∧ SegmentsRoute.validateField (get b "definition") = Valid d
    ∧ segmentId = Db.nextId (db s)
    ∧ s' = {| db := idTaken (db s);
              segments :=
                segments s
                ++ [{| Segment.id := Db.nextId (db s);
                       Segment.name := name;
                       Segment.description :=
                         trimmedOrNull (get b "description");
                       Segment.definition := definitionJson d |}];
              campaignDescriptions := campaignDescriptions s |}.
Proof.
  unfold SegmentsRoute.POST. destruct body as [b|]; [|discriminate].
  set (rest := match nonEmptyString (get b "name") with
               | Some name => _
               | None => _
               end).
  intros Hpost.
  assert (Hrest : rest = (SegmentsRoute.Created segmentId, s'))
    by (destruct b; done).
  clear Hpost. subst rest.
  destruct (nonEmptyString (get b "name")) as [name|] eqn:Hname;
    [|discriminate].
  destruct (SegmentsRoute.validateField _) as [d|error] eqn:Hd;
    [|discriminate].
  injection Hrest as <- <-. exists b, name, d. split_and!; done.
Qed.

(** X18: a created segment can be read and previewed.  With row ids
    handed out in increasing order, after a segment creation that answered
    with an id: the segment of that id is stored with the trimmed name and
    the validated definition, which is well formed; its preview never
    answers 404 or 400: it is the evaluation of that definition when the
    instant that many days before the clock reading is in the range of
    [Date], and status 500 otherwise; the segments of other ids, the
    customers, events, campaigns, drafts and send records are as before;
    and row ids are still handed out in increasing order. *)
Theorem segment_created_then_previewed
    (body : option json) (s s' : Store.t) (segmentId : Id) :
  freshIds s →
  SegmentsRoute.POST body s = (SegmentsRoute.Created segmentId, s') →
  ∃ b d segment,
    body = Some b
    ∧ SegmentsRoute.validateField (get b "definition") = Valid d
    ∧ wellFormed d
    ∧ SegmentsRoute.GET segmentId s' = SegmentsRoute.Json segment
    ∧ Segment.id segment = segmentId
    ∧ trimmedFrom b "name" (Segment.name segment)
    ∧ Segment.definition segment = definitionJson d
    ∧ (∀ now,
         SegmentsRoute.preview now segmentId s'
         = match evaluateSegment now d (db s) with
           | Some r => SegmentsRoute.Result r
           | None => SegmentsRoute.Failed 500 "Internal server error"
           end
         ∧ (is_Some (evaluateSegment now d (db s))
            ↔ Z.abs (now - days d * DAY_MS) ≤ MAX_TIME))
    ∧ (∀ id, id ≠ segmentId → findSegment id s' = findSegment id s)
    ∧ Db.customers (db s') = Db.customers (db s)
    ∧ Db.events (db s') = Db.events (db s)
    ∧ Db.campaigns (db s') = Db.campaigns (db s)
    ∧ Db.emailDrafts (db s') = Db.emailDrafts (db s)
    ∧ Db.sends (db s') = Db.sends (db s)
    ∧ freshIds s'.
Proof.
  intros [Hsegments Hcampaigns]
    (b & name & d & -> & Hname & Hd & -> & ->)%segment_POST_created.
  set (segment := {| Segment.id := nextId (db s) |}).
  assert (Hwf : wellFormed d).
  { unfold SegmentsRoute.validateField in Hd.
    destruct (get b "definition"); [|discriminate].
    by eapply accepted_wellFormed. }
  destruct (findFirst_fresh Segment.id (segments s) segment) as [Hnew Hold].
  { intros g Hg. by apply Hsegments. }
  assert (Hfind : findSegment (nextId (db s))
                    {| db := idTaken (db s);
                       segments := segments s ++ [segment];
                       campaignDescriptions := campaignDescriptions s |}
                  = Some segment) by exact Hnew.
  exists b, d, segment. unfold SegmentsRoute.GET, SegmentsRoute.preview.
  rewrite Hfind. cbn [Segment.definition segment].
  rewrite (wellFormed_stored d Hwf).
  split_and!; try done.
  - apply nonEmptyString_inv in Hname as (raw & Hraw & -> & Hne).
    exists raw. split_and!; [done | done | apply trim_trimmed | done].
  - intros now. split; [done | apply evaluateSegment_returns].
  - split; cbn.
    + intros g [Hg|[->|[]%elem_of_nil]%elem_of_cons]%elem_of_app.
      * apply Hsegments in Hg. lia.
      * cbn. lia.
    + intros c Hc%Hcampaigns. lia.
Qed.

(** The ways the creation of a campaign ends. *)
Lemma campaign_POST_created (idOf : string → option Id)
    (body : option json) (s s' : Store.t) (campaignId : Id) :
  CampaignsRoute.POST idOf body s = (CampaignsRoute.Created campaignId, s') →
  ∃ b name text segment,
    body = Some b
    ∧ nonEmptyString (get b "name") = Some name
    ∧ get b "segmentId" = Some (JStr text)
    ∧ idOf text ≫= (λ id, findSegment id s) = Some segment
    ∧ campaignId = Db.nextId (db s)
    ∧ s' = {| db :=
                idTaken
                  (withCampaigns (db s)
                     (Db.campaigns (db s)
                      ++ [{| Campaign.id := Db.nextId (db s);
                             Campaign.name := name;
                             Campaign.segmentId := Segment.id segment;
                             Campaign.segmentSnapshot :=
                               Segment.definition segment;
                             Campaign.status := StatusDraft |}]));
              segments := segments s;
              campaignDescriptions :=
                <[Db.nextId (db s) := trimmedOrNull (get b "description")]>
                  (campaignDescriptions s) |}.
Proof.
  unfold CampaignsRoute.POST. destruct body as [b|]; [|discriminate].
  set (rest := match nonEmptyString (get b "name") with
               | Some name => _
               | None => _
               end).
  intros Hpost.
  assert (Hrest : rest = (CampaignsRoute.Created campaignId, s'))
    by (destruct b; done).
  clear Hpost. subst rest.
  destruct (nonEmptyString (get b "name")) as [name|] eqn:Hname;
    [|discriminate].
  unfold CampaignsRoute.segmentIdText in Hrest.
  destruct (get b "segmentId") as [[| | |text| |]|] eqn:Htext;
    try discriminate.
  destruct (String.eqb text ""); [discriminate|].
  destruct (idOf text ≫= _) as [segment|] eqn:Hsegment; [|discriminate].
  injection Hrest as <- <-. exists b, name, text, segment.
  split_and!; done.
Qed.

(** X19: a created campaign freezes the definition of its segment.  With
    row ids handed out in increasing order, after a campaign creation that
    answered with an id: the campaign of that id is stored in status
    [draft] with the trimmed name, and its snapshot is the definition that
    the segment named in the body had at that moment; the campaigns of
    other ids, the segments, customers, events, drafts and send records are
    as before; and row ids are still handed out in increasing order. *)
Theorem campaign_created_with_snapshot (idOf : string → option Id)
    (body : option json) (s s' : Store.t) (campaignId : Id) :
  freshIds s →
  CampaignsRoute.POST idOf body s = (CampaignsRoute.Created campaignId, s') →
  ∃ b text segment campaign,
    body = Some b
    ∧ get b "segmentId" = Some (JStr text)
    ∧ idOf text ≫= (λ id, findSegment id s) = Some segment
    ∧ findCampaign campaignId (db s') = Some campaign
    ∧ Campaign.id campaign = campaignId
    ∧ trimmedFrom b "name" (Campaign.name campaign)
    ∧ Campaign.segmentId campaign = Segment.id segment
    ∧ Campaign.segmentSnapshot campaign = Segment.definition segment
    ∧ Campaign.status campaign = StatusDraft
    ∧ (∀ id, id ≠ campaignId →
         findCampaign id (db s') = findCampaign id (db s))
    ∧ segments s' = segments s
    ∧ Db.customers (db s') = Db.customers (db s)
    ∧ Db.events (db s') = Db.events (db s)
    ∧ Db.emailDrafts (db s') = Db.emailDrafts (db s)
    ∧ Db.sends (db s') = Db.sends (db s)
    ∧ freshIds s'.
Proof.
  intros [Hsegments Hcampaigns]
    (b & name & text & segment & -> & Hname & Htext & Hsegment & -> & ->)
      %campaign_POST_created.
  set (campaign := {| Campaign.id := nextId (db s) |}).
  destruct (findFirst_fresh Campaign.id (campaigns (db s)) campaign)
    as [Hnew Hold].
  { intros c Hc. by apply Hcampaigns. }
  exists b, text, segment, campaign.
  split_and!; try done.
  - apply nonEmptyString_inv in Hname as (raw & Hraw & -> & Hne).
    exists raw. split_and!; [done | done | apply trim_trimmed | done].
  - split; cbn.
    + intros g Hg%Hsegments. lia.
    + intros c [Hc|[->|[]%elem_of_nil]%elem_of_cons]%elem_of_app.
      * apply Hcampaigns in Hc. lia.
      * cbn. lia.
Qed.

(** A run of draft generation on a campaign with a valid snapshot. *)
Lemma generate_POST_valid `{SmartDraft.SmartDraftProvider}
    (now : Z) (id : Id) (db : Db.t) (campaign : Campaign.t)
    (d : SegmentDefinition) :
  findCampaign id db = Some campaign →
  validateSegmentDefinition (Campaign.segmentSnapshot campaign) = Valid d →
  match evaluateSegment now d db with
  | Some preview =>
      targets now id db = customers preview
      ∧ (GenerateDraftsRoute.POST now id db).1
        = GenerateDraftsRoute.Json (length (customers preview))
  | None =>
      targets now id db = []
      ∧ GenerateDraftsRoute.POST now id db
        = (GenerateDraftsRoute.Error 500 "Internal server error", db)
  end.
Proof.
  intros Hfind Hvalid. unfold targets, GenerateDraftsRoute.POST.
  rewrite Hfind, Hvalid.
  destruct (evaluateSegment now d db) as [preview|]; [|done].
  split; [done|].
  set (cs := customers preview).
  rewrite length_fmap. case_bool_decide as Hempty; [by rewrite Hempty|].
  set (m := GenerateDraftsRoute.groupByCustomer _).
  destruct (draftLoop_frame id m cs db 0) as [Hn _].
  destruct (foldl _ _ cs) as [db1 draftedCount]. cbn [fst snd] in *.
  by rewrite Hn.
Qed.

(** X20: from a segment to the drafts of a campaign.  With row ids handed
    out in increasing order, a segment creation that answered with an id,
    then ingestion or anything else that keeps the segments and keeps ids
    increasing, then a campaign creation on that segment that answered
    with an id: draft generation for that campaign never answers 404 or
    400.  When the evaluation of the validated definition returns at that
    time (the instant that many days before the clock reading is in the
    range of [Date]), it answers with the number of customers in the
    returned list and leaves the campaign in status [drafted], or [draft]
    when that list is empty; otherwise it answers with status 500 and
    changes nothing. *)
Theorem created_campaign_generates_drafts `{SmartDraft.SmartDraftProvider}
    (idOf : string → option Id) (now : Z)
    (segmentBody campaignBody : option json) (text : string)
    (s s1 between s2 : Store.t) (segmentId campaignId : Id) :
  freshIds s →
  SegmentsRoute.POST segmentBody s = (SegmentsRoute.Created segmentId, s1) →
  segments between = segments s1 → freshIds between →
  CampaignsRoute.POST idOf campaignBody between
  = (CampaignsRoute.Created campaignId, s2) →
  campaignBody ≫= (λ b, get b "segmentId") = Some (JStr text) →
  idOf text = Some segmentId →
  ∃ b d,
    segmentBody = Some b
    ∧ SegmentsRoute.validateField (get b "definition") = Valid d
    ∧ (is_Some (evaluateSegment now d (db s2))
       ↔ Z.abs (now - days d * DAY_MS) ≤ MAX_TIME)
    ∧ let r := GenerateDraftsRoute.POST now campaignId (db s2) in
      match evaluateSegment now d (db s2) with
      | Some preview =>
          let matched := customers preview in
          r.1 = GenerateDraftsRoute.Json (length matched)
          ∧ statusOf campaignId r.2
            = Some (if decide (matched = []) then StatusDraft
                    else StatusDrafted)
      | None =>
          r = (GenerateDraftsRoute.Error 500 "Internal server error", db s2)
      end.
Proof.
  intros [Hsegments _]
    (b & name & d & -> & _ & Hd & -> & ->)%segment_POST_created
    Hkept [_ Hcampaigns]
    (b' & name' & text' & segment' & -> & _ & Htext' & Hsegment' & -> & ->)
      %campaign_POST_created
    Htext Hid.
  set (segment := {| Segment.id := nextId (db s) |}) in *.
  set (campaign := {| Campaign.id := nextId (db between) |}).
  assert (Hwf : wellFormed d).
  { unfold SegmentsRoute.validateField in Hd.
    destruct (get b "definition"); [|discriminate].
    by eapply accepted_wellFormed. }
  cbn in Htext. rewrite Htext' in Htext. injection Htext as ->.
  rewrite Hid in Hsegment'. cbn in Hsegment'.
  unfold findSegment in Hsegment'. rewrite Hkept in Hsegment'.
  cbn [segments] in Hsegment'.
  destruct (findFirst_fresh Segment.id (segments s) segment) as [Hnew _].
  { intros g Hg. by apply Hsegments. }
  cbn [Segment.id segment] in Hnew. rewrite Hnew in Hsegment'.
  injection Hsegment' as <-.
  destruct (findFirst_fresh Campaign.id (campaigns (db between)) campaign)
    as [Hfind _].
  { intros c Hc. by apply Hcampaigns. }
  exists b, d. split; [done|]. split; [done|].
  split; [apply evaluateSegment_returns|].
  assert (Hvalid : validateSegmentDefinition
                     (Campaign.segmentSnapshot campaign) = Valid d).
  { by apply wellFormed_stored. }
  cbn [db]. fold campaign.
  set (db2 := idTaken (withCampaigns (db between)
                         (campaigns (db between) ++ [campaign]))).
  assert (Hfound : findCampaign (nextId (db between)) db2 = Some campaign)
    by exact Hfind.
  pose proof (generate_POST_valid now (nextId (db between)) db2 campaign d
                Hfound Hvalid) as Hrun.
  cbv zeta.
  destruct (evaluateSegment now d db2) as [preview|]; [|by destruct Hrun].
  destruct Hrun as [Htargets Hanswer]. split; [done|].
  destruct (generate_campaigns now (nextId (db between)) db2)
    as [Hnone Hsome].
  rewrite Htargets in Hnone, Hsome.
  destruct (decide (customers preview = [])) as [Hempty|Hmatched].
  - rewrite (Hnone Hempty). unfold statusOf. by rewrite Hfound.
  - destruct (Hsome Hmatched) as [Hsome' Hstatus].
    rewrite (statusOf_campaigns _ _ _ Hstatus).
    by apply statusOf_set_same.
Qed.

Lemma freshIds_emptyStore : freshIds emptyStore.
Proof. split; intros ? []%elem_of_nil. Qed.

Lemma freshIds_viewersStore : freshIds viewersStore.
Proof.
  split.
  - intros g ->%list_elem_of_singleton. vm_compute. lia.
  - intros c []%elem_of_nil.
Qed.

Lemma segment_created_then_previewed_witness :
  ∃ b d segment,
    viewersBody = Some b
    ∧ SegmentsRoute.validateField (get b "definition") = Valid d
    ∧ wellFormed d
    ∧ SegmentsRoute.GET 1 viewersStore = SegmentsRoute.Json segment
    ∧ Segment.id segment = 1%nat
    ∧ trimmedFrom b "name" (Segment.name segment)
    ∧ Segment.definition segment = definitionJson d
    ∧ (∀ now,
         SegmentsRoute.preview now 1 viewersStore
         = match evaluateSegment now d (db emptyStore) with
           | Some r => SegmentsRoute.Result r
           | None => SegmentsRoute.Failed 500 "Internal server error"
           end
         ∧ (is_Some (evaluateSegment now d (db emptyStore))
            ↔ Z.abs (now - days d * DAY_MS) ≤ MAX_TIME))
    ∧ (∀ id, id ≠ 1%nat →
         findSegment id viewersStore = findSegment id emptyStore)
    ∧ Db.customers (db viewersStore) = Db.customers (db emptyStore)
    ∧ Db.events (db viewersStore) = Db.events (db emptyStore)
    ∧ Db.campaigns (db viewersStore) = Db.campaigns (db emptyStore)
    ∧ Db.emailDrafts (db viewersStore) = Db.emailDrafts (db emptyStore)
    ∧ Db.sends (db viewersStore) = Db.sends (db emptyStore)
    ∧ freshIds viewersStore.
Proof.
  apply (segment_created_then_previewed viewersBody emptyStore viewersStore 1).
  - exact freshIds_emptyStore.
  - reflexivity.
Defined.

Lemma campaign_created_with_snapshot_witness :
  let s' := (CampaignsRoute.POST idOfSample springBody viewersStore).2 in
  ∃ b text segment campaign,
    springBody = Some b
    ∧ get b "segmentId" = Some (JStr text)
    ∧ idOfSample text ≫= (λ id, findSegment id viewersStore) = Some segment
    ∧ findCampaign 2 (db s') = Some campaign
    ∧ Campaign.id campaign = 2%nat
    ∧ trimmedFrom b "name" (Campaign.name campaign)
    ∧ Campaign.segmentId campaign = Segment.id segment
    ∧ Campaign.segmentSnapshot campaign = Segment.definition segment
    ∧ Campaign.status campaign = StatusDraft
    ∧ (∀ id, id ≠ 2%nat →
         findCampaign id (db s') = findCampaign id (db viewersStore))
    ∧ segments s' = segments viewersStore
    ∧ Db.customers (db s') = Db.customers (db viewersStore)
    ∧ Db.events (db s') = Db.events (db viewersStore)
    ∧ Db.emailDrafts (db s') = Db.emailDrafts (db viewersStore)
    ∧ Db.sends (db s') = Db.sends (db viewersStore)
    ∧ freshIds s'.
Proof.
  apply (campaign_created_with_snapshot idOfSample springBody viewersStore
           (CampaignsRoute.POST idOfSample springBody viewersStore).2 2).
  - exact freshIds_viewersStore.
  - reflexivity.
Defined.

Lemma created_campaign_generates_drafts_witness :
  let s2 := (CampaignsRoute.POST idOfSample springBody viewersStore).2 in
  ∃ b d,
    viewersBody = Some b
    ∧ SegmentsRoute.validateField (get b "definition") = Valid d
    ∧ (is_Some (evaluateSegment 5000 d (db s2))
       ↔ Z.abs (5000 - days d * DAY_MS) ≤ MAX_TIME)
    ∧ let r :=
        @GenerateDraftsRoute.POST SmartDraft.MockSmartDraftProvider
          5000 2 (db s2) in
      match evaluateSegment 5000 d (db s2) with
      | Some preview =>
          let matched := customers preview in
          r.1 = GenerateDraftsRoute.Json (length matched)
          ∧ statusOf 2 r.2
            = Some (if decide (matched = []) then StatusDraft
                    else StatusDrafted)
      | None =>
          r = (GenerateDraftsRoute.Error 500 "Internal server error", db s2)
      end.
Proof.
  apply (@created_campaign_generates_drafts SmartDraft.MockSmartDraftProvider
           idOfSample 5000 viewersBody springBody "seg-1"
           emptyStore viewersStore viewersStore
           (CampaignsRoute.POST idOfSample springBody viewersStore).2 1 2).
  - exact freshIds_emptyStore.
  - reflexivity.
  - reflexivity.
  - exact freshIds_viewersStore.
  - reflexivity.
  - reflexivity.
  - reflexivity.
Defined.

End SegmentAndCampaignRoutes.

(** ** lib/segmentPreview.ts: which customers are listed *)

Section PreviewList.
Import Segments Db SegmentPreview.

#[local] Instance emailLe_Total : Total emailLe.
Proof. intros a b. unfold emailLe. apply total, _. Qed.

#[local] Instance emailLe_Transitive : Transitive emailLe.
Proof. intros a b c. unfold emailLe. apply transitivity. Qed.

(** X21: which customers the preview lists when it cannot list all: no
    stored customer that matches and is left out of the list comes before a
    listed one in the order of emails. *)
Theorem preview_lists_first_emails
    (now : Z) (definition : SegmentDefinition) (db : Db.t)
    (r : PreviewResult) (c c' : Customer.t) :
  evaluateSegment now definition db = Some r →
  c ∈ customers r →
  c' ∈ Db.customers db → matches now definition db (Customer.id c') →
  c' ∉ customers r →
  String.le (Customer.email c) (Customer.email c').
Proof.
  intros (ids & _ & Hids & ->)%matching_ids Hc Hstored Hmatch%Hids Hout.
  by apply (fetchCustomers_front ids db c c').
Qed.

Lemma preview_lists_first_emails_witness :
  String.le (Customer.email (crowdCustomer 1))
    (Customer.email (crowdCustomer 51)).
Proof.
  destruct (evaluateSegment 2000 pageViewSegment crowdDb) as [r|] eqn:Hr;
    [|by vm_compute in Hr].
  assert (Hlist : customers <$> evaluateSegment 2000 pageViewSegment crowdDb
                  = Some (take 50 (Db.customers crowdDb)))
    by by vm_compute.
  rewrite Hr in Hlist. injection Hlist as Hlist.
  apply (preview_lists_first_emails 2000 pageViewSegment crowdDb r
           (crowdCustomer 1) (crowdCustomer 51) Hr); rewrite ?Hlist.
  - apply (bool_decide_unpack _). vm_compute. exact I.
  - apply (bool_decide_unpack _). vm_compute. exact I.
  - exists (crowdEvent 51). apply list_elem_of_filter. split.
    + split; [reflexivity|]. split; [reflexivity|]. vm_compute. discriminate.
    + apply (list_elem_of_lookup_2 _ 50). reflexivity.
  - apply (bool_decide_unpack _). vm_compute. exact I.
Defined.

Lemma matches_event (now : Z) (definition : SegmentDefinition) (db : Db.t)
    (c : Id) :
  matches now definition db c →
  ∃ e, e ∈ Db.events db ∧ Event.customerId e = c.
Proof.
  unfold matches, eventsInWindow.
  destruct definition; cbn [Segments.days].
  - intros (e & [[Hc _] He]%list_elem_of_filter). by exists e.
  - intros (e & [[Hc _] He]%list_elem_of_filter & _). by exists e.
  - intros [(e & [[Hc _] He]%list_elem_of_filter) _]. by exists e.
Qed.

(** X22: with customer ids distinct and every event owned by a stored
    customer, a preview whose count is at most 50 lists exactly the stored
    customers that match, and as many as it counts. *)
Theorem preview_complete_up_to_limit
    (now : Z) (definition : SegmentDefinition) (db : Db.t) :
  NoDup (Customer.id <$> Db.customers db) →
  (∀ e, e ∈ Db.events db →
     ∃ c, c ∈ Db.customers db ∧ Customer.id c = Event.customerId e) →
  ∀ r, evaluateSegment now definition db = Some r →
  (count r ≤ PREVIEW_LIMIT)%nat →
  length (customers r) = count r
  ∧ ∀ c, c ∈ customers r
         ↔ c ∈ Db.customers db ∧ matches now definition db (Customer.id c).
Proof.
  intros Hnodup Howned r (ids & Hdistinct & Hids & ->)%matching_ids.
  unfold fetchCustomers. case_bool_decide as Hlen; cbn [customers count].
  { apply nil_length_inv in Hlen. subst ids. intros _. split; [done|].
    intros c. split; [by intros []%elem_of_nil|].
    intros [_ []%Hids%elem_of_nil]. }
  set (found := filter (λ c, Customer.id c ∈ ids) (Db.customers db)).
  intros Hcount.
  assert (Hperm : Customer.id <$> found ≡ₚ ids).
  { apply NoDup_Permutation; [|done|].
    - eapply sublist_NoDup; [exact Hnodup|].
      apply fmap_sublist, sublist_filter.
    - intros id. rewrite list_elem_of_fmap. split.
      + intros (c & -> & [Hc _]%list_elem_of_filter). done.
      + intros Hid. destruct (matches_event now definition db id)
          as (e & He & Hcustomer); [by apply Hids|].
        destruct (Howned e He) as (c & Hc & Heq).
        exists c. split; [congruence|].
        apply list_elem_of_filter. split; [congruence | done]. }
  assert (Hlength : length found = length ids).
  { by rewrite <- Hperm, length_fmap. }
  assert (Hall : take PREVIEW_LIMIT (merge_sort emailLe found)
                 = merge_sort emailLe found).
  { apply take_ge. rewrite merge_sort_Permutation. lia. }
  rewrite Hall. split.
  - by rewrite merge_sort_Permutation.
  - intros c. rewrite merge_sort_Permutation.
    unfold found. rewrite list_elem_of_filter, Hids. tauto.
Qed.

Lemma preview_complete_up_to_limit_witness :
  ∃ r, evaluateSegment 2000 pageViewSegment (campaignDb StatusDraft) = Some r
       ∧ length (customers r) = count r
       ∧ ∀ c, c ∈ customers r
              ↔ c ∈ Db.customers (campaignDb StatusDraft)
                ∧ matches 2000 pageViewSegment (campaignDb StatusDraft)
                    (Customer.id c).
Proof.
  eexists. split; [reflexivity|].
  apply (preview_complete_up_to_limit 2000 pageViewSegment
           (campaignDb StatusDraft)).
  - apply NoDup_singleton.
  - intros e ->%list_elem_of_singleton. exists ann. split; [|reflexivity].
    by apply list_elem_of_singleton.
  - reflexivity.
  - vm_compute. lia.
Defined.

End PreviewList.

(** ** The smart routes *)

Section SmartRoutes.
Import Regex Segments Db SmartGenerate Store.

(** X23: from a suggestion to a segment.  For a prompt with something
    besides white space the route of the mock provider answers with the
    suggestion for the trimmed prompt, and the creation of a segment with
    that definition (and any name with something besides white space)
    succeeds exactly when each number of the suggestion is finite and the
    number of days read from the prompt is positive. *)
Theorem suggested_definition_saved_iff
    (b : json) (raw name : string) (s : Store.t) :
  get b "prompt" = Some (JStr raw) → trim raw ≠ "" → trim name ≠ "" →
  ∃ definition,
    @SmartGenerateRoute.POST SmartGenerateRoute.MockSmartGenerateProvider
      (Some b) = SmartGenerateRoute.Json definition
    ∧ definition = SmartGenerateRoute.suggestionJson (generate (trim raw))
    ∧ ((∃ id s',
          SegmentsRoute.POST
            (Some (JObj [("name", JStr name); ("definition", definition)])) s
          = (SegmentsRoute.Created id, s'))
       ↔ ∃ d, finiteDefinition (generate (trim raw)) = Some d ∧ 0 < days d).
Proof.
  intros Hprompt Hraw Hname.
  exists (SmartGenerateRoute.suggestionJson (generate (trim raw))).
  split_and!; [|done|].
  - unfold SmartGenerateRoute.POST. rewrite Hprompt. cbn [nonEmptyString].
    destruct (String.eqb_spec (trim raw) ""); [done|].
    destruct b; try reflexivity. discriminate.
  - unfold SegmentsRoute.POST.
    change (get (JObj _) "name") with (Some (JStr name)).
    change (get (JObj [("name", JStr name); ("definition", ?d)]) "definition")
      with (Some d).
    cbn [nonEmptyString SegmentsRoute.validateField].
    destruct (String.eqb_spec (trim name) ""); [done|].
    split.
    + intros (id & s' & Hpost).
      destruct (validateSegmentDefinition _) as [d|error] eqn:Hvalid;
        [|discriminate].
      exists d. by apply generate_valid.
    + intros (d & Hvalid%generate_valid). rewrite Hvalid. eauto.
Qed.

Lemma suggested_definition_saved_iff_witness :
  ∃ definition,
    @SmartGenerateRoute.POST SmartGenerateRoute.MockSmartGenerateProvider
      (Some (JObj [("prompt", JStr buyersPrompt)]))
    = SmartGenerateRoute.Json definition
    ∧ definition
      = SmartGenerateRoute.suggestionJson (generate (trim buyersPrompt))
    ∧ ((∃ id s',
          SegmentsRoute.POST
            (Some (JObj [("name", JStr "Buyers"); ("definition", definition)]))
            emptyStore
          = (SegmentsRoute.Created id, s'))
       ↔ ∃ d, finiteDefinition (generate (trim buyersPrompt)) = Some d
              ∧ 0 < days d).
Proof.
  apply (suggested_definition_saved_iff (JObj [("prompt", JStr buyersPrompt)])
           buyersPrompt "Buyers" emptyStore).
  - reflexivity.
  - vm_compute. discriminate.
  - vm_compute. discriminate.
Defined.

(** X24: the smart-draft route with the mock provider.  A body that is not
    [null] is answered with a draft exactly when its [customerEmail] is a
    text with something besides white space, and otherwise with status 400.
    The subject of the draft names the recommended SKU when the body gives
    one as a non-empty text, and is the generic subject when the SKU is
    absent, empty or not a text. *)
Theorem smart_draft_route_subject (b : json) :
  b ≠ JNull →
  match @SmartDraftRoute.POST SmartDraft.MockSmartDraftProvider (Some b) with
  | SmartDraftRoute.Json draft =>
      (∃ raw, get b "customerEmail" = Some (JStr raw) ∧ trim raw ≠ "")
      ∧ SmartDraft.subject draft
        = match get b "recommendedSku" with
          | Some (JStr sku) =>
              if String.eqb sku "" then "We have something special for you"
              else "Still thinking about " +:+ sku +:+ "?"
          | _ => "We have something special for you"
          end
  | SmartDraftRoute.Error status _ =>
      status = 400%nat ∧ nonEmptyString (get b "customerEmail") = None
  end.
Proof.
  intros Hb. unfold SmartDraftRoute.POST.
  set (rest := match nonEmptyString (get b "customerEmail") with
               | Some customerEmail => _
               | None => _
               end).
  assert (Hrest : match b with
                  | JNull => SmartDraftRoute.Error 500 "Internal server error"
                  | _ => rest
                  end = rest) by (by destruct b).
  rewrite Hrest. clear Hrest. subst rest.
  destruct (nonEmptyString (get b "customerEmail")) as [email|] eqn:Hemail;
    [|done].
  split.
  { apply nonEmptyString_inv in Hemail as (raw & Hraw & -> & Hne). eauto. }
  cbn [SmartDraft.generate SmartDraft.MockSmartDraftProvider].
  unfold SmartDraft.mockGenerate. cbv zeta.
  cbn [SmartDraft.recommendedSku SmartDraft.recentEventType mjoin
       option_join SmartDraftRoute.stringOrUndefined].
  destruct (get b "recommendedSku") as [[| | |sku| |]|];
    cbn [SmartDraftRoute.stringOrUndefined SmartDraft.present mjoin option_join];
    try (by destruct (SmartDraft.present _)).
  destruct (String.eqb sku ""); by destruct (SmartDraft.present _).
Qed.

Lemma smart_draft_route_subject_witness :
  match
    @SmartDraftRoute.POST SmartDraft.MockSmartDraftProvider
      (Some numericSkuBody)
  with
  | SmartDraftRoute.Json draft =>
      (∃ raw, get numericSkuBody "customerEmail" = Some (JStr raw)
              ∧ trim raw ≠ "")
      ∧ SmartDraft.subject draft
        = match get numericSkuBody "recommendedSku" with
          | Some (JStr sku) =>
              if String.eqb sku "" then "We have something special for you"
              else "Still thinking about " +:+ sku +:+ "?"
          | _ => "We have something special for you"
          end
  | SmartDraftRoute.Error status _ =>
      status = 400%nat
      ∧ nonEmptyString (get numericSkuBody "customerEmail") = None
  end.
Proof. apply (smart_draft_route_subject numericSkuBody). discriminate. Defined.

End SmartRoutes.

(** ** The campaign routes: what they leave alone *)

Section CampaignRoutesFrame.
Import Segments Db SegmentPreview SmartDraft.

Lemma evaluateSegment_tables (now : Z) (d : SegmentDefinition)
    (db1 db2 : Db.t) :
  Db.customers db1 = Db.customers db2 → Db.events db1 = Db.events db2 →
  evaluateSegment now d db1 = evaluateSegment now d db2.
Proof.
  intros Hc He. unfold evaluateSegment.
  destruct (cutoffFor now (Segments.days d)) as [cutoff|]; [|done].
  destruct d;
    unfold evaluateEventTypeInLastDays, evaluateEventPropertyEquals,
      evaluateEventCountGte, fetchCustomers;
    by rewrite Hc, He.
Qed.

Lemma upsertDraft_tables (cid cu : Id) (out : DraftOutput)
    (sku : option string) (db : Db.t) :
  let db' := GenerateDraftsRoute.upsertDraft cid cu out sku db in
  Db.customers db' = Db.customers db ∧ Db.events db' = Db.events db
  ∧ Db.sends db' = Db.sends db.
Proof.
  unfold GenerateDraftsRoute.upsertDraft. by destruct (upsert _ _ _ _).
Qed.

Lemma draftLoop_tables `{SmartDraftProvider} (id : Id)
    (m : gmap Id (list Event.t)) (cs : list Customer.t) (db : Db.t)
    (n : nat) :
  let st := foldl (GenerateDraftsRoute.draftStep id m) (db, n) cs in
  Db.customers st.1 = Db.customers db ∧ Db.events st.1 = Db.events db
  ∧ Db.sends st.1 = Db.sends db.
Proof.
  revert db n. induction cs as [|c cs IH]; intros db n; cbn [foldl]; [done|].
  destruct (GenerateDraftsRoute.draftFor m c) as [out sku] eqn:Hdraft.
  assert (Hstep : GenerateDraftsRoute.draftStep id m (db, n) c
    = (GenerateDraftsRoute.upsertDraft id (Customer.id c) out sku db, S n)).
  { unfold GenerateDraftsRoute.draftStep. by rewrite Hdraft. }
  rewrite Hstep.
  destruct (IH (GenerateDraftsRoute.upsertDraft id (Customer.id c) out sku db)
              (S n)) as (Hc & He & Hs).
  destruct (upsertDraft_tables id (Customer.id c) out sku db)
    as (Hc1 & He1 & Hs1).
  cbv zeta in *. split_and!; congruence.
Qed.

Lemma generate_tables `{SmartDraftProvider} (now : Z) (id : Id) (db : Db.t) :
  let r := GenerateDraftsRoute.POST now id db in
  Db.customers r.2 = Db.customers db ∧ Db.events r.2 = Db.events db
  ∧ Db.sends r.2 = Db.sends db.
Proof.
  unfold GenerateDraftsRoute.POST.
  destruct (findCampaign id db) as [campaign|]; [|done].
  destruct (validateSegmentDefinition _) as [definition|error]; [|done].
  destruct (evaluateSegment now definition db) as [preview|]; [|done].
  case_bool_decide; [done|].
  set (m := GenerateDraftsRoute.groupByCustomer _).
  set (cs := customers _).
  pose proof (draftLoop_tables id m cs db 0) as Hloop.
  destruct (foldl _ _ cs) as [db1 draftedCount]. cbn [fst snd] in *.
  by destruct (0 <? draftedCount)%nat.
Qed.

Lemma send_tables (now : Z) (id : Id) (db : Db.t) :
  let r := SendRoute.POST now id db in
  Db.customers r.2 = Db.customers db ∧ Db.events r.2 = Db.events db
  ∧ Db.emailDrafts r.2 = Db.emailDrafts db.
Proof.
  unfold SendRoute.POST.
  destruct (findCampaign id db) as [campaign|]; [|done].
  case_bool_decide; [done|].
  set (drafts := filter _ _).
  assert (Hloop : ∀ db0 n k,
    let st := foldl (SendRoute.sendStep now id) (db0, n, k) drafts in
    Db.customers st.1.1 = Db.customers db0
    ∧ Db.events st.1.1 = Db.events db0
    ∧ Db.emailDrafts st.1.1 = Db.emailDrafts db0).
  { clearbody drafts. induction drafts as [|d drafts IH]; intros db0 n k;
      cbn [foldl]; [done|].
    assert (Hstep : SendRoute.sendStep now id (db0, n, k) d
      = (SendRoute.upsertSend id (EmailDraft.customerId d) SendSent
           (Some now) None false db0, S n, k)) by reflexivity.
    rewrite Hstep.
    destruct (IH (SendRoute.upsertSend id (EmailDraft.customerId d) SendSent
                    (Some now) None false db0) (S n) k) as (Hc & He & Hd).
    cbv zeta in *. rewrite Hc, He, Hd.
    unfold SendRoute.upsertSend. by destruct (upsert _ _ _ _). }
  specialize (Hloop db 0%nat 0%nat).
  destruct (foldl _ _ drafts) as [[db1 sentCount] failedCount].
  cbn [fst snd] in *. done.
Qed.

(** X25: the campaign routes answer with an error only without having
    changed the database.  Draft generation answers 404 when the campaign
    is missing, 400 when it is stored with a snapshot that the validator
    refuses, and 500 when the snapshot is valid and its evaluation throws:
    the instant that many days before the clock reading is outside the
    range of [Date]; a send answers 404 when the campaign is missing and
    400 when it has no approved draft; a patch of a draft answers 400,
    404, 409 or 500. *)
Theorem campaign_routes_errors_change_nothing `{SmartDraftProvider}
    (now : Z) (id draftId : Id) (body : option json) (db : Db.t)
    (status : nat) (error : string) :
  ((GenerateDraftsRoute.POST now id db).1
   = GenerateDraftsRoute.Error status error →
   (GenerateDraftsRoute.POST now id db).2 = db
   ∧ (status = 404%nat ∧ findCampaign id db = None
      ∨ status = 400%nat
        ∧ (∃ campaign message,
             findCampaign id db = Some campaign
             ∧ validateSegmentDefinition (Campaign.segmentSnapshot campaign)
               = Invalid message)
      ∨ status = 500%nat
        ∧ (∃ campaign d,
             findCampaign id db = Some campaign
             ∧ validateSegmentDefinition (Campaign.segmentSnapshot campaign)
               = Valid d
             ∧ MAX_TIME < Z.abs (now - Segments.days d * DAY_MS))))
  ∧ ((SendRoute.POST now id db).1 = SendRoute.Error status error →
     (SendRoute.POST now id db).2 = db
     ∧ (status = 404%nat ∧ findCampaign id db = None
        ∨ status = 400%nat ∧ approvedDrafts id db = []))
  ∧ ((DraftRoute.PATCH id draftId body db).1 = DraftRoute.Error status error →
     (DraftRoute.PATCH id draftId body db).2 = db
     ∧ status ∈ [400; 404; 409; 500]%nat).
Proof.
  split_and!.
  - unfold GenerateDraftsRoute.POST.
    destruct (findCampaign id db) as [campaign|].
    2:{ intros [= <- _]. auto. }
    destruct (validateSegmentDefinition _) as [definition|message] eqn:Hvalid.
    2:{ intros [= <- _]. eauto 10. }
    destruct (evaluateSegment now definition db) as [preview|] eqn:Hpreview.
    2:{ intros [= <- _]. split; [done|]. right; right. split; [done|].
        exists campaign, definition. split_and!; [done | done |].
        apply Z.lt_nge. intros Hle%(evaluateSegment_returns _ _ db).
        rewrite Hpreview in Hle. by destruct Hle. }
    case_bool_decide; [discriminate|].
    destruct (foldl _ _ _) as [db1 draftedCount]. discriminate.
  - unfold SendRoute.POST. fold (approvedDrafts id db).
    destruct (findCampaign id db) as [campaign|].
    2:{ intros [= <- _]. auto. }
    case_bool_decide as Hempty.
    { intros [= <- _]. apply nil_length_inv in Hempty. auto. }
    destruct (foldl _ _ _) as [[db1 sentCount] failedCount]. discriminate.
  - unfold DraftRoute.PATCH.
    assert (Hstatus : ∀ n : nat,
      n = 400%nat ∨ n = 404%nat ∨ n = 409%nat ∨ n = 500%nat →
      n ∈ [400; 404; 409; 500]%nat).
    { intros n. rewrite !elem_of_cons, elem_of_nil. tauto. }
    destruct body as [b|]; [|intros [= <- _]; auto 10].
    set (rest := match get b "status" with
                 | Some (JStr status) => _
                 | _ => _
                 end).
    assert (Hrest : rest.1 = DraftRoute.Error status error →
                    rest.2 = db ∧ status ∈ [400; 404; 409; 500]%nat).
    { subst rest. unfold DraftRoute.invalidStatus.
      destruct (get b "status") as [[| | |requested| |]|];
        try (intros [= <- _]; auto 10; fail).
      case_bool_decide; [|intros [= <- _]; auto 10].
      destruct (DraftRoute.findDraft id draftId db) as [existing|];
        [|intros [= <- _]; auto 10].
      destruct (EmailDraft.status existing);
        try (intros [= <- _]; auto 10; fail).
      unfold DraftRoute.updateStatus.
      destruct (findFirst _ (emailDrafts db)) as [row|];
        [discriminate | intros [= <- _]; auto 10]. }
    destruct b; try exact Hrest. intros [= <- _]. auto 10.
Qed.

Lemma campaign_routes_errors_change_nothing_witness :
  let run :=
    GenerateDraftsRoute.POST (H := MockSmartDraftProvider) 2000 3
      longWindowDb in
  run = (GenerateDraftsRoute.Error 500 "Internal server error", longWindowDb)
  ∧ ∃ d, validateSegmentDefinition longWindowSnapshot = Valid d
         ∧ MAX_TIME < Z.abs (2000 - Segments.days d * DAY_MS).
Proof.
  destruct (campaign_routes_errors_change_nothing (H := MockSmartDraftProvider)
              2000 3 0 None longWindowDb 500 "Internal server error")
    as (Hgenerate & _ & _).
  destruct (Hgenerate eq_refl)
    as [Hdb [[[=] _]|[[[=] _]|[_ (campaign & d & Hfind & Hvalid & Hfar)]]]].
  injection Hfind as <-. split.
  - by apply injective_projections.
  - by exists d.
Defined.

(** X26: the segment preview depends on the customers and the events
    only, which draft generation, a send and a patch of a draft leave as
    they are: after any of them every segment evaluates as before. *)
Theorem campaign_routes_keep_previews `{SmartDraftProvider}
    (now now' : Z) (id draftId : Id) (body : option json) (db : Db.t)
    (definition : SegmentDefinition) :
  evaluateSegment now' definition (GenerateDraftsRoute.POST now id db).2
  = evaluateSegment now' definition db
  ∧ evaluateSegment now' definition (SendRoute.POST now id db).2
    = evaluateSegment now' definition db
  ∧ evaluateSegment now' definition (DraftRoute.PATCH id draftId body db).2
    = evaluateSegment now' definition db.
Proof.
  split_and!; apply evaluateSegment_tables.
  - apply generate_tables.
  - apply generate_tables.
  - apply send_tables.
  - apply send_tables.
  - destruct (PATCH_cases id draftId body db)
      as [(status & error & ->)|(_ & requested & _ & _ & _ & _ & _ & _ & ->)];
      [done|].
    unfold DraftRoute.updateStatus. by destruct (findFirst _ _).
  - destruct (PATCH_cases id draftId body db)
      as [(status & error & ->)|(_ & requested & _ & _ & _ & _ & _ & _ & ->)];
      [done|].
    unfold DraftRoute.updateStatus. by destruct (findFirst _ _).
Qed.

End CampaignRoutesFrame.

(** ** lib/segments.ts: what the validator reads *)

Section ValidatorReads.
Import Segments.

(** X27: the validator reads six fields of an object and nothing else:
    two objects that agree on [kind], [eventType], [path], [value], [days]
    and [minCount] get the same answer, the same definition or the same
    error, whatever other fields they have. *)
Theorem validateSegmentDefinition_reads_its_fields
    (fields fields' : list (string * json)) :
  (∀ k, k ∈ definitionFields → assoc k fields = assoc k fields') →
  validateSegmentDefinition (JObj fields)
  = validateSegmentDefinition (JObj fields').
Proof.
  intros Hsame.
  assert (Hget : ∀ k, k ∈ definitionFields →
                      get (JObj fields) k = get (JObj fields') k)
    by (intros k Hk; by apply Hsame).
  assert (Hkind : get (JObj fields) "kind" = get (JObj fields') "kind").
  { apply Hget. unfold definitionFields. rewrite !elem_of_cons. tauto. }
  assert (Htype : get (JObj fields) "eventType"
                  = get (JObj fields') "eventType").
  { apply Hget. unfold definitionFields. rewrite !elem_of_cons. tauto. }
  assert (Hpath : get (JObj fields) "path" = get (JObj fields') "path").
  { apply Hget. unfold definitionFields. rewrite !elem_of_cons. tauto. }
  assert (Hvalue : get (JObj fields) "value" = get (JObj fields') "value").
  { apply Hget. unfold definitionFields. rewrite !elem_of_cons. tauto. }
  assert (Hdays : get (JObj fields) "days" = get (JObj fields') "days").
  { apply Hget. unfold definitionFields. rewrite !elem_of_cons. tauto. }
  assert (Hcount : get (JObj fields) "minCount"
                   = get (JObj fields') "minCount").
  { apply Hget. unfold definitionFields. rewrite !elem_of_cons. tauto. }
  unfold validateSegmentDefinition, validateEventTypeInLastDays,
    validateEventPropertyEquals, validateEventCountGteInLastDays.
  by rewrite Hkind, Htype, Hpath, Hvalue, Hdays, Hcount.
Qed.

Lemma validateSegmentDefinition_reads_its_fields_witness :
  validateSegmentDefinition annotatedInput
  = validateSegmentDefinition paddedValueInput.
Proof.
  apply (validateSegmentDefinition_reads_its_fields
           [("note", JStr "draft"); ("kind", JStr "event_property_equals");
            ("eventType", JStr " purchase "); ("path", JStr " sku ");
            ("value", JStr " A "); ("days", JNum (Qmake 7 1));
            ("label", JNum (Qmake 3 1))]
           [("kind", JStr "event_property_equals");
            ("eventType", JStr " purchase "); ("path", JStr " sku ");
            ("value", JStr " A "); ("days", JNum (Qmake 7 1))]).
  intros k Hk. unfold definitionFields in Hk.
  rewrite !elem_of_cons, elem_of_nil in Hk.
  destruct Hk as [->|[->|[->|[->|[->|[->|[]]]]]]]; reflexivity.
Defined.

End ValidatorReads.

(** ** lib/smartGenerate/mock.ts: the event type and the path *)

Section EventTypeAndPath.
Import Regex Segments SmartGenerate.

Lemma rmatch_alt_first {A} (r1 r2 : regex) (s : list ascii) cap
    (k : list ascii → capture → option A) (a : A) :
  rmatch r1 s cap k = Some a → rmatch (Alt r1 r2) s cap k = Some a.
Proof. intros Hr. cbn [rmatch]. by rewrite Hr. Qed.

Lemma test_added_to_cart (pre post : string) :
  test (seq [lit "add"; opt (lit "ed"); plus ws; lit "to"; plus ws;
             lit "cart"])
    (pre +:+ "added to cart" +:+ post) = true.
Proof.
  apply test_true. unfold exec. rewrite !chars_app.
  apply (search_found _ _ _ None). unfold matchHere.
  change (chars "added to cart" ++ chars post)
    with (chars "add" ++ chars "ed" ++ [" "%char] ++ chars "to"
          ++ [" "%char] ++ chars "cart" ++ chars post).
  cbn [seq]. rewrite rmatch_seq. unfold lit at 1.
  rewrite rmatch_lit_chars, rmatch_seq. unfold opt.
  apply rmatch_alt_first. unfold lit at 1. rewrite rmatch_lit_chars.
  rewrite rmatch_seq.
  apply rmatch_plus_cls_run; [done | by repeat constructor | reflexivity |].
  cbv beta. rewrite rmatch_seq. unfold lit at 1.
  rewrite rmatch_lit_chars, rmatch_seq.
  apply rmatch_plus_cls_run; [done | by repeat constructor | reflexivity |].
  cbv beta. unfold lit. by rewrite rmatch_lit_chars.
Qed.

Lemma test_purchas (pre post : string) :
  test (lit "purchas") (pre +:+ "purchas" +:+ post) = true.
Proof.
  apply test_true. unfold exec. rewrite !chars_app.
  apply (search_found _ _ _ None). unfold matchHere, lit.
  by rewrite rmatch_lit_chars.
Qed.

(** X28: the event type read from a text follows the order of the table:
    a text with [added to cart] gives [added_to_cart], whatever else it
    says; a text with [purchas] gives [purchase] unless it matches the cart
    pattern; and a text that matches no pattern of the table gives
    [page_view]. *)
Theorem parseEventType_table_order :
  (∀ pre post,
     parseEventType (pre +:+ "added to cart" +:+ post) = "added_to_cart")
  ∧ (∀ pre post,
       let text := pre +:+ "purchas" +:+ post in
       test (seq [lit "add"; opt (lit "ed"); plus ws; lit "to"; plus ws;
                  lit "cart"]) text = false →
       parseEventType text = "purchase")
  ∧ (∀ text,
       (∀ m, m ∈ mappings → test m.1 text = false) →
       parseEventType text = "page_view").
Proof.
  split_and!.
  - intros pre post. unfold parseEventType, mappings. cbn [list_find fst].
    by rewrite decide_True by apply test_added_to_cart.
  - intros pre post text Hcart. unfold parseEventType, mappings.
    cbn [list_find fst]. rewrite decide_False by (by rewrite Hcart).
    by rewrite decide_True by apply test_purchas.
  - intros text Hnone. unfold parseEventType.
    destruct (list_find _ mappings) as [[i [r eventType]]|] eqn:Hfind;
      [|done].
    apply list_find_Some in Hfind as (Hi%list_elem_of_lookup_2 & Htest & _).
    rewrite (Hnone _ Hi) in Htest. discriminate.
Qed.

Lemma first_path (c : ascii) (s : list ascii) :
  c ≠ "/"%char → matchHere re_path (c :: s) = None.
Proof.
  intros Hc. unfold matchHere, re_path. cbn [seq rmatch].
  by destruct (Ascii.eqb_spec c "/").
Qed.

Lemma exec_path_none (text : string) :
  without "/" text → exec re_path text = None.
Proof.
  intros Hnone. unfold exec.
  rewrite <- (app_nil_r (chars text)), search_skip; [reflexivity|].
  intros c rest Hc. apply first_path. intros ->. by apply Hnone.
Qed.

Lemma exec_path_word (pre w post : string) :
  without "/" pre → chars w ≠ [] →
  Forall (λ c, isWord c = true) (chars w) → stops isWord (chars post) →
  exec re_path (pre +:+ "/" +:+ w +:+ post) = Some (Some (chars w)).
Proof.
  intros Hpre Hne Hword Hpost. unfold exec.
  rewrite !chars_app, search_skip.
  - apply search_here. unfold matchHere, re_path.
    change (chars "/" ++ chars w ++ chars post)
      with ("/"%char :: chars w ++ chars post).
    cbn [seq]. rewrite rmatch_seq. cbn [rmatch]. rewrite Ascii.eqb_refl.
    fold (plus word).
    apply rmatch_plus_cls_run; [done..|].
    rewrite length_app.
    replace (length (chars w) + length (chars post) - length (chars post))%nat
      with (length (chars w)) by lia.
    by rewrite take_app_length.
  - intros c rest Hc. apply first_path. intros ->. by apply Hpre.
Qed.

(** X29: the path of a property suggestion.  When the lowered prompt
    matches the pricing pattern, the suggestion is about [page_view] events
    whose [path] is [/pricing] if the prompt has no slash, and the first
    slash of the prompt with the word after it when a word follows that
    slash. *)
Theorem generate_path (prompt : string) :
  test re_pricing (toLowerCase prompt) = true →
  (without "/" (toLowerCase prompt) →
   generate prompt
   = EventPropertyEquals "page_view" "path" "/pricing"
       (parseDays (toLowerCase prompt)))
  ∧ (∀ pre w post,
       toLowerCase prompt = pre +:+ "/" +:+ w +:+ post →
       without "/" pre → chars w ≠ [] →
       Forall (λ c, isWord c = true) (chars w) → stops isWord (chars post) →
       generate prompt
       = EventPropertyEquals "page_view" "path" ("/" +:+ w)
           (parseDays (toLowerCase prompt))).
Proof.
  intros Hpricing. unfold generate. cbv zeta. rewrite Hpricing. split.
  - intros Hnone. by rewrite exec_path_none.
  - intros pre w post Hlower Hpre Hne Hword Hpost.
    rewrite Hlower at 1.
    rewrite (exec_path_word pre w post) by done.
    unfold group1. cbn [default id]. by rewrite str_chars.
Qed.

Lemma generate_path_witness :
  generate "Visitors of the pricing page"
  = EventPropertyEquals "page_view" "path" "/pricing"
      (parseDays (toLowerCase "Visitors of the pricing page")).
Proof.
  apply (generate_path "Visitors of the pricing page").
  - reflexivity.
  - apply without_decide. reflexivity.
Defined.

End EventTypeAndPath.
